(** * Smart Review v2: the agent orchestration and sandboxed execution core

    A shallow embedding of [smart-review-v2.js] (classes [SecurityUtils],
    [AgentSandbox], [ResultCache] and [ParallelExecutor]) together with the
    constants of [Config] from [init-smart-review.js].

    JavaScript strings are sequences of UTF-16 code units; regular
    expressions are given as syntax trees run by a small backtracking
    matcher that follows the ECMAScript matching order; effects (clock,
    process spawning, thrown exceptions, the object heap) are threaded
    through a state-and-exception monad over a [World]. *)

From Stdlib Require Import ZArith NArith List String Ascii Lia Bool.
From stdpp Require Import base option list pretty.

Set Default Proof Using "Type".
Set Warnings "-register-all".
Local Open Scope N_scope.

(* ================================================================== *)
(** ** JavaScript strings *)
(* ================================================================== *)

Module Js.

(** A UTF-16 code unit and a string of them. *)
Definition char := N.
Definition str := list N.

(** ASCII literals. *)
Definition lit (s : string) : str :=
  map N_of_ascii (list_ascii_of_string s).
Arguments lit s%_string.

Definition eqb_str (a b : str) : bool := bool_decide (a = b).

(** Character classes of the ECMAScript pattern language. *)
Definition in_range (lo hi c : char) : bool := (lo <=? c) && (c <=? hi).
Definition one_of (l : list char) (c : char) : bool := existsb (N.eqb c) l.
Definition none_of (l : list char) (c : char) : bool := negb (one_of l c).
Definition chr_eq (a : char) (c : char) : bool := c =? a.

(** [\s]: WhiteSpace and LineTerminator. *)
Definition is_space (c : char) : bool :=
  one_of [9; 10; 11; 12; 13; 32; 160; 0x1680; 0x2028; 0x2029;
          0x202F; 0x205F; 0x3000; 0xFEFF] c
  || in_range 0x2000 0x200A c.

(** [\d] and [\w]. *)
Definition is_digit (c : char) : bool := in_range 48 57 c.
Definition is_upper (c : char) : bool := in_range 65 90 c.
Definition is_lower (c : char) : bool := in_range 97 122 c.
Definition is_word (c : char) : bool :=
  is_upper c || is_lower c || is_digit c || (c =? 95).

(** [.] without the [s] flag: anything but a line terminator. *)
Definition is_line_terminator (c : char) : bool :=
  one_of [10; 13; 0x2028; 0x2029] c.
Definition dot (c : char) : bool := negb (is_line_terminator c).

(** Canonicalisation of the [i] flag without the [u] flag: a code unit
    is upper-cased, except that a non-ASCII unit is never mapped to an
    ASCII one.  Against ASCII pattern characters this is ASCII case
    folding. *)
Definition ascii_upper (c : char) : char :=
  if is_lower c then c - 32 else c.
Definition chr_eqi (a : char) (c : char) : bool :=
  ascii_upper c =? ascii_upper a.

(** [String.prototype.startsWith], [includes], [trim]. *)
Fixpoint startsWith (s p : str) : bool :=
  match p, s with
  | [], _ => true
  | a :: p', b :: s' => (a =? b) && startsWith s' p'
  | _ :: _, [] => false
  end.

Fixpoint includes (s p : str) : bool :=
  startsWith s p ||
  match s with
  | [] => false
  | _ :: s' => includes s' p
  end.

Fixpoint trimStart (s : str) : str :=
  match s with
  | c :: s' => if is_space c then trimStart s' else s
  | [] => []
  end.
Definition trimEnd (s : str) : str := rev (trimStart (rev s)).
Definition trim (s : str) : str := trimEnd (trimStart s).

(** [Array.prototype.join]. *)
Fixpoint join (sep : str) (l : list str) : str :=
  match l with
  | [] => []
  | [x] => x
  | x :: l' => x ++ sep ++ join sep l'
  end.

(** [String(n)] for an integer. *)
Definition of_Z (z : Z) : str := lit (pretty z).

(** [parseInt] on a string of decimal digits (the only argument the
    parser below gives it). *)
Definition digit_val (c : char) : Z := Z.of_N (c - 48).
Definition parseDigits (s : str) : Z :=
  fold_left (fun acc c => (10 * acc + digit_val c)%Z) s 0%Z.

End Js.

Import Js.

(* ================================================================== *)
(** ** Regular expressions *)
(* ================================================================== *)

Module Regex.

(** The fragment of the pattern language the program uses.  Every
    quantifier of the source is applied to a single character class,
    except the optional group of the file-and-line pattern. *)
Inductive regex : Type :=
| Chr (p : char -> bool)
| Eps
| Seq (r1 r2 : regex)
| Alt (r1 r2 : regex)
| Rep (greedy : bool) (p : char -> bool) (lo : nat) (hi : option nat)
| Opt (r : regex)
| Bol
| Eol
| Grp (n : nat) (r : regex).

(** Captures: group number and captured text, latest first. *)
Definition caps := list (nat * str).

Definition capture (n : nat) (cs : caps) : option str :=
  snd <$> List.find (fun p => Nat.eqb (fst p) n) cs.

Definition below (n : nat) (hi : option nat) : bool :=
  match hi with
  | Some h => Nat.ltb n h
  | None => true
  end.

Section Matcher.
Context {R : Type}.

(** A continuation receives the position, the rest of the input and
    the captures. *)
Definition cont := nat -> str -> caps -> option R.

(** Greedy repetition: take one more when possible, give back on
    failure of the continuation. *)
Fixpoint rep_greedy (p : char -> bool) (lo : nat) (hi : option nat)
    (n : nat) (pos : nat) (t : str) (cs : caps) (k : cont) : option R :=
  let stop := if Nat.leb lo n then k pos t cs else None in
  match t with
  | c :: t' =>
      if p c && below n hi then
        match rep_greedy p lo hi (S n) (S pos) t' cs k with
        | Some x => Some x
        | None => stop
        end
      else stop
  | [] => stop
  end.

(** Lazy repetition: stop as soon as the continuation accepts. *)
Fixpoint rep_lazy (p : char -> bool) (lo : nat) (hi : option nat)
    (n : nat) (pos : nat) (t : str) (cs : caps) (k : cont) : option R :=
  let more :=
    match t with
    | c :: t' =>
        if p c && below n hi
        then rep_lazy p lo hi (S n) (S pos) t' cs k
        else None
    | [] => None
    end in
  if Nat.leb lo n then
    match k pos t cs with
    | Some x => Some x
    | None => more
    end
  else more.

Fixpoint run (r : regex) (pos : nat) (t : str) (cs : caps) (k : cont)
    : option R :=
  match r with
  | Chr p =>
      match t with
      | c :: t' => if p c then k (S pos) t' cs else None
      | [] => None
      end
  | Eps => k pos t cs
  | Seq r1 r2 => run r1 pos t cs (fun pos' t' cs' => run r2 pos' t' cs' k)
  | Alt r1 r2 =>
      match run r1 pos t cs k with
      | Some x => Some x
      | None => run r2 pos t cs k
      end
  | Rep true p lo hi => rep_greedy p lo hi 0 pos t cs k
  | Rep false p lo hi => rep_lazy p lo hi 0 pos t cs k
  | Opt r' =>
      match run r' pos t cs k with
      | Some x => Some x
      | None => k pos t cs
      end
  | Bol => if Nat.eqb pos 0 then k pos t cs else None
  | Eol => match t with [] => k pos t cs | _ :: _ => None end
  | Grp n r' =>
      run r' pos t cs
        (fun pos' t' cs' => k pos' t' ((n, take (pos' - pos) t) :: cs'))
  end.
End Matcher.

(** A match: number of code units consumed and the captures. *)
Record match_result := MkMatch { m_len : nat; m_caps : caps }.

(** Match attempt at one position. *)
Definition match_at (r : regex) (pos : nat) (t : str) : option match_result :=
  run r pos t [] (fun pos' _ cs => Some (MkMatch (pos' - pos) cs)).

(** [RegExp.prototype.exec] of a pattern without the [g] flag: first
    position, from the left, where the pattern matches. *)
Fixpoint search (r : regex) (pos : nat) (t : str) : option (nat * match_result) :=
  match match_at r pos t with
  | Some m => Some (pos, m)
  | None =>
      match t with
      | [] => None
      | _ :: t' => search r (S pos) t'
      end
  end.

(** [RegExp.prototype.test] (no [g] flag). *)
Definition test (r : regex) (s : str) : bool :=
  bool_decide (is_Some (search r 0 s)).

(** [String.prototype.match] with a pattern without the [g] flag. *)
Definition match_first (r : regex) (s : str) : option match_result :=
  snd <$> search r 0 s.

(** [String.prototype.replace] with a [g] pattern and a replacement
    computed from the matched text.  [skip] counts the code units of
    the current match that are still to be dropped.  After an empty
    match the scan advances by one unit. *)
Fixpoint replace_from (r : regex) (f : str -> str) (pos : nat) (t : str)
    (skip : nat) : str :=
  match skip with
  | S n =>
      match t with
      | [] => []
      | _ :: t' => replace_from r f (S pos) t' n
      end
  | O =>
      match match_at r pos t with
      | Some m =>
          f (take (m_len m) t) ++
          match t with
          | [] => []
          | c :: t' =>
              match m_len m with
              | O => c :: replace_from r f (S pos) t' 0
              | S n => replace_from r f (S pos) t' n
              end
          end
      | None =>
          match t with
          | [] => []
          | c :: t' => c :: replace_from r f (S pos) t' 0
          end
      end
  end.

Definition replace_all_fn (r : regex) (f : str -> str) (s : str) : str :=
  replace_from r f 0 s 0.
Definition replace_all (r : regex) (by_ : str) (s : str) : str :=
  replace_all_fn r (fun _ => by_) s.

(** [String.prototype.matchAll] with a [g] pattern: the successive
    matches, left to right, without overlap. *)
Fixpoint matches_from (r : regex) (pos : nat) (t : str) (skip : nat)
    : list match_result :=
  match skip with
  | S n =>
      match t with
      | [] => []
      | _ :: t' => matches_from r (S pos) t' n
      end
  | O =>
      match match_at r pos t with
      | Some m =>
          m ::
          match t with
          | [] => []
          | _ :: t' => matches_from r (S pos) t' (Nat.pred (m_len m))
          end
      | None =>
          match t with
          | [] => []
          | _ :: t' => matches_from r (S pos) t' 0
          end
      end
  end.

Definition matchAll (r : regex) (s : str) : list match_result :=
  matches_from r 0 s 0.

(** Pattern builders. *)
Definition Lit (s : str) : regex :=
  fold_right (fun c r => Seq (Chr (chr_eq c)) r) Eps s.
Definition LitI (s : str) : regex :=
  fold_right (fun c r => Seq (Chr (chr_eqi c)) r) Eps s.
Definition Plus (p : char -> bool) : regex := Rep true p 1 None.
Definition Star (p : char -> bool) : regex := Rep true p 0 None.
Definition Maybe (p : char -> bool) : regex := Rep true p 0 (Some 1%nat).
Fixpoint Seqs (l : list regex) : regex :=
  match l with
  | [] => Eps
  | [r] => r
  | r :: l' => Seq r (Seqs l')
  end.
Fixpoint Alts (l : list regex) : regex :=
  match l with
  | [] => Chr (fun _ => false)
  | [r] => r
  | r :: l' => Alt r (Alts l')
  end.

End Regex.

Import Regex.

(* ================================================================== *)
(** ** Node's [path] module (POSIX flavour) *)
(* ================================================================== *)

Module Path.

(** Segments between ['/'] separators. *)
Fixpoint split (s : str) : list str :=
  match s with
  | [] => [[]]
  | c :: s' =>
      if c =? 47 then [] :: split s'
      else match split s' with
           | seg :: rest => (c :: seg) :: rest
           | [] => [[c]]
           end
  end.

(** [normalizeString]: empty and ["."] segments vanish, [".."] removes
    the segment before it; above the top it is kept only when
    [allowAboveRoot].  [acc] is the result so far, last segment first. *)
Fixpoint normalize_segs (allowAboveRoot : bool) (acc : list str)
    (segs : list str) : list str :=
  match segs with
  | [] => rev acc
  | seg :: rest =>
      if eqb_str seg [] || eqb_str seg (lit ".") then
        normalize_segs allowAboveRoot acc rest
      else if eqb_str seg (lit "..") then
        match acc with
        | last :: acc' =>
            if eqb_str last (lit "..") then
              normalize_segs allowAboveRoot
                (if allowAboveRoot then seg :: acc else acc) rest
            else normalize_segs allowAboveRoot acc' rest
        | [] =>
            normalize_segs allowAboveRoot
              (if allowAboveRoot then [seg] else []) rest
        end
      else normalize_segs allowAboveRoot (seg :: acc) rest
  end.

Definition normalizeString (path : str) (allowAboveRoot : bool) : str :=
  join (lit "/") (normalize_segs allowAboveRoot [] (split path)).

Definition isAbsolute (p : str) : bool :=
  match p with
  | c :: _ => c =? 47
  | [] => false
  end.

(** The right-to-left loop of [path.resolve]: arguments are given last
    first; it stops at the first absolute one. *)
Fixpoint resolve_loop (args_rev : list str) (resolvedPath : str) : str * bool :=
  match args_rev with
  | [] => (resolvedPath, false)
  | p :: rest =>
      if eqb_str p [] then resolve_loop rest resolvedPath
      else
        let resolvedPath' := p ++ lit "/" ++ resolvedPath in
        if isAbsolute p then (resolvedPath', true)
        else resolve_loop rest resolvedPath'
  end.

(** [path.resolve(...args)]; the working directory is consulted after
    the arguments. *)
Definition resolve (cwd : str) (args : list str) : str :=
  let '(resolvedPath, resolvedAbsolute) := resolve_loop (rev args ++ [cwd]) [] in
  let normalized := normalizeString resolvedPath (negb resolvedAbsolute) in
  if resolvedAbsolute then lit "/" ++ normalized
  else match normalized with
       | [] => lit "."
       | _ => normalized
       end.

(** Segments of a resolved path. *)
Definition segments (p : str) : list str :=
  List.filter (fun seg => negb (eqb_str seg [])) (split p).

Fixpoint drop_common (a b : list str) : list str * list str :=
  match a, b with
  | x :: a', y :: b' => if eqb_str x y then drop_common a' b' else (a, b)
  | _, _ => (a, b)
  end.

(** [path.relative(from, to)]: one [".."] for each segment of [from]
    below the common directory, then what remains of [to]. *)
Definition relative (cwd : str) (from to : str) : str :=
  let from' := resolve cwd [from] in
  let to' := resolve cwd [to] in
  if eqb_str from' to' then []
  else
    let '(up, down) := drop_common (segments from') (segments to') in
    join (lit "/") (map (fun _ => lit "..") up ++ down).

End Path.

(* ================================================================== *)
(** ** Exceptions *)
(* ================================================================== *)

(** A thrown [Error] object: its [name], [message] and optional [code]. *)
Record exn := MkError {
  err_name : str;
  err_message : str;
  err_code : option str
}.

(** [new Error(message)]. *)
Definition Error (message : str) : exn := MkError (lit "Error") message None.
Definition TypeError (message : str) : exn := MkError (lit "TypeError") message None.

(** [String(error)]: [Error.prototype.toString]. *)
Definition String_of_exn (e : exn) : str :=
  match err_name e, err_message e with
  | n, [] => n
  | [], m => m
  | n, m => n ++ lit ": " ++ m
  end.

(** Outcome of an evaluation: a value, or a thrown exception. *)
Inductive Completion (A : Type) : Type :=
| Normal (a : A)
| Throw (e : exn).
Arguments Normal {A} a.
Arguments Throw {A} e.

Definition is_Normal {A} (c : Completion A) : bool :=
  match c with Normal _ => true | Throw _ => false end.
Definition is_Throw {A} (c : Completion A) : bool :=
  match c with Normal _ => false | Throw _ => true end.

(** Messages of the source. *)
Module Msg.
(** [無効なパス: パスが指定されていません] *)
Definition no_path : str :=
  [28961; 21177; 12394; 12497; 12473; 58; 32; 12497; 12473; 12364;
   25351; 23450; 12373; 12428; 12390; 12356; 12414; 12379; 12435].
(** [不正なパス: 危険なパターンが検出されました - ] *)
Definition dangerous : str :=
  [19981; 27491; 12394; 12497; 12473; 58; 32; 21361; 38522; 12394;
   12497; 12479; 12540; 12531; 12364; 26908; 20986; 12373; 12428;
   12414; 12375; 12383; 32; 45; 32].
(** [不正なパス: ベースディレクトリ外へのアクセス - ] *)
Definition outside : str :=
  [19981; 27491; 12394; 12497; 12473; 58; 32; 12505; 12540; 12473;
   12487; 12451; 12524; 12463; 12488; 12522; 22806; 12408; 12398;
   12450; 12463; 12475; 12473; 32; 45; 32].
(** [不正なパス: 正規化後もパストラバーサルが検出されました - ] *)
Definition traversal : str :=
  [19981; 27491; 12394; 12497; 12473; 58; 32; 27491; 35215; 21270;
   24460; 12418; 12497; 12473; 12488; 12521; 12496; 12540; 12469;
   12523; 12364; 26908; 20986; 12373; 12428; 12414; 12375; 12383; 32;
   45; 32].
(** [不正なパス: パスが長すぎます - ] *)
Definition too_long : str :=
  [19981; 27491; 12394; 12497; 12473; 58; 32; 12497; 12473; 12364;
   38263; 12377; 12366; 12414; 12377; 32; 45; 32].
(** [許可されていないコマンド: ] *)
Definition not_allowed : str :=
  [35377; 21487; 12373; 12428; 12390; 12356; 12394; 12356; 12467;
   12510; 12531; 12489; 58; 32].
(** [エージェント実行タイムアウト] *)
Definition timeout : str :=
  [12456; 12540; 12472; 12455; 12531; 12488; 23455; 34892; 12479;
   12452; 12512; 12450; 12454; 12488].
(** [Claude Code/Claudeコマンドが見つかりません] *)
Definition no_claude : str :=
  [67; 108; 97; 117; 100; 101; 32; 67; 111; 100; 101; 47; 67; 108;
   97; 117; 100; 101; 12467; 12510; 12531; 12489; 12364; 35211;
   12388; 12363; 12426; 12414; 12379; 12435].
End Msg.

(* ================================================================== *)
(** ** [Config] (init-smart-review.js) *)
(* ================================================================== *)

Module Config.
Definition ALLOWED_COMMANDS : list str :=
  [lit "git"; lit "mkdir"; lit "claude-code"; lit "claude"].
Definition COMMAND_TIMEOUT : Z := 60000.
Definition MAX_BUFFER : Z := 10 * 1024 * 1024.
Definition AGENT_TIMEOUT : Z := 120000.
End Config.

(* ================================================================== *)
(** ** [SecurityUtils]: the pure part *)
(* ================================================================== *)

Module SecurityUtils.

(** The eleven deny patterns of [validatePath], in source order. *)
Definition pat_dotdot : regex := Lit (lit "..").
Definition pat_tilde : regex := Chr (chr_eq 126).
Definition pat_abs_unix : regex := Seq Bol (Plus (chr_eq 47)).
Definition pat_abs_win : regex :=
  Seqs [Bol; Chr (fun c => is_lower c || is_upper c); Chr (chr_eq 58);
        Chr (chr_eq 92)].
Definition pat_nul : regex := Chr (chr_eq 0).
Definition pat_symbols : regex := Chr (one_of [60; 62; 124; 42; 63; 34]).
Definition pat_dots : regex := Rep true (chr_eq 46) 2 None.
Definition pat_slashes : regex := Rep true (one_of [47; 92]) 2 None.
Definition pat_executable : regex :=
  Seqs [Chr (chr_eq 46);
        Alts (map (fun e => LitI e)
                [lit "exe"; lit "bat"; lit "cmd"; lit "scr"; lit "com";
                 lit "pif"; lit "vbs"; lit "js"; lit "jar"; lit "ps1"]);
        Eol].
Definition pat_reserved : regex :=
  Seqs [Bol;
        Alts [LitI (lit "con"); LitI (lit "prn"); LitI (lit "aux");
              LitI (lit "nul");
              Seq (LitI (lit "com")) (Chr (in_range 49 57));
              Seq (LitI (lit "lpt")) (Chr (in_range 49 57))];
        Eol].
Definition pat_control : regex :=
  Chr (fun c => in_range 0 31 c || in_range 127 159 c).

Definition dangerousPatterns : list regex :=
  [pat_dotdot; pat_tilde; pat_abs_unix; pat_abs_win; pat_nul;
   pat_symbols; pat_dots; pat_slashes; pat_executable; pat_reserved;
   pat_control].

Section WithProcess.
(** [process.cwd()]. *)
Variable cwd : str.

(** [validatePath(userPath, baseDir = process.cwd())]; [None] is an
    omitted [baseDir]. *)
Definition validatePath (userPath : str) (baseDir : option str)
    : Completion str :=
  let baseDir := default cwd baseDir in
  if eqb_str userPath [] then Throw (Error Msg.no_path)
  else if existsb (fun pattern => test pattern userPath) dangerousPatterns
  then Throw (Error (Msg.dangerous ++ userPath))
  else
    let resolved := Path.resolve cwd [baseDir; userPath] in
    let normalizedBase := Path.resolve cwd [baseDir] in
    if negb (startsWith resolved normalizedBase)
    then Throw (Error (Msg.outside ++ userPath))
    else
      let relativePath := Path.relative cwd normalizedBase resolved in
      if includes relativePath (lit "..")
         || startsWith relativePath (lit "../")
      then Throw (Error (Msg.traversal ++ userPath))
      else if Nat.ltb 260 (length resolved)
      then Throw (Error (Msg.too_long ++ userPath))
      else Normal resolved.
End WithProcess.

(** [escapeHtml(text)]: each of the five special characters becomes its
    entity. *)
Definition html_special (c : char) : bool := one_of [38; 60; 62; 34; 39] c.

Definition html_entity (matched : str) : str :=
  match matched with
  | [38] => lit "&amp;"
  | [60] => lit "&lt;"
  | [62] => lit "&gt;"
  | [34] => lit "&quot;"
  | [39] => lit "&#39;"
  | _ => lit "undefined"
  end.

Definition escapeHtml (text : str) : str :=
  replace_all_fn (Chr html_special) html_entity text.

(** Path anonymisation patterns of [sanitizeError]. *)
Definition pat_home : regex :=
  Seq (Lit (lit "/home/")) (Plus (fun c => negb ((c =? 47) || is_space c))).
Definition pat_win_users_c : regex :=
  Seq (Lit (lit "C:\Users\")) (Plus (fun c => negb (c =? 92))).
Definition pat_mac_users : regex :=
  Seq (Lit (lit "/Users/")) (Plus (fun c => negb ((c =? 47) || is_space c))).
Definition pat_win_users : regex :=
  Seq (Lit (lit "\Users\")) (Plus (fun c => negb (c =? 92))).

(** Credential patterns, all with the [i] flag:
    the keyword, then any run of colons and white space, an optional
    quote character, and one or more word characters or dashes. *)
Definition word_or_dash (c : char) : bool := is_word c || (c =? 45).
Definition credential (keyword : regex) : regex :=
  Seqs [keyword;
        Star (fun c => (c =? 58) || is_space c);
        Maybe (one_of [39; 34]);
        Plus word_or_dash].

Definition sensitivePatterns : list regex :=
  [credential (Seqs [LitI (lit "api"); Maybe (one_of [95; 45]); LitI (lit "key")]);
   credential (LitI (lit "password"));
   credential (LitI (lit "token"));
   credential (LitI (lit "secret"));
   credential (LitI (lit "auth"));
   Seqs [LitI (lit "bearer"); Star is_space; Plus word_or_dash]].

Definition redaction (index : nat) : str :=
  lit "SENSITIVE_INFO_" ++ of_Z (Z.of_nat index) ++ lit "_REDACTED".

(** The replacements [sanitizeError] applies to the message, in order. *)
Definition sanitizeMessage (message : str) : str :=
  let message := replace_all pat_home (lit "/home/<user>") message in
  let message := replace_all pat_win_users_c (lit "C:\Users\<user>") message in
  let message := replace_all pat_mac_users (lit "/Users/<user>") message in
  let message := replace_all pat_win_users (lit "\Users\<user>") message in
  fold_left (fun message '(index, pattern) =>
               replace_all pattern (redaction index) message)
            (imap pair sensitivePatterns) message.

(** The object [sanitizeError] returns; its [timestamp] field, which no
    caller in this core reads, is left out. *)
Record SanitizedError := {
  message : str;
  code : str;
  sanitized : bool
}.

(** [sanitizeError(error)] for a thrown [Error]. *)
Definition sanitizeError (error : exn) : SanitizedError :=
  {| message :=
       sanitizeMessage
         (match err_message error with
          | [] => String_of_exn error
          | m => m
          end);
     code := default (lit "UNKNOWN_ERROR") (err_code error);
     sanitized := true |}.

(** [sanitizeError(text)] for a string primitive: it has no [message]
    property, so [String(error)], the string itself, is sanitised. *)
Definition sanitizeError_of_string (text : str) : SanitizedError :=
  {| message := sanitizeMessage text;
     code := lit "UNKNOWN_ERROR";
     sanitized := true |}.

(** Argument cleaning of [executeCommand]. *)
Definition sanitizeArg (arg : str) : str :=
  replace_all (Chr (one_of [59; 38; 124; 96; 36; 40; 41; 60; 62; 10; 13; 9]))
              [] arg.

(** [sanitizeEnv(env)]. *)
Definition sensitiveKeys : list str :=
  [lit "AWS_SECRET_ACCESS_KEY"; lit "DATABASE_PASSWORD"; lit "API_KEY";
   lit "SECRET_KEY"; lit "PRIVATE_KEY"; lit "TOKEN"; lit "PASSWORD"].

Definition sanitizeEnv (env : list (str * str)) : list (str * str) :=
  List.filter (fun kv => negb (existsb (eqb_str (fst kv)) sensitiveKeys)) env.

End SecurityUtils.

(* ================================================================== *)
(** ** The world outside the program *)
(* ================================================================== *)

(** What [execFile] is asked to run. *)
Record spawn := MkSpawn {
  sp_command : str;
  sp_args : list str;
  sp_timeout : Z;
  sp_maxBuffer : Z;
  sp_cwd : str;
  sp_env : list (str * str)
}.

(** How a child process ends: its output, or the error [execFile]
    rejects with (not found, non-zero exit, time-out, buffer overflow). *)
Inductive exec_reply :=
| ExecOk (stdout stderr : str)
| ExecFail (e : exn).

(** Observable events, kept for counting. *)
Inductive event :=
| EvSpawn (s : spawn)          (* [execFile] was invoked *)
| EvSandboxRun (agentId : str). (* [AgentSandbox.execute] was entered *)

Definition is_spawn (e : event) : bool :=
  match e with EvSpawn _ => true | EvSandboxRun _ => false end.
Definition is_sandbox_run (e : event) : bool :=
  match e with EvSandboxRun _ => true | EvSpawn _ => false end.

(** JSON-shaped values, for the objects the result cache holds. *)
Inductive jsval :=
| JUndefined
| JNull
| JBool (b : bool)
| JNum (z : Z)
| JStr (s : str)
| JArr (l : list jsval)
| JObj (props : list (str * jsval)).

(** The environment answers through oracles indexed by how often they
    were consulted; the program changes only the counters, the trace and
    the heap. *)
Record World := MkWorld {
  clock : nat -> Z;                 (* value of the n-th [Date.now()] *)
  clock_reads : nat;
  entropy : nat -> str;             (* n-th [randomBytes(8).toString('hex')] *)
  entropy_reads : nat;
  child_process : nat -> spawn -> exec_reply;  (* outcome of the n-th spawn *)
  timer_first : nat -> bool;        (* the n-th time-out fires before the run settles *)
  timer_reads : nat;
  process_cwd : str;                (* [process.cwd()] *)
  process_env : list (str * str);   (* [process.env] *)
  trace : list event;               (* latest first *)
  fs : str -> option (Z * str);     (* size and text of a readable file *)
  heap : list jsval                 (* objects, by address *)
}.

Definition spawn_count (w : World) : nat :=
  length (List.filter is_spawn (trace w)).
Definition sandbox_runs (w : World) : nat :=
  length (List.filter is_sandbox_run (trace w)).

Definition tick_clock (w : World) : World :=
  MkWorld (clock w) (S (clock_reads w)) (entropy w) (entropy_reads w)
          (child_process w) (timer_first w) (timer_reads w)
          (process_cwd w) (process_env w) (trace w) (fs w) (heap w).
Definition tick_entropy (w : World) : World :=
  MkWorld (clock w) (clock_reads w) (entropy w) (S (entropy_reads w))
          (child_process w) (timer_first w) (timer_reads w)
          (process_cwd w) (process_env w) (trace w) (fs w) (heap w).
Definition tick_timer (w : World) : World :=
  MkWorld (clock w) (clock_reads w) (entropy w) (entropy_reads w)
          (child_process w) (timer_first w) (S (timer_reads w))
          (process_cwd w) (process_env w) (trace w) (fs w) (heap w).
Definition log_event (e : event) (w : World) : World :=
  MkWorld (clock w) (clock_reads w) (entropy w) (entropy_reads w)
          (child_process w) (timer_first w) (timer_reads w)
          (process_cwd w) (process_env w) (e :: trace w) (fs w) (heap w).
Definition set_heap (h : list jsval) (w : World) : World :=
  MkWorld (clock w) (clock_reads w) (entropy w) (entropy_reads w)
          (child_process w) (timer_first w) (timer_reads w)
          (process_cwd w) (process_env w) (trace w) (fs w) h.

(* ================================================================== *)
(** ** The monad of effects *)
(* ================================================================== *)

Definition M (A : Type) : Type := World -> Completion A * World.

#[global] Instance M_ret : MRet M := fun A a w => (Normal a, w).
#[global] Instance M_bind : MBind M := fun A B f m w =>
  match m w with
  | (Normal a, w') => f a w'
  | (Throw e, w') => (Throw e, w')
  end.

Definition throw {A} (e : exn) : M A := fun w => (Throw e, w).
Definition lift {A} (c : Completion A) : M A := fun w => (c, w).
Definition gets {A} (f : World -> A) : M A := fun w => (Normal (f w), w).
Definition modify (f : World -> World) : M unit := fun w => (Normal tt, f w).

(** [try { m } catch (error) { handler error }]. *)
Definition try_catch {A} (m : M A) (handler : exn -> M A) : M A := fun w =>
  match m w with
  | (Normal a, w') => (Normal a, w')
  | (Throw e, w') => handler e w'
  end.

(** [Date.now()]. *)
Definition Date_now : M Z := fun w =>
  (Normal (clock w (clock_reads w)), tick_clock w).

(** [crypto.randomBytes(8).toString('hex')]. *)
Definition randomHex : M str := fun w =>
  (Normal (entropy w (entropy_reads w)), tick_entropy w).

(** [execFileAsync(command, args, options)]: the spawn is recorded, the
    environment decides how the child ends. *)
Definition execFileAsync (s : spawn) : M (str * str) := fun w =>
  let w' := log_event (EvSpawn s) w in
  match child_process w (spawn_count w) s with
  | ExecOk stdout stderr => (Normal (stdout, stderr), w')
  | ExecFail e => (Throw e, w')
  end.

(** [Promise.race([m, timeoutPromise])]: when the timer fires first the
    race rejects with the time-out error; the run is abandoned, but what
    it does to the world still happens. *)
Definition race_timeout {A} (m : M A) : M A := fun w =>
  let fired := timer_first w (timer_reads w) in
  let '(r, w') := m (tick_timer w) in
  if fired then (Throw (Error Msg.timeout), w') else (r, w').

(* ================================================================== *)
(** ** [SecurityUtils.executeCommand] and [getClaudeCommand] *)
(* ================================================================== *)

Record CommandResult := {
  stdout : str;
  stderr : str;
  exitCode : Z;
  command : str;
  args : list str
}.

(** [executeCommand(command, args, options)]; the callers of this core
    pass at most [timeout] in [options]. *)
Definition executeCommand (command : str) (args : list str)
    (timeout : option Z) : M CommandResult :=
  let timeout := default Config.COMMAND_TIMEOUT timeout in
  let maxBuffer := Config.MAX_BUFFER in
  cwd ← gets process_cwd;
  if negb (existsb (eqb_str command) Config.ALLOWED_COMMANDS)
  then throw (Error (Msg.not_allowed ++ command))
  else
    let sanitizedArgs := map SecurityUtils.sanitizeArg args in
    try_catch
      (validated ← lift (SecurityUtils.validatePath cwd cwd None);
       env ← gets (fun w => SecurityUtils.sanitizeEnv (process_env w));
       result ← execFileAsync
                  (MkSpawn command sanitizedArgs timeout maxBuffer validated env);
       mret {| stdout := fst result;
               stderr := snd result;
               exitCode := 0;
               command := command;
               args := sanitizedArgs |})
      (fun error =>
         throw (Error (SecurityUtils.message (SecurityUtils.sanitizeError error)))).

(** [module.exports.getClaudeCommand()]. *)
Definition getClaudeCommand : M str :=
  let try_cmd (cmd : str) (otherwise : M str) : M str :=
    try_catch
      (_ ← executeCommand cmd [lit "--version"] (Some 1000%Z); mret cmd)
      (fun _ => otherwise) in
  try_cmd (lit "claude-code")
    (try_cmd (lit "claude") (throw (Error Msg.no_claude))).

(* ================================================================== *)
(** ** [AgentSandbox] *)
(* ================================================================== *)

(** A worker of the catalogue.  [priority], [errorTypes] and
    [allowedCommands] may be missing. *)
Module Agent.
Record t := {
  id : str;
  name : str;
  model : str;
  category : str;
  priority : option str;
  canAutoFix : bool;
  errorTypes : option (list str);
  allowedCommands : option (list str)
}.
End Agent.

(** The context object; the scheduler's callers build [{ target }]. *)
Module Context.
Record t := { target : str }.
End Context.

Module Issue.
(** [file] and [line] are absent when no file reference was found;
    [line] is [null] ([Some None]) when the reference has no usable
    line number. *)
Record t := {
  level : str;
  message : str;
  category : str;
  priority : option str;
  agentId : str;
  autoFixAvailable : bool;
  file : option str;
  line : option (option Z);
  type : str
}.
End Issue.

Module ExecutionResult.
Record t := {
  agentId : str;
  agentName : str;
  issues : list Issue.t;
  rawOutput : str;
  executionTime : Z;
  error : option str;
  sandboxId : option str
}.
End ExecutionResult.

Module AgentSandbox.

(** The object the constructor builds. *)
Record t := {
  agent : Agent.t;
  context : Context.t;
  timeout : Z;
  maxMemory : Z;
  allowedOperations : list str
}.

Definition new (agent : Agent.t) (context : Context.t) : t :=
  {| agent := agent;
     context := context;
     timeout := Config.AGENT_TIMEOUT;
     maxMemory := 512 * 1024 * 1024;
     allowedOperations := [lit "read"; lit "analyze"] |}.

(** Severity patterns of [parseAgentOutput], in the order of the
    [patterns] object: the marker (English, Japanese or emoji), a
    colon, white space, a lazily matched message of 1 to 500 units
    captured as group 1, then a line feed or the end of the input. *)
Definition severity (markers : list str) : regex :=
  Seqs [Alts (map Lit markers);
        Chr (chr_eq 58);
        Star is_space;
        Grp 1 (Rep false dot 1 (Some 500%nat));
        Alt (Chr (chr_eq 10)) Eol].

Definition red_circle : str := [0xD83D; 0xDD34].
Definition yellow_circle : str := [0xD83D; 0xDFE1].
Definition blue_circle : str := [0xD83D; 0xDD35].
Definition light_bulb : str := [0xD83D; 0xDCA1].

Definition patterns : list (str * regex) :=
  [(lit "critical", severity [lit "CRITICAL"; [0x91CD; 0x5927]; red_circle]);
   (lit "error", severity [lit "ERROR"; [0x30A8; 0x30E9; 0x30FC]; red_circle]);
   (lit "warning", severity [lit "WARNING"; [0x8B66; 0x544A]; yellow_circle]);
   (lit "info", severity [lit "INFO"; [0x60C5; 0x5831]; blue_circle]);
   (lit "suggestion", severity [lit "SUGGESTION"; [0x63D0; 0x6848]; light_bulb])].

(** The file-and-line pattern: [in], [at] or the Japanese word for
    file with an optional colon; white space; 1 to 200 units that are
    neither white space nor a colon (group 1); optionally a colon and
    digits (group 2). *)
Definition pat_file : regex :=
  Seqs [Alts [Lit (lit "in"); Lit (lit "at");
              Seq (Lit [0x30D5; 0x30A1; 0x30A4; 0x30EB]) (Maybe (chr_eq 58))];
        Star is_space;
        Grp 1 (Rep true (fun c => negb (is_space c || (c =? 58))) 1 (Some 200%nat));
        Opt (Seq (Chr (chr_eq 58)) (Grp 2 (Plus is_digit)))].

(** [errorType.replace('-', ' ')]: the first dash only. *)
Fixpoint replace_first_dash (s : str) : str :=
  match s with
  | [] => []
  | c :: s' => if c =? 45 then 32 :: s' else c :: replace_first_dash s'
  end.

Section Parse.
(** [String.prototype.toLowerCase], supplied by the runtime. *)
Variable toLowerCase : str -> str.
Variable this : t.

Definition issue_of_match (level : str) (m : match_result) : Issue.t :=
  let message :=
    SecurityUtils.escapeHtml (trim (default [] (capture 1 (m_caps m)))) in
  let fileMatch := match_first pat_file message in
  let file :=
    (fun fm => SecurityUtils.escapeHtml (default [] (capture 1 (m_caps fm))))
      <$> fileMatch in
  let line :=
    (fun fm =>
       match capture 2 (m_caps fm) with
       | Some digits =>
           let lineNum := parseDigits digits in
           if ((0 <? lineNum) && (lineNum <? 1000000))%Z
           then Some lineNum else None
       | None => None
       end) <$> fileMatch in
  let found :=
    match Agent.errorTypes (agent this) with
    | Some errorTypes =>
        List.find (fun errorType =>
                     includes (toLowerCase message)
                              (replace_first_dash errorType))
                  (take 10 errorTypes)
    | None => None
    end in
  {| Issue.level := level;
     Issue.message := message;
     Issue.category := Agent.category (agent this);
     Issue.priority := Agent.priority (agent this);
     Issue.agentId := Agent.id (agent this);
     Issue.autoFixAvailable := Agent.canAutoFix (agent this);
     Issue.file := file;
     Issue.line := line;
     Issue.type :=
       match found with
       | Some (c :: errorType) => c :: errorType
       | _ => lit "general"
       end |}.

(** [parseAgentOutput(output)]. *)
Definition parseAgentOutput (output : str) : list Issue.t :=
  match output with
  | [] => []
  | _ =>
      let output :=
        if (1024 * 1024 <? N.of_nat (length output))%N
        then take (N.to_nat (1024 * 1024)) output
        else output in
      take 1000
        (flat_map (fun '(level, pattern) =>
                     map (issue_of_match level)
                         (take 100 (matchAll pattern output)))
                  patterns)
  end.

(** [sanitizeResult(result)]. *)
Definition sanitizeResult (result : ExecutionResult.t) : ExecutionResult.t :=
  {| ExecutionResult.agentId :=
       SecurityUtils.escapeHtml (ExecutionResult.agentId result);
     ExecutionResult.agentName :=
       SecurityUtils.escapeHtml (ExecutionResult.agentName result);
     ExecutionResult.issues :=
       map (fun issue =>
              {| Issue.level := Issue.level issue;
                 Issue.message := SecurityUtils.escapeHtml (Issue.message issue);
                 Issue.category := Issue.category issue;
                 Issue.priority := Issue.priority issue;
                 Issue.agentId := Issue.agentId issue;
                 Issue.autoFixAvailable := Issue.autoFixAvailable issue;
                 Issue.file :=
                   match Issue.file issue with
                   | Some (c :: f) => Some (SecurityUtils.escapeHtml (c :: f))
                   | _ => None
                   end;
                 Issue.line := Issue.line issue;
                 Issue.type := Issue.type issue |})
           (ExecutionResult.issues result);
     ExecutionResult.rawOutput :=
       SecurityUtils.escapeHtml (ExecutionResult.rawOutput result);
     ExecutionResult.executionTime := ExecutionResult.executionTime result;
     ExecutionResult.error :=
       match ExecutionResult.error result with
       | Some (c :: e) => Some (SecurityUtils.escapeHtml (c :: e))
       | _ => None
       end;
     ExecutionResult.sandboxId := ExecutionResult.sandboxId result |}.

(** [runAgentInSandbox(sandbox, files, iteration)]; the sandbox
    object is not consulted by the source. *)
Definition runAgentInSandbox (files : list str) (iteration : Z)
    : M (list Issue.t * str) :=
  let commandArgs :=
    [lit "agent"; lit "run"; Agent.id (agent this);
     lit "--model"; Agent.model (agent this);
     lit "--target"; Context.target (context this);
     lit "--sandbox-mode"]
    ++ (match files with
        | [] => []
        | _ => [lit "--files"; join (lit ",") files]
        end)
    ++ (if (1 <? iteration)%Z
        then [lit "--iteration"; of_Z iteration] else [])
    ++ [lit "--max-memory"; of_Z (maxMemory this)]
    ++ [lit "--timeout"; of_Z (timeout this)] in
  claudeCmd ← getClaudeCommand;
  result ← executeCommand claudeCmd commandArgs (Some (timeout this));
  let issues := parseAgentOutput (stdout result) in
  mret (issues, stdout result).

(** The body of the [try] block of [execute]. *)
Definition execute_try (files : list str) (iteration : Z)
    (startTime : Z) (sandboxId : str) : M ExecutionResult.t :=
  result ← race_timeout (runAgentInSandbox files iteration);
  now ← Date_now;
  mret (sanitizeResult
          {| ExecutionResult.agentId := Agent.id (agent this);
             ExecutionResult.agentName := Agent.name (agent this);
             ExecutionResult.issues := fst result;
             ExecutionResult.rawOutput := snd result;
             ExecutionResult.executionTime := (now - startTime)%Z;
             ExecutionResult.error := None;
             ExecutionResult.sandboxId := Some sandboxId |}).

(** The [catch] block of [execute]. *)
Definition execute_catch (startTime : Z) (sandboxId : str) (error : exn)
    : M ExecutionResult.t :=
  let sanitized := SecurityUtils.sanitizeError error in
  now ← Date_now;
  mret {| ExecutionResult.agentId := Agent.id (agent this);
          ExecutionResult.agentName := Agent.name (agent this);
          ExecutionResult.issues := [];
          ExecutionResult.rawOutput := [];
          ExecutionResult.executionTime := (now - startTime)%Z;
          ExecutionResult.error := Some (SecurityUtils.message sanitized);
          ExecutionResult.sandboxId := Some sandboxId |}.

(** [execute(files, iteration = 1)]. *)
Definition execute (files : list str) (iteration : Z) : M ExecutionResult.t :=
  _ ← modify (log_event (EvSandboxRun (Agent.id (agent this))));
  startTime ← Date_now;
  sandboxId ← randomHex;
  try_catch (execute_try files iteration startTime sandboxId)
            (execute_catch startTime sandboxId).
End Parse.

End AgentSandbox.

(* ================================================================== *)
(** ** [ResultCache] *)
(* ================================================================== *)

Module ResultCache.

(** A cache entry: the address of the stored copy and the insertion
    time. *)
Record entry := { result : nat; timestamp : Z }.

(** The cache object.  [cache] is the [Map], in insertion order. *)
Record t := {
  cache : list (str * entry);
  ttl : Z;
  maxSize : nat
}.

Definition new : t :=
  {| cache := []; ttl := 15 * 60 * 1000; maxSize := 100 |}.

(** [Map.prototype.get], [set] and [delete]: [set] on a present key
    keeps its place in the iteration order. *)
Fixpoint map_get {V} (key : str) (m : list (str * V)) : option V :=
  match m with
  | [] => None
  | (k, v) :: m' => if eqb_str k key then Some v else map_get key m'
  end.
Fixpoint map_set {V} (key : str) (v : V) (m : list (str * V)) : list (str * V) :=
  match m with
  | [] => [(key, v)]
  | (k, v') :: m' =>
      if eqb_str k key then (k, v) :: m' else (k, v') :: map_set key v m'
  end.
Fixpoint map_delete {V} (key : str) (m : list (str * V)) : list (str * V) :=
  match m with
  | [] => []
  | (k, v) :: m' =>
      if eqb_str k key then m' else (k, v) :: map_delete key m'
  end.

Definition with_cache (this : t) (c : list (str * entry)) : t :=
  {| cache := c; ttl := ttl this; maxSize := maxSize this |}.

(** [JSON.parse(JSON.stringify(v))] on a value [JSON.stringify] has a
    text for: properties holding [undefined] are dropped, [undefined]
    array elements become [null]. *)
Fixpoint json_copy (v : jsval) : jsval :=
  match v with
  | JArr l =>
      JArr (map (fun x => match x with
                          | JUndefined => JNull
                          | _ => json_copy x
                          end) l)
  | JObj props =>
      JObj ((fix copy_props (ps : list (str * jsval)) : list (str * jsval) :=
               match ps with
               | [] => []
               | (k, JUndefined) :: ps' => copy_props ps'
               | (k, x) :: ps' => (k, json_copy x) :: copy_props ps'
               end) props)
  | _ => v
  end.

(** The deep copy of [set]: a fresh object at a new address.  For
    [undefined] there is no JSON text and [JSON.parse] throws. *)
Definition deepCopy (result : nat) : M nat := fun w =>
  match heap w !! result with
  | None | Some JUndefined =>
      (Throw (MkError (lit "SyntaxError") (lit "Unexpected token") None), w)
  | Some v =>
      (Normal (length (heap w)), set_heap (heap w ++ [json_copy v]) w)
  end.

(** [evictOldest()]. *)
Definition oldest (oldestTime : Z) (c : list (str * entry))
    : option str :=
  fst (fold_left
         (fun '(oldestKey, oldestTime) '(key, value) =>
            if (timestamp value <? oldestTime)%Z
            then (Some key, timestamp value)
            else (oldestKey, oldestTime))
         c (None, oldestTime)).

Definition evictOldest (this : t) : M t :=
  now ← Date_now;
  match oldest now (cache this) with
  | Some (c :: oldestKey) =>
      mret (with_cache this (map_delete (c :: oldestKey) (cache this)))
  | _ => mret this
  end.

(** The part of [get] after the key is known. *)
Definition get_key (this : t) (key : str) : M (option nat * t) :=
  match map_get key (cache this) with
  | Some cached =>
      now ← Date_now;
      if (now - timestamp cached <? ttl this)%Z
      then mret (Some (result cached), this)
      else mret (None, with_cache this (map_delete key (cache this)))
  | None => mret (None, this)
  end.

(** The part of [set] after the key is known. *)
Definition set_key (this : t) (key : str) (result : nat) : M t :=
  this ← (if Nat.leb (maxSize this) (length (cache this))
          then evictOldest this else mret this);
  copy ← deepCopy result;
  now ← Date_now;
  mret (with_cache this
          (map_set key {| result := copy; timestamp := now |} (cache this))).

Section Keys.
(** [crypto.createHash('sha256').update(text).digest('hex')] and
    [JSON.stringify]. *)
Variable sha256 : str -> str.
Variable JSON_stringify : jsval -> str.

(** [hashFile(filePath)]: the digest of the content, or, when the
    file is unreadable or larger than 10 MB, of the path and the
    current time. *)
Definition hashFile (filePath : str) : M str :=
  file ← gets (fun w => fs w filePath);
  match file with
  | Some (size, content) =>
      if (10 * 1024 * 1024 <? size)%Z
      then now ← Date_now; mret (sha256 (filePath ++ of_Z now))
      else mret (sha256 content)
  | None => now ← Date_now; mret (sha256 (filePath ++ of_Z now))
  end.

(** Code-unit order, as [Array.prototype.sort] uses by default. *)
Fixpoint str_leb (a b : str) : bool :=
  match a, b with
  | [], _ => true
  | _ :: _, [] => false
  | x :: a', y :: b' => (x <? y) || ((x =? y) && str_leb a' b')
  end.
Fixpoint insert_sorted (x : str) (l : list str) : list str :=
  match l with
  | [] => [x]
  | y :: l' => if str_leb x y then x :: l else y :: insert_sorted x l'
  end.
Definition sort (l : list str) : list str :=
  fold_right insert_sorted [] l.

Fixpoint hashFiles (files : list str) : M (list str) :=
  match files with
  | [] => mret []
  | f :: files' =>
      h ← hashFile f; hs ← hashFiles files'; mret (h :: hs)
  end.

(** [getCacheKey(agent, files, iteration = 1)]. *)
Definition getCacheKey (agent : Agent.t) (files : list str)
    (iteration : Z) : M str :=
  fileHashes ← hashFiles files;
  let successfulHashes := sort fileHashes in
  now ← Date_now;
  let keyData :=
    JObj [(lit "agentId", JStr (Agent.id agent));
          (lit "agentModel", JStr (Agent.model agent));
          (lit "fileHashes", JArr (map JStr successfulHashes));
          (lit "iteration", JNum iteration);
          (lit "timestamp", JNum (now / (15 * 60 * 1000))%Z)] in
  mret (sha256 (JSON_stringify keyData)).

(** [get(agent, files, iteration = 1)]. *)
Definition get (this : t) (agent : Agent.t) (files : list str)
    (iteration : Z) : M (option nat * t) :=
  key ← getCacheKey agent files iteration;
  get_key this key.

(** [set(agent, files, iteration, result)]. *)
Definition set (this : t) (agent : Agent.t) (files : list str)
    (iteration : Z) (result : nat) : M t :=
  key ← getCacheKey agent files iteration;
  set_key this key result.
End Keys.

End ResultCache.

(* ================================================================== *)
(** ** [ParallelExecutor] *)
(* ================================================================== *)

Module ParallelExecutor.

(** Property names every object inherits from [Object.prototype]; a
    lookup of one of them on the [groups] object yields a function (or,
    for [__proto__], the prototype), which is truthy and has no
    [push]. *)
Definition Object_prototype_keys : list str :=
  [lit "constructor"; lit "__defineGetter__"; lit "__defineSetter__";
   lit "hasOwnProperty"; lit "__lookupGetter__"; lit "__lookupSetter__";
   lit "isPrototypeOf"; lit "propertyIsEnumerable"; lit "toString";
   lit "valueOf"; lit "__proto__"; lit "toLocaleString"].

(** The [groups] object, with its four own keys in creation order. *)
Definition Groups := list (str * list Agent.t).
Definition empty_groups : Groups :=
  [(lit "critical", []); (lit "high", []); (lit "medium", []); (lit "low", [])].

(** [groups[key].push(agent)] for an own key. *)
Fixpoint push (key : str) (agent : Agent.t) (groups : Groups) : Groups :=
  match groups with
  | [] => []
  | (k, g) :: groups' =>
      if eqb_str k key then (k, g ++ [agent]) :: groups'
      else (k, g) :: push key agent groups'
  end.

(** The property key of [agent.priority]; a missing priority reads as
    [undefined]. *)
Definition priority_key (agent : Agent.t) : str :=
  default (lit "undefined") (Agent.priority agent).

(** One step of the [forEach] of [groupByPriority]. *)
Definition place (groups : Groups) (agent : Agent.t) : Completion Groups :=
  let key := priority_key agent in
  if existsb (eqb_str key) (map fst groups) then
    Normal (push key agent groups)
  else if existsb (eqb_str key) Object_prototype_keys then
    Throw (TypeError (lit "groups[agent.priority].push is not a function"))
  else Normal (push (lit "medium") agent groups).

Fixpoint place_all (groups : Groups) (agents : list Agent.t)
    : Completion Groups :=
  match agents with
  | [] => Normal groups
  | agent :: agents' =>
      match place groups agent with
      | Normal groups' => place_all groups' agents'
      | Throw e => Throw e
      end
  end.

(** [groupByPriority(agents)]. *)
Definition groupByPriority (agents : list Agent.t)
    : Completion (list (list Agent.t)) :=
  match place_all empty_groups agents with
  | Normal groups =>
      Normal (List.filter (fun g => Nat.ltb 0 (length g)) (map snd groups))
  | Throw e => Throw e
  end.

(** The record pushed for a rejected promise. *)
Definition rejected_result (agent : Agent.t) (reason : exn)
    : ExecutionResult.t :=
  let sanitized := SecurityUtils.sanitizeError reason in
  {| ExecutionResult.agentId :=
       match Agent.id agent with [] => lit "unknown" | i => i end;
     ExecutionResult.agentName :=
       match Agent.name agent with [] => lit "unknown" | n => n end;
     ExecutionResult.issues := [];
     ExecutionResult.rawOutput := [];
     ExecutionResult.executionTime := 0;
     ExecutionResult.error := Some (SecurityUtils.message sanitized);
     ExecutionResult.sandboxId := None |}.

(** A promise settles: a rejection becomes a value of the join. *)
Definition settle {A} (m : M A) : M (Completion A) := fun w =>
  let '(r, w') := m w in (Normal r, w').

Section Execute.
Variable toLowerCase : str -> str.
Variable files : list str.
Variable context : Context.t.
Variable iteration : Z.

(** The promise of one agent of a group. *)
Definition agent_promise (agent : Agent.t) : M ExecutionResult.t :=
  let sandbox := AgentSandbox.new agent context in
  AgentSandbox.execute toLowerCase sandbox files iteration.

(** [Promise.allSettled(groupPromises)]: every promise settles, the
    outcomes come in the order of the promises.  The runs of a group
    overlap in time; their effects on the world are taken in the
    order of the group. *)
Fixpoint allSettled (group : list Agent.t)
    : M (list (Agent.t * Completion ExecutionResult.t)) :=
  match group with
  | [] => mret []
  | agent :: group' =>
      r ← settle (agent_promise agent);
      rs ← allSettled group';
      mret ((agent, r) :: rs)
  end.

Definition settled_result (p : Agent.t * Completion ExecutionResult.t)
    : ExecutionResult.t :=
  match p with
  | (_, Normal value) => value
  | (agent, Throw reason) => rejected_result agent reason
  end.

(** One round of the [for] loop over the groups. *)
Definition run_group (maxConcurrency : nat) (group : list Agent.t)
    : M (list ExecutionResult.t) :=
  let limitedGroup := take maxConcurrency group in
  try_catch
    (groupResults ← allSettled limitedGroup;
     mret (map settled_result groupResults))
    (fun error => mret (map (fun agent => rejected_result agent error)
                            limitedGroup)).

Fixpoint run_groups (maxConcurrency : nat) (groups : list (list Agent.t))
    : M (list ExecutionResult.t) :=
  match groups with
  | [] => mret []
  | group :: groups' =>
      rs ← run_group maxConcurrency group;
      rest ← run_groups maxConcurrency groups';
      mret (rs ++ rest)
  end.

(** [executeAgents(agents, files, context, iteration = 1)]. *)
Definition executeAgents (agents : list Agent.t)
    : M (list ExecutionResult.t) :=
  match agents with
  | [] => mret []
  | _ =>
      let maxConcurrency := Nat.min (length agents) 4 in
      groups ← lift (groupByPriority agents);
      run_groups maxConcurrency groups
  end.
End Execute.

End ParallelExecutor.

(* ================================================================== *)
(** ** Notions used in the statements *)
(* ================================================================== *)

(** A candidate is strictly within a root when its resolved form is the
    root followed by a separator and something more. *)
Definition strictly_within (root resolved : str) : Prop :=
  ∃ rest, rest ≠ [] ∧ resolved = root ++ lit "/" ++ rest.

(** A computation throws only [Error] objects. *)
Definition throws_Error {A} (m : M A) : Prop :=
  ∀ w e w', m w = (Throw e, w') → ∃ msg, e = Error msg.

(** The world in which the [try] block of [execute] starts. *)
Definition entered (this : AgentSandbox.t) (w : World) : World :=
  tick_entropy (tick_clock
    (log_event (EvSandboxRun (Agent.id (AgentSandbox.agent this))) w)).

(** A sample world: an absolute working directory, a child process
    that always succeeds, a timer that never fires first. *)
Definition w0 : World :=
  {| clock := fun n => (1700000000000 + Z.of_nat n)%Z;
     clock_reads := 0;
     entropy := fun _ => lit "0123456789abcdef";
     entropy_reads := 0;
     child_process := fun _ _ => ExecOk (lit "ok") [];
     timer_first := fun _ => false;
     timer_reads := 0;
     process_cwd := lit "/srv/app";
     process_env := [(lit "PATH", lit "/usr/bin"); (lit "TOKEN", lit "t0p")];
     trace := [];
     fs := fun _ => None;
     heap := [] |}.

(** The four tiers, in scheduling order, and the tier of a worker as the
    specification words it: the declared priority when it is one of the
    four, medium otherwise. *)
Definition tier_names : list str :=
  [lit "critical"; lit "high"; lit "medium"; lit "low"].

Definition tier_of (agent : Agent.t) : str :=
  let key := ParallelExecutor.priority_key agent in
  if existsb (eqb_str key) tier_names then key else lit "medium".

(** The workers of one tier, in input order. *)
Definition tier (name : str) (agents : list Agent.t) : list Agent.t :=
  List.filter (fun agent => eqb_str (tier_of agent) name) agents.

Definition tiers (agents : list Agent.t) : list (list Agent.t) :=
  map (fun name => tier name agents) tier_names.

(** The workers a call runs: of each tier, in tier order, the first
    [min (number of workers) 4]. *)
Definition scheduled (agents : list Agent.t) : list Agent.t :=
  flat_map (take (Nat.min (length agents) 4)) (tiers agents).

(** A priority that names a property inherited from [Object.prototype]. *)
Definition inherited_priority (agent : Agent.t) : Prop :=
  ParallelExecutor.priority_key agent ∈ ParallelExecutor.Object_prototype_keys.

(** [r] is a result for [agent]: it carries the worker's id (escaped on
    the success path), and either no error, or a non-empty error and no
    issues. *)
Definition result_of (agent : Agent.t) (r : ExecutionResult.t) : Prop :=
  (ExecutionResult.agentId r = Agent.id agent
   ∨ ExecutionResult.agentId r = SecurityUtils.escapeHtml (Agent.id agent))
  ∧ (ExecutionResult.error r = None
     ∨ ∃ msg, ExecutionResult.error r = Some msg ∧ msg ≠ []
              ∧ ExecutionResult.issues r = []).

(** The [groups] object holding the given four lists, and the part of
    a tier one worker contributes. *)
Definition groups_of (c h m l : list Agent.t) : ParallelExecutor.Groups :=
  [(lit "critical", c); (lit "high", h); (lit "medium", m); (lit "low", l)].

Definition tier1 (name : str) (agent : Agent.t) : list Agent.t :=
  if eqb_str (tier_of agent) name then [agent] else [].

(** A computation that enters no sandbox and leaves the heap alone. *)
Definition quiet {A} (m : M A) : Prop :=
  ∀ w, sandbox_runs (snd (m w)) = sandbox_runs w ∧ heap (snd (m w)) = heap w.

(** Sample workers. *)
Definition worker (id : string) (priority : option string) : Agent.t :=
  {| Agent.id := lit id;
     Agent.name := lit id;
     Agent.model := lit "sonnet";
     Agent.category := lit "quality";
     Agent.priority := lit <$> priority;
     Agent.canAutoFix := false;
     Agent.errorTypes := None;
     Agent.allowedCommands := None |}.

Definition here : Context.t := {| Context.target := lit "." |}.

(** ASCII lower-casing, for the sample runs. *)
Definition ascii_lower (s : str) : str :=
  map (fun c => if is_upper c then c + 32 else c) s.

(** The catalogue of the end-to-end scenario, five workers of one tier,
    and five workers whose priority is no tier. *)
Definition catalogue : list Agent.t :=
  [worker "sec" (Some "critical"); worker "doc" (Some "low")].

Definition five_medium : list Agent.t :=
  [worker "m1" (Some "medium"); worker "m2" (Some "medium");
   worker "m3" (Some "medium"); worker "m4" (Some "medium");
   worker "m5" (Some "medium")].

Definition five_unknown : list Agent.t :=
  [worker "u1" (Some "urgent"); worker "u2" (Some "urgent");
   worker "u3" (Some "urgent"); worker "u4" (Some "urgent");
   worker "u5" (Some "urgent")].

(** A caller assigning to the object at an address. *)
Definition mutate (address : nat) (v : jsval) : M unit :=
  modify (fun w => set_heap (<[address := v]> (heap w)) w).

(** A stored result, and the same after a caller pushed an issue. *)
Definition clean_result : jsval :=
  JObj [(lit "agentId", JStr (lit "sec")); (lit "issues", JArr [])].
Definition tampered_result : jsval :=
  JObj [(lit "agentId", JStr (lit "sec"));
        (lit "issues", JArr [JStr (lit "forged")])].

(** The sample world with [clean_result] at address 0. *)
Definition w_result : World := set_heap [clean_result] w0.

(** A world whose clock stands still at [T]: everything happens within
    one millisecond. *)
Definition w_frozen (T : Z) : World :=
  MkWorld (fun _ => T) 0 (entropy w0) 0 (child_process w0) (timer_first w0) 0
          (process_cwd w0) (process_env w0) [] (fs w0) [clean_result].

(** [n] insertions under the keys [0], [1], ... of the result at
    address 0, one after the other. *)
Fixpoint put_keys (this : ResultCache.t) (first n : nat) : M ResultCache.t :=
  match n with
  | O => mret this
  | S n' =>
      this' ← ResultCache.set_key this (of_Z (Z.of_nat first)) 0;
      put_keys this' (S first) n'
  end.

(** [set], then [get], then the caller changes what it got, then [get]
    again: the two addresses returned and the final heap. *)
Definition set_get_mutate_get (key : str) : M (option nat * option nat) :=
  this ← ResultCache.set_key ResultCache.new key 0;
  got1 ← ResultCache.get_key this key;
  _ ← (match fst got1 with
       | Some address => mutate address tampered_result
       | None => mret tt
       end);
  got2 ← ResultCache.get_key (snd got1) key;
  mret (fst got1, fst got2).

(** The scan of [evictOldest]: the running minimum starts at the
    current time and is replaced only by strictly smaller timestamps. *)
Definition scan (c : list (str * ResultCache.entry)) (acc : option str * Z) : option str * Z :=
  fold_left
    (fun '(oldestKey, oldestTime) '(key, value) =>
       if (ResultCache.timestamp value <? oldestTime)%Z
       then (Some key, ResultCache.timestamp value)
       else (oldestKey, oldestTime))
    c acc.

Definition scanned (now : Z) (seen : list (str * ResultCache.entry)) (acc : option str * Z) : Prop :=
  match acc with
  | (None, t) => t = now ∧ Forall (fun p => (now ≤ ResultCache.timestamp (snd p))%Z) seen
  | (Some k, t) =>
      (t < now)%Z
      ∧ (∃ e, (k, e) ∈ seen ∧ ResultCache.timestamp e = t)
      ∧ Forall (fun p => (t ≤ ResultCache.timestamp (snd p))%Z) seen
  end.

(** Lines of a text: one more than its line feeds. *)
Definition line_feeds (s : str) : nat := length (List.filter (N.eqb 10) s).
Definition lines (s : str) : nat := S (line_feeds s).

(** How many matches a scan can still find in what is left of the input. *)
Definition matches_left (s : str) : nat :=
  match s with
  | [] => 0
  | _ :: _ => lines s
  end.

(** The issues of one severity level. *)
Definition issues_of_level (level : str) (issues : list Issue.t) : list Issue.t :=
  List.filter (fun issue => eqb_str (Issue.level issue) level) issues.

(** The four levels the specification names. *)
Definition spec_levels : list str :=
  [lit "error"; lit "warning"; lit "info"; lit "suggestion"].

(** A sandbox for the sample worker [sec]. *)
Definition sec_sandbox : AgentSandbox.t :=
  AgentSandbox.new (worker "sec" (Some "critical")) here.

(** The five levels of the [patterns] object. *)
Definition parser_levels : list str := map fst AgentSandbox.patterns.

(** The issues one pattern contributes. *)
Definition group (toLowerCase : str -> str) (this : AgentSandbox.t)
    (level : str) (pattern : regex) (output : str) : list Issue.t :=
  map (AgentSandbox.issue_of_match toLowerCase this level)
      (take 100 (matchAll pattern output)).

(** The text [parseAgentOutput] scans: at most the first 1 MiB. *)
Definition scanned_text (output : str) : str :=
  if (1024 * 1024 <? N.of_nat (length output))%N
  then take (N.to_nat (1024 * 1024)) output
  else output.

(** What [escapeHtml] does to one code unit. *)
Definition escape_unit (c : char) : str :=
  if SecurityUtils.html_special c then SecurityUtils.html_entity [c] else [c].

(** A value with no [undefined] anywhere: one JSON has a text for, and
    reads back unchanged. *)
Fixpoint no_undefined (v : jsval) : bool :=
  match v with
  | JUndefined => false
  | JArr l => forallb no_undefined l
  | JObj props => forallb (fun p => no_undefined (snd p)) props
  | _ => true
  end.

(* ================================================================== *)
(** ** Patterns of the form keyword, separators, quote, value *)
(* ================================================================== *)

(** Every pattern of [sanitizeError] is a keyword (one of a few literal
    spellings, compared exactly or without case), then a run of separator
    characters, an optional quote character and a non-empty run of value
    characters.  For the four path patterns the separator and quote
    classes are empty. *)
Record shape := MkShape {
  lits : list str;
  ci : bool;
  sep : char -> bool;
  quo : char -> bool;
  val : char -> bool
}.

(** Length of the longest prefix within a class. *)
Fixpoint span (p : char -> bool) (t : str) : nat :=
  match t with
  | c :: t' => if p c then S (span p t') else 0
  | [] => 0
  end.

Definition unit_eq (ci : bool) : char -> char -> bool :=
  if ci then chr_eqi else chr_eq.

(** [l] is a prefix of [t], up to case when [ci]. *)
Fixpoint has_prefix (ci : bool) (l t : str) : bool :=
  match l, t with
  | [], _ => true
  | a :: l', c :: t' => unit_eq ci a c && has_prefix ci l' t'
  | _ :: _, [] => false
  end.

Definition head_in (p : char -> bool) (t : str) : bool :=
  match t with
  | c :: _ => p c
  | [] => false
  end.

(** After the keyword: separators, optional quote, then the value run;
    the number of code units up to the end of the value, if there is
    one. *)
Definition tail_len (sh : shape) (t : str) : option nat :=
  let a := span (sep sh) t in
  let t2 := drop a t in
  let q := if head_in (quo sh) t2 then 1%nat else 0%nat in
  let n := span (val sh) (drop q t2) in
  match n with
  | O => None
  | S _ => Some (a + q + n)%nat
  end.

(** Whether the part after the keyword matches. *)
Definition tailb (sh : shape) (t : str) : bool :=
  match tail_len sh t with Some _ => true | None => false end.

(** Length of the match of a shape at the start of [t]: the first
    spelling of the keyword after which the rest matches. *)
Fixpoint mt_lits (sh : shape) (ls : list str) (t : str) : option nat :=
  match ls with
  | [] => None
  | l :: ls' =>
      match (if has_prefix (ci sh) l t
             then tail_len sh (drop (length l) t) else None) with
      | Some n => Some (length l + n)%nat
      | None => mt_lits sh ls' t
      end
  end.

Definition mt (sh : shape) (t : str) : option nat := mt_lits sh (lits sh) t.

(** The global replacement of a shape by a fixed text, as a scan that
    knows only the match length. *)
Fixpoint replace_shape_from (sh : shape) (by_ : str) (t : str) (skip : nat) : str :=
  match skip with
  | S n =>
      match t with
      | [] => []
      | _ :: t' => replace_shape_from sh by_ t' n
      end
  | O =>
      match mt sh t with
      | Some (S n) =>
          by_ ++ match t with
                 | [] => []
                 | _ :: t' => replace_shape_from sh by_ t' n
                 end
      | _ =>
          match t with
          | [] => []
          | c :: t' => c :: replace_shape_from sh by_ t' 0
          end
      end
  end.

Definition replace_shape (sh : shape) (by_ : str) (s : str) : str :=
  replace_shape_from sh by_ s 0.

(** The shapes of the ten patterns. *)
Definition not_slash_space (c : char) : bool := negb ((c =? 47) || is_space c).
Definition not_backslash (c : char) : bool := negb (c =? 92).
Definition colon_space (c : char) : bool := (c =? 58) || is_space c.
Definition never (c : char) : bool := false.

Definition path_shape (literal : str) (value : char -> bool) : shape :=
  MkShape [literal] false never never value.
Definition cred_shape (spellings : list str) : shape :=
  MkShape spellings true colon_space (one_of [39; 34]) SecurityUtils.word_or_dash.

Definition sh_home : shape := path_shape (lit "/home/") not_slash_space.
Definition sh_win_users_c : shape := path_shape (lit "C:\Users\") not_backslash.
Definition sh_mac_users : shape := path_shape (lit "/Users/") not_slash_space.
Definition sh_win_users : shape := path_shape (lit "\Users\") not_backslash.
Definition sh_api_key : shape :=
  cred_shape [lit "api_key"; lit "api-key"; lit "apikey"].
Definition sh_bearer : shape :=
  MkShape [lit "bearer"] true is_space never SecurityUtils.word_or_dash.

Definition sensitiveShapes : list shape :=
  [sh_api_key; cred_shape [lit "password"]; cred_shape [lit "token"];
   cred_shape [lit "secret"]; cred_shape [lit "auth"]; sh_bearer].

(** ** Invariants of the scan *)

(** Every match of the shape at the start of [z] has the text [by_]. *)
Definition Good (sh : shape) (by_ : str) (z : str) : Prop :=
  forall n, mt sh z = Some n -> take n z = by_.

(** Every match of the shape anywhere in [s] has the text [by_]:
    replacing the matches by [by_] changes nothing. *)
Definition Inv (sh : shape) (by_ : str) (s : str) : Prop :=
  forall z, z `suffix_of` s -> Good sh by_ z.

(** [l] and [w] agree as far as both go. *)
Fixpoint meets (ci : bool) (l w : str) : bool :=
  match l, w with
  | a :: l', c :: w' => unit_eq ci a c && meets ci l' w'
  | _, _ => true
  end.

(** The code units a case-insensitive comparison accepts for [a]. *)
Definition variants (ci : bool) (a : char) : list char :=
  if ci then [a; ascii_upper a; if is_upper a then a + 32 else a] else [a].

(** First code units of the matches of a shape. *)
Definition starts (sh : shape) : list char :=
  flat_map (fun l => match l with
                     | a :: _ => variants (ci sh) a
                     | [] => []
                     end) (lits sh).

(** ** Conditions under which one replacement keeps the invariant of another *)

(** One replacement of [sanitizeError]: a path pattern, a literal and a
    value class, replaced by the literal and a fixed user name; or a
    credential pattern replaced by a fixed text. *)
Inductive stage :=
| Anonymise (literal : str) (value : char -> bool) (user : str)
| Redact (sh : shape) (by_ : str).

Definition stage_shape (st : stage) : shape :=
  match st with
  | Anonymise literal value _ => path_shape literal value
  | Redact sh _ => sh
  end.

Definition stage_by (st : stage) : str :=
  match st with
  | Anonymise literal _ user => literal ++ user
  | Redact _ by_ => by_
  end.

Definition run_stage (st : stage) (s : str) : str :=
  replace_shape (stage_shape st) (stage_by st) s.

Definition run_stages (l : list stage) (s : str) : str :=
  fold_left (fun s st => run_stage st s) l s.

(** All spellings of the keyword are non-empty. *)
Definition spelled (sh : shape) : bool :=
  forallb (fun l => negb (Nat.eqb (length l) 0)) (lits sh).

(** The class [p] does not tell the first unit of the replacement from
    the first unit of a match. *)
Definition same_class (J : stage) (p : char -> bool) : bool :=
  forallb (fun c => Bool.eqb (p c) (head_in p (stage_by J)))
          (starts (stage_shape J)).

(** No spelling, cut anywhere inside, continues as the text [w]. *)
Definition no_straddle (ci : bool) (ls : list str) (w : str) : bool :=
  forallb (fun l =>
             forallb (fun i => negb (meets ci (drop i l) w))
                     (seq 1 (length l - 1))) ls.

(** No spelling starts within the text [w], from offset [from] on. *)
Definition not_within (ci : bool) (ls : list str) (w : str) (from : nat) : bool :=
  forallb (fun l =>
             forallb (fun o => negb (meets ci l (drop o w)))
                     (seq from (length w - from))) ls.

(** A credential stage [I] against a stage [J] applied with or after it. *)
Definition redact_ok (I : shape) (RI : str) (J : stage) : bool :=
  spelled (stage_shape J)
  && negb (Nat.eqb (length (stage_by J)) 0)
  && forallb (fun l => negb (has_prefix (ci I) l RI)) (lits I)
  && same_class J (sep I) && same_class J (quo I) && same_class J (val I)
  && negb (head_in (sep I) (stage_by J))
  && negb (head_in (quo I) (stage_by J))
  && no_straddle (ci I) (lits I) (stage_by J)
  && not_within (ci I) (lits I) (stage_by J) 0.

(** The spelling [literal], cut at [i], continues as the literal of the
    path stage [J], and what follows it there is a value other than
    [user]: the input then had a match of another text at that place. *)
Definition straddle_shows (literal : str) (value : char -> bool) (user : str)
    (J : stage) (i : nat) : bool :=
  match J with
  | Anonymise literal' _ _ =>
      has_prefix false (drop i literal) literal' &&
      (let rest := drop (length literal - i) literal' in
       let k := span value rest in
       Nat.ltb 0 k && Nat.ltb k (length rest)
       && negb (eqb_str (take k rest) user))
  | Redact _ _ => false
  end.

Definition straddle_ok (literal : str) (value : char -> bool) (user : str)
    (J : stage) (i : nat) : Prop :=
  meets false (drop i literal) (stage_by J) = false
  \/ straddle_shows literal value user J i = true
  \/ J = Anonymise (drop i literal) value user.

(** A path stage against a stage [J] applied with or after it. *)
Definition anonymise_ok (literal : str) (value : char -> bool) (user : str)
    (J : stage) : Prop :=
  spelled (stage_shape J)
  && negb (Nat.eqb (length (stage_by J)) 0)
  && negb (Nat.eqb (length user) 0)
  && forallb value user
  && same_class J value
  && not_within false [literal] (stage_by J) 1
  && not_within (ci (stage_shape J)) (lits (stage_shape J)) user 0 = true
  /\ Forall (straddle_ok literal value user J) (seq 1 (length literal - 1))
  /\ (meets false literal (stage_by J) = false
      \/ J = Anonymise literal value user).

Definition pair_ok (I J : stage) : Prop :=
  match I with
  | Anonymise literal value user => anonymise_ok literal value user J
  | Redact sh by_ => redact_ok sh by_ J = true
  end.

(** Every stage keeps its own invariant and that of the stages before. *)
Fixpoint all_ok (l : list stage) : Prop :=
  match l with
  | [] => True
  | st :: l' => pair_ok st st /\ Forall (pair_ok st) l' /\ all_ok l'
  end.

(** A value run that is empty or the fixed user name. *)
Definition fine (value : char -> bool) (user : str) (u : str) : Prop :=
  span value u = 0%nat \/ take (span value u) u = user.

(** The replacements of [sanitizeError], in order. *)
Definition stages : list stage :=
  [Anonymise (lit "/home/") not_slash_space (lit "<user>");
   Anonymise (lit "C:\Users\") not_backslash (lit "<user>");
   Anonymise (lit "/Users/") not_slash_space (lit "<user>");
   Anonymise (lit "\Users\") not_backslash (lit "<user>")]
  ++ imap (fun index sh => Redact sh (SecurityUtils.redaction index))
          sensitiveShapes.

Definition stage_inv (st : stage) (s : str) : Prop :=
  Inv (stage_shape st) (stage_by st) s.

(** A continuation that fails on every input starting within [p]. *)
Definition rejects {R} (p : char -> bool) (k : @cont R) : Prop :=
  forall pos (c : N) (t : list N) cs, p c = true -> k pos (c :: t) cs = None.

(* ================================================================== *)
(** ** Further notions used in the statements *)
(* ================================================================== *)

(** What [execute] returns when [getClaudeCommand] finds no command and
    starts none: the object of its [catch] block. *)
Definition failed_run (this : AgentSandbox.t) (w : World)
    : ExecutionResult.t :=
  {| ExecutionResult.agentId := Agent.id (AgentSandbox.agent this);
     ExecutionResult.agentName := Agent.name (AgentSandbox.agent this);
     ExecutionResult.issues := [];
     ExecutionResult.rawOutput := [];
     ExecutionResult.executionTime :=
       (clock w (S (clock_reads w)) - clock w (clock_reads w))%Z;
     ExecutionResult.error :=
       Some (if timer_first w (timer_reads w)
             then Msg.timeout else Msg.no_claude);
     ExecutionResult.sandboxId := Some (entropy w (entropy_reads w)) |}.

(** A result that reports a failed run: no issues, no output, and the
    command-not-found or the time-out error. *)
Definition failed (r : ExecutionResult.t) : Prop :=
  ExecutionResult.issues r = []
  /\ ExecutionResult.rawOutput r = []
  /\ (ExecutionResult.error r = Some Msg.no_claude
      \/ ExecutionResult.error r = Some Msg.timeout).

(* ================================================================== *)
(** ** The sandbox objects of [AgentSandbox] *)
(* ================================================================== *)

(** Messages of the sandbox objects. *)
Module SandboxMsg.
(** [無効なコマンドです] *)
Definition invalid_command : str :=
  [28961; 21177; 12394; 12467; 12510; 12531; 12489; 12391; 12377].
(** [コマンドが長すぎます] *)
Definition command_too_long : str :=
  [12467; 12510; 12531; 12489; 12364; 38263; 12377; 12366; 12414;
   12377].
(** [空のコマンドは実行できません] *)
Definition empty_command : str :=
  [31354; 12398; 12467; 12510; 12531; 12489; 12399; 23455; 34892; 12391;
   12365; 12414; 12379; 12435].
(** [エージェントに許可されていないコマンド: ] *)
Definition agent_not_allowed : str :=
  [12456; 12540; 12472; 12455; 12531; 12488; 12395; 35377; 21487; 12373;
   12428; 12390; 12356; 12394; 12356; 12467; 12510; 12531; 12489; 58;
   32].
(** [ファイルアクセス拒否: ] *)
Definition access_denied : str :=
  [12501; 12449; 12452; 12523; 12450; 12463; 12475; 12473; 25298; 21542;
   58; 32].
(** [ファイル読み取りエラー: ] *)
Definition read_error : str :=
  [12501; 12449; 12452; 12523; 35501; 12415; 21462; 12426; 12456; 12521;
   12540; 58; 32].
(** [サンドボックス内での書き込み操作は許可されていません] *)
Definition write_denied : str :=
  [12469; 12531; 12489; 12508; 12483; 12463; 12473; 20869; 12391; 12398;
   26360; 12365; 36796; 12415; 25805; 20316; 12399; 35377; 21487; 12373;
   12428; 12390; 12356; 12414; 12379; 12435].
End SandboxMsg.

(** The object [createRestrictedTerminal()] returns. *)
Module RestrictedTerminal.

(** The variables of the parsing loop of [run]. *)
Record scanner := {
  args : list str;
  current : str;
  inQuotes : bool;
  escaped : bool
}.

Definition start : scanner :=
  {| args := []; current := []; inQuotes := false; escaped := false |}.

(** One round of the loop, for the code unit [char]. *)
Definition step (st : scanner) (char : char) : scanner :=
  if escaped st then
    {| args := args st; current := current st ++ [char];
       inQuotes := inQuotes st; escaped := false |}
  else if char =? 92 then
    {| args := args st; current := current st;
       inQuotes := inQuotes st; escaped := true |}
  else if (char =? 34) || (char =? 39) then
    {| args := args st; current := current st;
       inQuotes := negb (inQuotes st); escaped := false |}
  else if (char =? 32) && negb (inQuotes st) then
    match trim (current st) with
    | [] => st
    | word => {| args := args st ++ [word]; current := [];
                 inQuotes := inQuotes st; escaped := false |}
    end
  else
    {| args := args st; current := current st ++ [char];
       inQuotes := inQuotes st; escaped := false |}.

(** The arguments after the loop and the last push. *)
Definition finish (st : scanner) : list str :=
  match trim (current st) with
  | [] => args st
  | word => args st ++ [word]
  end.

Definition parse (command : str) : list str :=
  finish (fold_left step command start).

(** [run(command)] of the terminal of the sandbox [this].  Half the
    time-out of the sandbox is passed on; the constructor's time-out is
    even. *)
Definition run (this : AgentSandbox.t) (command : str) : M CommandResult :=
  let agentAllowedCommands :=
    default [lit "git"] (Agent.allowedCommands (AgentSandbox.agent this)) in
  if eqb_str command [] then throw (Error SandboxMsg.invalid_command)
  else if Nat.ltb 1000 (length command)
  then throw (Error SandboxMsg.command_too_long)
  else
    match parse command with
    | [] => throw (Error SandboxMsg.empty_command)
    | cmd :: cmdArgs =>
        if negb (existsb (eqb_str cmd) agentAllowedCommands)
        then throw (Error (SandboxMsg.agent_not_allowed ++ cmd))
        else executeCommand cmd cmdArgs
               (Some (AgentSandbox.timeout this / 2)%Z)
    end.

End RestrictedTerminal.

(** The object [createReadOnlyFileSystem(files)] returns. *)
Module ReadOnlyFileSystem.

Section Files.
(** [this.context.files.read], when the context has one. *)
Variable reader : option (str -> M str).
(** The files the sandbox was created for. *)
Variable files : list str.

(** [new Set(files.map(f => path.resolve(f)))]. *)
Definition allowedFiles (cwd : str) : list str :=
  map (fun f => Path.resolve cwd [f]) files.

Definition has (resolvedPath : str) (cwd : str) : bool :=
  existsb (eqb_str resolvedPath) (allowedFiles cwd).

(** [read(filePath)]. *)
Definition read (filePath : str) : M str :=
  cwd ← gets process_cwd;
  resolvedPath ← lift (SecurityUtils.validatePath cwd filePath None);
  if negb (has resolvedPath cwd)
  then throw (Error (SandboxMsg.access_denied ++ filePath))
  else
    try_catch
      (match reader with
       | None => throw (Error (lit "Context not properly initialized"))
       | Some context_files_read => context_files_read resolvedPath
       end)
      (fun error =>
         throw (Error (SandboxMsg.read_error
                       ++ SecurityUtils.message (SecurityUtils.sanitizeError error)))).

(** [exists(filePath)]. *)
Definition exists_ (filePath : str) : M bool :=
  cwd ← gets process_cwd;
  resolvedPath ← lift (SecurityUtils.validatePath cwd filePath None);
  mret (has resolvedPath cwd).

(** [write()]. *)
Definition write : M unit := throw (Error SandboxMsg.write_denied).
End Files.

End ReadOnlyFileSystem.

(** A code unit the parsing loop of the terminal only collects: no
    white space, no backslash, no quote. *)
Definition plain (c : char) : bool :=
  negb (is_space c || (c =? 92) || (c =? 34) || (c =? 39)).

(** The commands the terminal of a sandbox lets through. *)
Definition agentAllowedCommands (this : AgentSandbox.t) : list str :=
  default [lit "git"] (Agent.allowedCommands (AgentSandbox.agent this)).



(** A file [hashFile] can read and hash: it exists and is no larger than
    10 MB. *)
Definition hashable (w : World) (filePath : str) : Prop :=
  exists size content,
    fs w filePath = Some (size, content) /\ (size <= 10 * 1024 * 1024)%Z.

(** What [fs.readFile] yields for a file of the world ([[]] when the file
    does not exist). *)
Definition fileContent (w : World) (filePath : str) : str :=
  match fs w filePath with Some (_, content) => content | None => [] end.

(** The 15-minute window a time falls in, as [getCacheKey] computes it. *)
Definition window (w : World) : Z :=
  (clock w (clock_reads w) / (15 * 60 * 1000))%Z.

(** A text holding none of [<], [>], double quote and single quote. *)
Definition markup_free (text : str) : Prop :=
  Forall (fun c => one_of [60; 62; 34; 39] c = false) text.

(** ** The changed files of [detectChangedFiles] *)

Module ChangedFiles.

(** [String.prototype.split('\n')]. *)
Fixpoint split_lines (s : str) : list str :=
  match s with
  | [] => [[]]
  | c :: s' =>
      if c =? 10 then [] :: split_lines s'
      else match split_lines s' with
           | line :: rest => (c :: line) :: rest
           | [] => [[c]]
           end
  end.

(** [Array.prototype.indexOf]: the first index holding the element, or
    [-1]. *)
Fixpoint indexOf_from (index : nat) (arr : list str) (file : str) : Z :=
  match arr with
  | [] => (-1)%Z
  | x :: arr' =>
      if eqb_str x file then Z.of_nat index
      else indexOf_from (S index) arr' file
  end.
Definition indexOf (arr : list str) (file : str) : Z :=
  indexOf_from 0 arr file.

(** [Array.prototype.filter] with a callback that also takes the
    index. *)
Fixpoint filter_from {A} (p : A -> nat -> bool) (index : nat) (l : list A)
    : list A :=
  match l with
  | [] => []
  | x :: l' =>
      if p x index then x :: filter_from p (S index) l'
      else filter_from p (S index) l'
  end.

(** [f && !f.startsWith('commit ') && f.length < 260]. *)
Definition is_path (f : str) : bool :=
  match f with [] => false | _ => true end
  && negb (startsWith f (lit "commit "))
  && (N.of_nat (length f) <? 260).

(** [arr.filter((file, index, arr) => arr.indexOf(file) === index)]. *)
Definition first_occurrences (arr : list str) : list str :=
  filter_from (fun file index => (indexOf arr file =? Z.of_nat index)%Z) 0 arr.

(** The trimmed lines that pass the first filter. *)
Definition candidates (limitedOutput : str) : list str :=
  filter is_path (map trim (split_lines limitedOutput)).

(** The list [detectChangedFiles] makes of the output of [git log]. *)
Definition changedFiles (stdout : str) : list str :=
  let limitedOutput :=
    if 1024 * 1024 <? N.of_nat (length stdout)
    then take (N.to_nat (1024 * 1024)) stdout
    else stdout in
  take 1000 (first_occurrences (candidates limitedOutput)).

End ChangedFiles.

(** ** The TODO list of [generateTodoContent] *)

Module Todo.


Record group := {
  g_priority : option str;
  g_category : str;
  g_issues : list Issue.t
}.

(** [priorityLevels[name]] as a number.  [None] stands for a value that
    is no number ([undefined], or a property inherited from
    [Object.prototype]): every comparison with it is false. *)
Definition priorityLevels (name : str) : option Z :=
  if eqb_str name (lit "critical") then Some 0%Z
  else if eqb_str name (lit "high") then Some 1%Z
  else if eqb_str name (lit "medium") then Some 2%Z
  else if eqb_str name (lit "low") then Some 3%Z
  else None.

Definition level (priority : option str) : option Z :=
  match priority with
  | Some (c :: name) => priorityLevels (c :: name)
  | _ => None
  end.



(** The key [`${issue.priority}-${issue.category}`]. *)
Definition key_of (priority : option str) (category : str) : str :=
  default (lit "undefined") priority ++ lit "-" ++ category.

(** One step of the grouping loop: the object [grouped] as the list of
    its properties in insertion order. *)
Fixpoint add (issue : Issue.t) (key : str) (grouped : list (str * group))
    : list (str * group) :=
  match grouped with
  | [] => [(key, {| g_priority := Issue.priority issue;
                    g_category := Issue.category issue;
                    g_issues := [issue] |})]
  | (k, g) :: rest =>
      if eqb_str k key
      then (k, {| g_priority := g_priority g;
                  g_category := g_category g;
                  g_issues := g_issues g ++ [issue] |}) :: rest
      else (k, g) :: add issue key rest
  end.

Definition grouped (filtered : list Issue.t) : list (str * group) :=
  fold_left
    (fun grouped issue =>
       add issue (key_of (Issue.priority issue) (Issue.category issue)) grouped)
    filtered [].

(** The comparator of the sort; a difference that is no number counts
    as zero. *)
Definition compare (a b : group) : Z :=
  match level (g_priority a), level (g_priority b) with
  | Some x, Some y => (x - y)%Z
  | _, _ => 0%Z
  end.

(** [Array.prototype.sort] with a comparator: a stable sort. *)
Fixpoint insert_group (g : group) (l : list group) : list group :=
  match l with
  | [] => [g]
  | h :: l' =>
      if (compare g h <=? 0)%Z then g :: l else h :: insert_group g l'
  end.
Definition sort (l : list group) : list group :=
  fold_right insert_group [] l.




End Todo.



(** ** [InputValidator] *)

Module InputValidator.




End InputValidator.

(** The sample world with two small files. *)
Definition w_files : World :=
  MkWorld (clock w0) 0 (entropy w0) 0 (child_process w0) (timer_first w0) 0
          (process_cwd w0) (process_env w0) []
          (fun filePath =>
             if eqb_str filePath (lit "/srv/app/a.txt") then Some (3%Z, lit "one")
             else if eqb_str filePath (lit "/srv/app/b.txt") then Some (3%Z, lit "two")
             else None)
          [].

(** Stand-ins for the digest and for [JSON.stringify] in the sample
    runs: the text itself, and the number of properties. *)
Definition plain_digest (text : str) : str := text.
Definition count_text (v : jsval) : str :=
  match v with
  | JObj props => of_Z (Z.of_nat (length props))
  | _ => []
  end.

(** A reader for the sample runs: the content of the file in the
    world. *)
Definition fs_reader (filePath : str) : M str := fun w =>
  match fs w filePath with
  | Some (_, content) => (Normal content, w)
  | None => (Throw (Error (lit "ENOENT")), w)
  end.

(* ================================================================== *)
(** * Properties *)
(* ================================================================== *)

(** ** The matcher *)

Section MatcherFacts.

Lemma search_app (r : regex) (a t : str) (pos : nat) :
  is_Some (match_at r (pos + length a) t) →
  is_Some (search r pos (a ++ t)).
Proof.
  revert pos. induction a as [|c a IH]; intros pos H; simpl in *.
  - rewrite Nat.add_0_r in H. destruct H as [m Hm].
    destruct t; simpl; rewrite Hm; eauto.
  - destruct (match_at r pos (c :: a ++ t)); [eauto|].
    apply IH. by replace (S pos + length a)%nat with (pos + S (length a))%nat by lia.
Qed.

Lemma test_app (r : regex) (a t : str) :
  is_Some (match_at r (length a) t) → test r (a ++ t) = true.
Proof.
  intros H. unfold test. apply bool_decide_eq_true. by apply search_app.
Qed.

(** A one-character pattern finds every occurrence of its class. *)
Lemma test_Chr (p : char -> bool) (s : str) (c : char) :
  c ∈ s → p c = true → test (Chr p) s = true.
Proof.
  intros [a [b ->]]%list_elem_of_split Hp. apply test_app.
  unfold match_at. simpl. rewrite Hp. eauto.
Qed.

Lemma test_search_None (r : regex) (s : str) :
  test r s = false → search r 0 s = None.
Proof.
  unfold test. intros H%bool_decide_eq_false.
  destruct (search r 0 s); [exfalso; eauto | done].
Qed.

End MatcherFacts.

(** ** [validatePath] *)

Section ValidatePath.
Import SecurityUtils.

Lemma test_pat_dotdot (a b : str) :
  test pat_dotdot (a ++ lit ".." ++ b) = true.
Proof. apply test_app. unfold match_at. simpl. eauto. Qed.

Lemma dangerous_of_pattern (pattern : regex) (userPath : str) :
  pattern ∈ dangerousPatterns → test pattern userPath = true →
  existsb (fun pattern => test pattern userPath) dangerousPatterns = true.
Proof.
  intros Hin Ht. apply existsb_exists. exists pattern.
  split; [by apply list_elem_of_In | done].
Qed.

Variable cwd : str.

Lemma validatePath_dangerous (userPath : str) (baseDir : option str) :
  existsb (fun pattern => test pattern userPath) dangerousPatterns = true →
  ∃ msg, validatePath cwd userPath baseDir = Throw (Error msg).
Proof.
  intros H. unfold validatePath. rewrite H.
  destruct (eqb_str userPath []); eauto.
Qed.

Lemma validatePath_Normal (userPath : str) (baseDir : option str) (p : str) :
  validatePath cwd userPath baseDir = Normal p ↔
  userPath ≠ []
  ∧ existsb (fun pattern => test pattern userPath) dangerousPatterns = false
  ∧ p = Path.resolve cwd [default cwd baseDir; userPath]
  ∧ startsWith p (Path.resolve cwd [default cwd baseDir]) = true
  ∧ includes (Path.relative cwd (Path.resolve cwd [default cwd baseDir]) p)
             (lit "..") = false
  ∧ startsWith (Path.relative cwd (Path.resolve cwd [default cwd baseDir]) p)
               (lit "../") = false
  ∧ (length p ≤ 260)%nat.
Proof.
  unfold validatePath, eqb_str.
  destruct (existsb _ dangerousPatterns) eqn:Hd.
  { case_bool_decide; (split; [done|]); intros (? & ? & _); congruence. }
  set (resolved := Path.resolve cwd [default cwd baseDir; userPath]).
  set (base := Path.resolve cwd [default cwd baseDir]).
  case_bool_decide as Hne; [split; [done | by intros [? _]]|].
  destruct (startsWith resolved base) eqn:Hs; simpl.
  2:{ split; [done|]. intros (_ & _ & -> & Hs' & _). congruence. }
  destruct (includes (Path.relative cwd base resolved) (lit "..")) eqn:Hi; simpl.
  { split; [done|]. intros (_ & _ & -> & _ & Hi' & _). congruence. }
  destruct (startsWith (Path.relative cwd base resolved) (lit "../")) eqn:Hr.
  { split; [done|]. intros (_ & _ & -> & _ & _ & Hr' & _). congruence. }
  destruct (Nat.ltb_spec 260 (length resolved)).
  { split; [done|]. intros (_ & _ & -> & _ & _ & _ & Hl). lia. }
  split.
  - intros [= <-]. repeat split; try done.
  - intros (_ & _ & -> & _). done.
Qed.

(** C3 (as amended): [validatePath] throws for every candidate that
    contains two consecutive dots (in particular a traversal segment),
    a tilde or a NUL, and for every candidate whose resolved form does
    not start with the resolved root; whenever it returns, the result
    is the resolved candidate and starts with the resolved root; and it
    returns exactly when the candidate is non-empty, matches none of
    the eleven deny patterns, resolves under the root and is at most
    260 code units long. *)
Theorem validatePath_guard (userPath : str) (baseDir : option str) :
  let root := Path.resolve cwd [default cwd baseDir] in
  let resolved := Path.resolve cwd [default cwd baseDir; userPath] in
  (((∃ a b, userPath = a ++ lit ".." ++ b) ∨ 126 ∈ userPath ∨ 0 ∈ userPath
    ∨ startsWith resolved root = false) →
   ∃ msg, validatePath cwd userPath baseDir = Throw (Error msg))
  ∧ (∀ p, validatePath cwd userPath baseDir = Normal p →
          p = resolved ∧ startsWith p root = true)
  ∧ (is_Normal (validatePath cwd userPath baseDir) = true ↔
     userPath ≠ []
     ∧ existsb (fun pattern => test pattern userPath) dangerousPatterns = false
     ∧ startsWith resolved root = true
     ∧ includes (Path.relative cwd root resolved) (lit "..") = false
     ∧ startsWith (Path.relative cwd root resolved) (lit "../") = false
     ∧ (length resolved ≤ 260)%nat).
Proof.
  intros root resolved. split; [|split].
  - intros [(a & b & ->) | [Ht | [Hn | Hs]]].
    + apply validatePath_dangerous, (dangerous_of_pattern pat_dotdot).
      * repeat constructor.
      * apply test_pat_dotdot.
    + apply validatePath_dangerous, (dangerous_of_pattern pat_tilde).
      * repeat constructor.
      * by apply (test_Chr _ _ 126).
    + apply validatePath_dangerous, (dangerous_of_pattern pat_nul).
      * repeat constructor.
      * by apply (test_Chr _ _ 0).
    + destruct (validatePath cwd userPath baseDir) as [p|e] eqn:Hv.
      * apply validatePath_Normal in Hv as (_ & _ & -> & Hs' & _).
        fold root resolved in Hs'. congruence.
      * unfold validatePath in Hv.
        repeat match type of Hv with
               | (if ?c then _ else _) = _ => destruct c
               end; inversion Hv; eauto.
  - intros p (_ & _ & -> & Hs & _)%validatePath_Normal. done.
  - split.
    + destruct (validatePath cwd userPath baseDir) as [p|e] eqn:Hv; [|done].
      intros _. apply validatePath_Normal in Hv as (? & ? & -> & ? & ? & ? & ?).
      done.
    + intros (? & ? & ? & ? & ? & ?).
      assert (validatePath cwd userPath baseDir = Normal resolved) as ->; [|done].
      apply validatePath_Normal. done.
Qed.

End ValidatePath.

(** A concrete run of the theorem: a traversal is refused, and a plain
    relative file is resolved under the root. *)
Lemma validatePath_guard_witness :
  (∃ msg, SecurityUtils.validatePath (lit "/srv/app") (lit "../etc/passwd") None
          = Throw (Error msg))
  ∧ (lit "/srv/app/src/a.txt" = Path.resolve (lit "/srv/app") [lit "/srv/app"; lit "src/a.txt"]
     ∧ startsWith (lit "/srv/app/src/a.txt") (Path.resolve (lit "/srv/app") [lit "/srv/app"]) = true).
Proof.
  split.
  - apply (validatePath_guard (lit "/srv/app") (lit "../etc/passwd") None).
    left. exists [], (lit "/etc/passwd"). reflexivity.
  - apply (validatePath_guard (lit "/srv/app") (lit "src/a.txt") None).
    vm_compute. reflexivity.
Defined.

(** C3 (as stated) fails: [a.js] resolves strictly within the root
    [/srv/app], yet [validatePath] refuses it, because its extension is
    on the deny list. *)
Lemma validatePath_refuses_inside_root :
  ¬ (∀ cwd userPath,
       strictly_within (Path.resolve cwd [cwd]) (Path.resolve cwd [cwd; userPath]) →
       ∃ p, SecurityUtils.validatePath cwd userPath None = Normal p
            ∧ startsWith p (Path.resolve cwd [cwd]) = true).
Proof.
  intros H. destruct (H (lit "/srv/app") (lit "a.js")) as (p & Hp & _).
  - exists (lit "a.js"). split; [done | reflexivity].
  - vm_compute in Hp. discriminate.
Qed.

(** ** [executeCommand] *)

Section ExecuteCommand.

Lemma allowed_false (command : str) :
  command ∉ Config.ALLOWED_COMMANDS →
  existsb (eqb_str command) Config.ALLOWED_COMMANDS = false.
Proof.
  intros Hn. apply not_true_is_false. intros [x [Hin Hx]]%existsb_exists.
  apply Hn. apply bool_decide_eq_true in Hx. subst x. by apply list_elem_of_In.
Qed.

(** C8: a command outside the allow-list is refused with the rejection
    error, and the world is left as it was: nothing is spawned. *)
Theorem executeCommand_rejects (command : str) (args : list str)
    (timeout : option Z) (w : World) :
  command ∉ Config.ALLOWED_COMMANDS →
  executeCommand command args timeout w
  = (Throw (Error (Msg.not_allowed ++ command)), w)
  ∧ spawn_count (snd (executeCommand command args timeout w)) = spawn_count w.
Proof.
  intros Hn. assert (executeCommand command args timeout w
                     = (Throw (Error (Msg.not_allowed ++ command)), w)) as ->.
  { unfold executeCommand, mbind, M_bind, gets. by rewrite allowed_false. }
  done.
Qed.
End ExecuteCommand.

Lemma executeCommand_rejects_witness :
  executeCommand (lit "rm") [lit "-rf"; lit "/"] None w0
  = (Throw (Error (Msg.not_allowed ++ lit "rm")), w0)
  ∧ spawn_count (snd (executeCommand (lit "rm") [lit "-rf"; lit "/"] None w0))
    = spawn_count w0.
Proof.
  apply executeCommand_rejects. vm_compute.
  intros H. repeat (apply elem_of_cons in H as [H|H]; [discriminate|]).
  by apply elem_of_nil in H.
Defined.

(** ** Replacement keeps a non-empty text non-empty *)

Section Replace.

Lemma replace_all_nonempty (r : regex) (by_ s : str) :
  by_ ≠ [] → s ≠ [] → replace_all r by_ s ≠ [].
Proof.
  intros Hb Hs. unfold replace_all, replace_all_fn.
  destruct s as [|c t]; [done|]. simpl.
  destruct (match_at r 0 (c :: t)) as [m|]; [|done].
  destruct by_; [done|]. done.
Qed.

Lemma redaction_nonempty (index : nat) : SecurityUtils.redaction index ≠ [].
Proof. done. Qed.

Lemma redact_all_nonempty (l : list (nat * regex)) (s : str) :
  s ≠ [] →
  fold_left (fun message '(index, pattern) =>
               replace_all pattern (SecurityUtils.redaction index) message)
            l s ≠ [].
Proof.
  revert s. induction l as [|[i p] l IH]; intros s Hs; simpl; [done|].
  apply IH. by apply replace_all_nonempty.
Qed.

Lemma sanitizeMessage_nonempty (message : str) :
  message ≠ [] → SecurityUtils.sanitizeMessage message ≠ [].
Proof.
  intros H. unfold SecurityUtils.sanitizeMessage.
  apply redact_all_nonempty.
  repeat (apply replace_all_nonempty; [done|]). done.
Qed.

Lemma sanitizeError_Error_nonempty (m : str) :
  SecurityUtils.message (SecurityUtils.sanitizeError (Error m)) ≠ [].
Proof.
  unfold SecurityUtils.sanitizeError. simpl.
  apply sanitizeMessage_nonempty. destruct m; done.
Qed.

End Replace.

(** ** What the effects leave alone *)

Section Frames.

Lemma throws_Error_bind {A B} (m : M A) (f : A → M B) :
  throws_Error m → (∀ a, throws_Error (f a)) → throws_Error (m ≫= f).
Proof.
  intros Hm Hf w e w'. unfold mbind, M_bind.
  destruct (m w) as [[a|e1] w1] eqn:E.
  - apply Hf.
  - intros [= <- <-]. eapply Hm, E.
Qed.

Lemma throws_Error_ret {A} (a : A) : throws_Error (mret a).
Proof. intros w e w'. unfold mret, M_ret. done. Qed.

Lemma throws_Error_throw {A} (msg : str) : throws_Error (@throw A (Error msg)).
Proof. intros w e w' [= <- <-]. eauto. Qed.

Lemma throws_Error_try_catch {A} (m : M A) (h : exn → M A) :
  (∀ e, throws_Error (h e)) → throws_Error (try_catch m h).
Proof.
  intros Hh w e w'. unfold try_catch.
  destruct (m w) as [[a|e1] w1]; [done|]. apply Hh.
Qed.

Lemma throws_Error_gets {A} (f : World → A) : throws_Error (gets f).
Proof. intros w e w'. unfold gets. done. Qed.

Lemma throws_Error_Date_now : throws_Error Date_now.
Proof. intros w e w'. unfold Date_now. done. Qed.

Lemma throws_Error_executeCommand command args timeout :
  throws_Error (executeCommand command args timeout).
Proof.
  unfold executeCommand. apply throws_Error_bind; [apply throws_Error_gets|].
  intros cwd. destruct (negb _).
  - apply throws_Error_throw.
  - apply throws_Error_try_catch. intros e. apply throws_Error_throw.
Qed.

Lemma throws_Error_getClaudeCommand : throws_Error getClaudeCommand.
Proof.
  unfold getClaudeCommand.
  apply throws_Error_try_catch; intros _.
  apply throws_Error_try_catch; intros _.
  apply throws_Error_throw.
Qed.

Lemma throws_Error_race {A} (m : M A) :
  throws_Error m → throws_Error (race_timeout m).
Proof.
  intros Hm w e w'. unfold race_timeout.
  destruct (m (tick_timer w)) as [r w1] eqn:E.
  destruct (timer_first w (timer_reads w)).
  - intros [= <- <-]. eauto.
  - intros [= -> <-]. eapply Hm, E.
Qed.

Lemma throws_Error_runAgentInSandbox tl this files iteration :
  throws_Error (AgentSandbox.runAgentInSandbox tl this files iteration).
Proof.
  unfold AgentSandbox.runAgentInSandbox.
  apply throws_Error_bind; [apply throws_Error_getClaudeCommand|]. intros c.
  apply throws_Error_bind; [apply throws_Error_executeCommand|]. intros r.
  apply throws_Error_ret.
Qed.

Lemma throws_Error_execute_try tl this files iteration startTime sandboxId :
  throws_Error (AgentSandbox.execute_try tl this files iteration startTime sandboxId).
Proof.
  unfold AgentSandbox.execute_try.
  apply throws_Error_bind.
  { apply throws_Error_race, throws_Error_runAgentInSandbox. }
  intros r. apply throws_Error_bind; [apply throws_Error_Date_now|].
  intros t. apply throws_Error_ret.
Qed.

End Frames.

(** ** [AgentSandbox.execute] *)

Section Execute.
Variable toLowerCase : str → str.

(** C7: [execute] never throws.  It returns a result for every sandbox,
    file set, iteration and world; when the [try] block throws at any
    step (sandbox construction, command, time-out, parsing,
    sanitisation), the result carries the sanitised message, which is
    not empty, as [error], and no issues; otherwise it is the result of
    the block, with no [error]. *)
Theorem execute_never_throws (this : AgentSandbox.t) (files : list str)
    (iteration : Z) (w : World) :
  ∃ r w',
    AgentSandbox.execute toLowerCase this files iteration w = (Normal r, w')
    ∧ match AgentSandbox.execute_try toLowerCase this files iteration
              (clock w (clock_reads w)) (entropy w (entropy_reads w))
              (entered this w) with
      | (Normal r0, _) => r = r0 ∧ ExecutionResult.error r = None
      | (Throw e, _) =>
          ExecutionResult.issues r = []
          ∧ ExecutionResult.error r
            = Some (SecurityUtils.message (SecurityUtils.sanitizeError e))
          ∧ SecurityUtils.message (SecurityUtils.sanitizeError e) ≠ []
      end.
Proof.
  unfold AgentSandbox.execute, mbind, M_bind, modify, Date_now, randomHex,
    try_catch. simpl. fold (entered this w).
  destruct (AgentSandbox.execute_try _ _ _ _ _ _ _) as [[r0|e] w1] eqn:E.
  - exists r0, w1. split; [done|]. split; [done|].
    unfold AgentSandbox.execute_try, mbind, M_bind in E.
    destruct (race_timeout _ _) as [[x|?] ?]; [|done].
    simpl in E. by injection E as <- <-.
  - eexists _, _. split; [reflexivity|]. simpl. split; [done|]. split; [done|].
    apply throws_Error_execute_try in E as [msg ->].
    apply sanitizeError_Error_nonempty.
Qed.
End Execute.

(** ** Computations that enter no sandbox *)

Section Quiet.

Lemma quiet_ret {A} (a : A) : quiet (mret a).
Proof. done. Qed.

Lemma quiet_throw {A} (e : exn) : quiet (@throw A e).
Proof. done. Qed.

Lemma quiet_gets {A} (f : World → A) : quiet (gets f).
Proof. done. Qed.

Lemma quiet_lift {A} (c : Completion A) : quiet (lift c).
Proof. done. Qed.

Lemma quiet_Date_now : quiet Date_now.
Proof. done. Qed.

Lemma quiet_randomHex : quiet randomHex.
Proof. done. Qed.

Lemma quiet_bind {A B} (m : M A) (f : A → M B) :
  quiet m → (∀ a, quiet (f a)) → quiet (m ≫= f).
Proof.
  intros Hm Hf w. unfold mbind, M_bind.
  destruct (Hm w) as [H1 H2]. destruct (m w) as [[a|e] w1]; simpl in *.
  - destruct (Hf a w1) as [H3 H4]. split; congruence.
  - done.
Qed.

Lemma quiet_try_catch {A} (m : M A) (h : exn → M A) :
  quiet m → (∀ e, quiet (h e)) → quiet (try_catch m h).
Proof.
  intros Hm Hh w. unfold try_catch.
  destruct (Hm w) as [H1 H2]. destruct (m w) as [[a|e] w1]; simpl in *.
  - done.
  - destruct (Hh e w1) as [H3 H4]. split; congruence.
Qed.

Lemma quiet_execFileAsync (s : spawn) : quiet (execFileAsync s).
Proof.
  intros w. unfold execFileAsync.
  destruct (child_process w (spawn_count w) s); done.
Qed.

Lemma quiet_race {A} (m : M A) : quiet m → quiet (race_timeout m).
Proof.
  intros Hm w. unfold race_timeout.
  destruct (Hm (tick_timer w)) as [H1 H2].
  destruct (m (tick_timer w)) as [r w1]; simpl in *.
  destruct (timer_first w (timer_reads w)); done.
Qed.

Lemma quiet_executeCommand command args timeout :
  quiet (executeCommand command args timeout).
Proof.
  unfold executeCommand. apply quiet_bind; [apply quiet_gets|]. intros cwd.
  destruct (negb _); [apply quiet_throw|].
  apply quiet_try_catch; [|intros e; apply quiet_throw].
  apply quiet_bind; [apply quiet_lift|]. intros v.
  apply quiet_bind; [apply quiet_gets|]. intros env.
  apply quiet_bind; [apply quiet_execFileAsync|]. intros r.
  apply quiet_ret.
Qed.

Lemma quiet_getClaudeCommand : quiet getClaudeCommand.
Proof.
  unfold getClaudeCommand. cbv beta zeta.
  apply quiet_try_catch.
  { apply quiet_bind; [apply quiet_executeCommand | intros; apply quiet_ret]. }
  intros _. apply quiet_try_catch.
  { apply quiet_bind; [apply quiet_executeCommand | intros; apply quiet_ret]. }
  intros _. apply quiet_throw.
Qed.

Lemma quiet_runAgentInSandbox tl this files iteration :
  quiet (AgentSandbox.runAgentInSandbox tl this files iteration).
Proof.
  unfold AgentSandbox.runAgentInSandbox.
  apply quiet_bind; [apply quiet_getClaudeCommand|]. intros c.
  apply quiet_bind; [apply quiet_executeCommand|]. intros r.
  apply quiet_ret.
Qed.

Lemma quiet_execute_try tl this files iteration startTime sandboxId :
  quiet (AgentSandbox.execute_try tl this files iteration startTime sandboxId).
Proof.
  unfold AgentSandbox.execute_try.
  apply quiet_bind; [apply quiet_race, quiet_runAgentInSandbox|]. intros r.
  apply quiet_bind; [apply quiet_Date_now|]. intros t. apply quiet_ret.
Qed.

End Quiet.

(** ** One sandbox run, seen from the scheduler *)

Section SandboxRun.
Variable toLowerCase : str → str.

Lemma execute_result_of (this : AgentSandbox.t) (files : list str)
    (iteration : Z) (w : World) :
  ∃ r w',
    AgentSandbox.execute toLowerCase this files iteration w = (Normal r, w')
    ∧ result_of (AgentSandbox.agent this) r
    ∧ sandbox_runs w' = S (sandbox_runs w)
    ∧ heap w' = heap w.
Proof.
  unfold AgentSandbox.execute, mbind, M_bind, modify, Date_now, randomHex,
    try_catch. simpl. fold (entered this w).
  pose proof (quiet_execute_try toLowerCase this files iteration
                (clock w (clock_reads w)) (entropy w (entropy_reads w))
                (entered this w)) as [Hq1 Hq2].
  destruct (AgentSandbox.execute_try _ _ _ _ _ _ _) as [[r0|e] w1] eqn:E;
    simpl in Hq1, Hq2.
  - exists r0, w1. split; [done|].
    unfold AgentSandbox.execute_try, mbind, M_bind in E.
    destruct (race_timeout _ _) as [[x|?] ?]; [|done].
    simpl in E. injection E as <- <-.
    split; [split; [by right | by left]|]. done.
  - eexists _, _. split; [reflexivity|]. simpl.
    apply throws_Error_execute_try in E as [msg ->].
    split; [split; [by left|right]|done].
    eexists. split; [done|]. split; [|done].
    apply sanitizeError_Error_nonempty.
Qed.
End SandboxRun.

(** ** [groupByPriority] *)

Section Groups.
Import ParallelExecutor.

Lemma tier_cons (name : str) (agent : Agent.t) (agents : list Agent.t) :
  tier name (agent :: agents) = tier1 name agent ++ tier name agents.
Proof. unfold tier, tier1. simpl. by destruct (eqb_str _ _). Qed.

Lemma existsb_eqb_str_false (key : str) (l : list str) :
  key ∉ l → existsb (eqb_str key) l = false.
Proof.
  intros Hn. apply not_true_is_false. intros [x [Hin Hx]]%existsb_exists.
  apply Hn. apply bool_decide_eq_true in Hx. subst x. by apply list_elem_of_In.
Qed.

Lemma place_groups_of (c h m l : list Agent.t) (agent : Agent.t) :
  ¬ inherited_priority agent →
  place (groups_of c h m l) agent
  = Normal (groups_of (c ++ tier1 (lit "critical") agent)
                      (h ++ tier1 (lit "high") agent)
                      (m ++ tier1 (lit "medium") agent)
                      (l ++ tier1 (lit "low") agent)).
Proof.
  intros Hni. unfold place. rewrite (existsb_eqb_str_false _ _ Hni).
  unfold tier1, tier_of, tier_names, groups_of.
  set (key := priority_key agent) in *. clearbody key. clear Hni.
  destruct (decide (key = lit "critical")) as [->|N1].
  { rewrite !app_nil_r. reflexivity. }
  destruct (decide (key = lit "high")) as [->|N2].
  { rewrite !app_nil_r. reflexivity. }
  destruct (decide (key = lit "medium")) as [->|N3].
  { rewrite !app_nil_r. reflexivity. }
  destruct (decide (key = lit "low")) as [->|N4].
  { rewrite !app_nil_r. reflexivity. }
  simpl. unfold eqb_str.
  rewrite !(bool_decide_eq_false_2 (key = _)) by done.
  rewrite !(bool_decide_eq_false_2 (_ = key)) by done.
  simpl. rewrite !app_nil_r. reflexivity.
Qed.

Lemma place_all_groups_of (agents : list Agent.t) :
  ∀ c h m l,
  Forall (fun agent => ¬ inherited_priority agent) agents →
  place_all (groups_of c h m l) agents
  = Normal (groups_of (c ++ tier (lit "critical") agents)
                      (h ++ tier (lit "high") agents)
                      (m ++ tier (lit "medium") agents)
                      (l ++ tier (lit "low") agents)).
Proof.
  induction agents as [|agent agents IH]; intros c h m l Hok.
  - simpl. by rewrite !app_nil_r.
  - inversion_clear Hok as [|?? Ha Hrest]. rewrite !tier_cons.
    cbn [place_all]. rewrite place_groups_of by done. rewrite IH by done.
    by rewrite !app_assoc.
Qed.

(** Without inherited priorities, [groupByPriority] returns the
    non-empty tiers in tier order, each in input order. *)
Lemma groupByPriority_tiers (agents : list Agent.t) :
  Forall (fun agent => ¬ inherited_priority agent) agents →
  groupByPriority agents
  = Normal (List.filter (fun g => Nat.ltb 0 (length g)) (tiers agents)).
Proof.
  intros Hok. unfold groupByPriority.
  change empty_groups with (groups_of [] [] [] []).
  by rewrite place_all_groups_of.
Qed.

(** An inherited priority makes [groupByPriority] throw. *)
Lemma groupByPriority_constructor_throws :
  is_Throw (groupByPriority [worker "w1" (Some "constructor")]) = true.
Proof. reflexivity. Qed.
End Groups.

(** ** [executeAgents] *)

Section ExecuteAgents.
Import ParallelExecutor.
Variable toLowerCase : str → str.
Variable files : list str.
Variable context : Context.t.
Variable iteration : Z.

Lemma allSettled_outcome (group : list Agent.t) (w : World) :
  ∃ rs w',
    allSettled toLowerCase files context iteration group w = (Normal rs, w')
    ∧ Forall2 (fun agent p => ∃ r, p = (agent, Normal r) ∧ result_of agent r)
              group rs
    ∧ sandbox_runs w' = (sandbox_runs w + length group)%nat
    ∧ heap w' = heap w.
Proof.
  revert w. induction group as [|agent group IH]; intros w.
  - exists [], w. simpl. repeat split; [constructor | lia].
  - cbn [allSettled]. unfold mbind, M_bind, settle, agent_promise.
    destruct (execute_result_of toLowerCase (AgentSandbox.new agent context)
                files iteration w) as (r & w1 & -> & Hr & Hs & Hh).
    destruct (IH w1) as (rs & w2 & -> & Hrs & Hs2 & Hh2).
    eexists _, _. split; [reflexivity|]. split; [|split].
    + constructor; eauto.
    + simpl. lia.
    + congruence.
Qed.

Lemma run_group_outcome (k : nat) (group : list Agent.t) (w : World) :
  ∃ rs w',
    run_group toLowerCase files context iteration k group w = (Normal rs, w')
    ∧ Forall2 result_of (take k group) rs
    ∧ sandbox_runs w' = (sandbox_runs w + length (take k group))%nat
    ∧ heap w' = heap w.
Proof.
  unfold run_group, try_catch, mbind, M_bind.
  destruct (allSettled_outcome (take k group) w) as (ps & w1 & -> & Hps & Hs & Hh).
  eexists _, _. split; [reflexivity|]. split; [|done].
  clear -Hps. induction Hps as [|agent p g ps (r & -> & Hr) _ IH]; simpl.
  - constructor.
  - by constructor.
Qed.

Lemma run_groups_outcome (k : nat) (groups : list (list Agent.t)) (w : World) :
  ∃ rs w',
    run_groups toLowerCase files context iteration k groups w = (Normal rs, w')
    ∧ Forall2 result_of (flat_map (take k) groups) rs
    ∧ sandbox_runs w' = (sandbox_runs w + length (flat_map (take k) groups))%nat
    ∧ heap w' = heap w.
Proof.
  revert w. induction groups as [|group groups IH]; intros w.
  - exists [], w. simpl. repeat split; [constructor | lia].
  - cbn [run_groups flat_map]. unfold mbind, M_bind.
    destruct (run_group_outcome k group w) as (rs & w1 & -> & Hrs & Hs & Hh).
    destruct (IH w1) as (rest & w2 & -> & Hrest & Hs2 & Hh2).
    eexists _, _. split; [reflexivity|]. split; [|split].
    + by apply Forall2_app.
    + rewrite length_app. lia.
    + congruence.
Qed.

Lemma flat_map_take_nonempty (k : nat) (groups : list (list Agent.t)) :
  flat_map (take k) (List.filter (fun g => Nat.ltb 0 (length g)) groups)
  = flat_map (take k) groups.
Proof.
  induction groups as [|g groups IH]; [done|]. simpl.
  destruct g as [|a g]; simpl.
  - by rewrite take_nil.
  - by rewrite IH.
Qed.

(** What a call of [executeAgents] does, for priorities that are not
    inherited property names. *)
Lemma executeAgents_outcome (agents : list Agent.t) (w : World) :
  Forall (fun agent => ¬ inherited_priority agent) agents →
  ∃ rs w',
    executeAgents toLowerCase files context iteration agents w = (Normal rs, w')
    ∧ Forall2 result_of (scheduled agents) rs
    ∧ sandbox_runs w' = (sandbox_runs w + length (scheduled agents))%nat
    ∧ heap w' = heap w.
Proof.
  intros Hok. unfold executeAgents.
  destruct agents as [|a agents'] eqn:Ea.
  { exists [], w. repeat split; [constructor | simpl; lia]. }
  rewrite <- Ea in *. clear Ea.
  unfold mbind, M_bind, lift. rewrite groupByPriority_tiers by done.
  destruct (run_groups_outcome (Nat.min (length agents) 4)
              (List.filter (fun g => Nat.ltb 0 (length g)) (tiers agents)) w)
    as (rs & w' & -> & Hrs & Hs & Hh).
  rewrite flat_map_take_nonempty in Hrs, Hs.
  exists rs, w'. done.
Qed.
End ExecuteAgents.

(** ** The tiers partition the workers *)

Section Tiers.

Lemma tier_of_name (agent : Agent.t) : tier_of agent ∈ tier_names.
Proof.
  unfold tier_of. destruct (existsb _ tier_names) eqn:E.
  - apply existsb_exists in E as (x & Hin & Hx).
    apply bool_decide_eq_true in Hx. rewrite Hx. by apply list_elem_of_In.
  - unfold tier_names. rewrite !elem_of_cons. auto.
Qed.

Ltac eval_names :=
  repeat match goal with
         | |- context [eqb_str (lit ?a) (lit ?b)] =>
             let v := eval vm_compute in (eqb_str (lit a) (lit b)) in
             change (eqb_str (lit a) (lit b)) with v
         end.

Lemma tiers_partition (agents : list Agent.t) :
  concat (tiers agents) ≡ₚ agents.
Proof.
  induction agents as [|agent agents IH]; [done|].
  rewrite <- IH at 2. unfold tiers, tier_names. cbn [map concat].
  rewrite !tier_cons. unfold tier1.
  pose proof (tier_of_name agent) as Hn. unfold tier_names in Hn.
  repeat (apply elem_of_cons in Hn as [-> | Hn]);
    [ | | | | by apply elem_of_nil in Hn]; eval_names; simpl.
  - done.
  - by rewrite <- Permutation_middle.
  - rewrite (app_assoc (tier _ _) (tier _ _)).
    by rewrite <- Permutation_middle, <- app_assoc.
  - rewrite (app_assoc (tier _ _) (tier _ _)).
    rewrite (app_assoc (_ ++ _) (tier _ _)).
    by rewrite <- Permutation_middle, <- !app_assoc.
Qed.

Lemma tier_length (name : str) (agents : list Agent.t) :
  (length (tier name agents) ≤ length agents)%nat.
Proof.
  unfold tier. induction agents as [|a agents IH]; simpl; [lia|].
  destruct (eqb_str _ _); simpl; lia.
Qed.

(** When no tier has more than four workers, every worker is
    scheduled. *)
Lemma scheduled_all (agents : list Agent.t) :
  Forall (fun g => (length g ≤ 4)%nat) (tiers agents) →
  scheduled agents = concat (tiers agents).
Proof.
  unfold scheduled. intros H.
  assert (Forall (fun g => (length g ≤ Nat.min (length agents) 4)%nat)
                 (tiers agents)) as H'.
  { unfold tiers in *. apply Forall_map. apply Forall_map in H.
    eapply Forall_impl; [exact H|]. simpl. intros name Hl.
    pose proof (tier_length name agents). lia. }
  clear H. induction H' as [|g gs Hg _ IH]; [done|].
  simpl. rewrite IH. by rewrite take_ge.
Qed.

Lemma Forall2_length_eq {A B} (P : A → B → Prop) (l : list A) (k : list B) :
  Forall2 P l k → length l = length k.
Proof. apply Forall2_length. Qed.

End Tiers.

(** ** The scheduler: results, cache, unknown priorities *)

Section Scheduler.
Import ParallelExecutor.
Variable toLowerCase : str → str.
Variable files : list str.
Variable context : Context.t.
Variable iteration : Z.

(** C1 (as amended): for workers whose priority is not a property name
    inherited from [Object.prototype], [executeAgents] returns, in tier
    order and within a tier in input order, exactly one result for
    each of the first [min (number of workers) 4] workers of every
    tier; each result has no error, or a non-empty error and no issues,
    so a failing worker keeps its entry and its siblings'.  When no
    tier has more than four workers these are all the workers: the
    result list is as long as the worker list. *)
Theorem executeAgents_results (agents : list Agent.t) (w : World) :
  Forall (fun agent => ¬ inherited_priority agent) agents →
  ∃ rs w',
    executeAgents toLowerCase files context iteration agents w = (Normal rs, w')
    ∧ Forall2 result_of (scheduled agents) rs
    ∧ (Forall (fun g => (length g ≤ 4)%nat) (tiers agents) →
       scheduled agents ≡ₚ agents ∧ length rs = length agents).
Proof.
  intros Hok.
  destruct (executeAgents_outcome toLowerCase files context iteration agents w Hok)
    as (rs & w' & He & Hrs & _).
  exists rs, w'. split; [done|]. split; [done|]. intros Hsmall.
  assert (scheduled agents ≡ₚ agents) as Hp.
  { rewrite scheduled_all by done. apply tiers_partition. }
  split; [done|]. rewrite <- (Forall2_length _ _ _ Hrs). by rewrite Hp.
Qed.

(** C2 (as amended): [executeAgents] neither consults nor fills a
    result cache.  Every call, a repeated identical one included,
    enters one sandbox run for each scheduled worker and leaves the
    heap, where cached copies live, untouched. *)
Theorem executeAgents_always_runs (agents : list Agent.t) (w : World) :
  Forall (fun agent => ¬ inherited_priority agent) agents →
  ∃ rs1 w1 rs2 w2,
    executeAgents toLowerCase files context iteration agents w = (Normal rs1, w1)
    ∧ executeAgents toLowerCase files context iteration agents w1 = (Normal rs2, w2)
    ∧ sandbox_runs w1 = (sandbox_runs w + length (scheduled agents))%nat
    ∧ sandbox_runs w2 = (sandbox_runs w1 + length (scheduled agents))%nat
    ∧ heap w1 = heap w ∧ heap w2 = heap w.
Proof.
  intros Hok.
  destruct (executeAgents_outcome toLowerCase files context iteration agents w Hok)
    as (rs1 & w1 & He1 & _ & Hs1 & Hh1).
  destruct (executeAgents_outcome toLowerCase files context iteration agents w1 Hok)
    as (rs2 & w2 & He2 & _ & Hs2 & Hh2).
  exists rs1, w1, rs2, w2. repeat split; try done. congruence.
Qed.

(** C10 (as amended): a worker whose priority is none of the four tiers
    and no inherited property name is not rejected: [groupByPriority]
    puts it in the medium group, in input order with the other medium
    workers.  It is then run exactly like them: it gets a result when
    it is among the first [min (number of workers) 4] of that group. *)
Theorem unknown_priority_joins_medium (agents : list Agent.t)
    (agent : Agent.t) (w : World) :
  Forall (fun agent => ¬ inherited_priority agent) agents →
  agent ∈ agents →
  priority_key agent ∉ tier_names →
  groupByPriority agents
  = Normal (List.filter (fun g => Nat.ltb 0 (length g)) (tiers agents))
  ∧ agent ∈ tier (lit "medium") agents
  ∧ tier (lit "medium") agents
    ∈ List.filter (fun g => Nat.ltb 0 (length g)) (tiers agents)
  ∧ (agent ∈ take (Nat.min (length agents) 4) (tier (lit "medium") agents) →
     ∃ rs w' r,
       executeAgents toLowerCase files context iteration agents w = (Normal rs, w')
       ∧ r ∈ rs ∧ result_of agent r).
Proof.
  intros Hok Hin Hkey.
  assert (agent ∈ tier (lit "medium") agents) as Hm.
  { unfold tier. apply list_elem_of_In, filter_In. split; [by apply list_elem_of_In|].
    unfold tier_of. by rewrite existsb_eqb_str_false. }
  split; [by apply groupByPriority_tiers|]. split; [done|]. split.
  - apply list_elem_of_In, filter_In. split.
    + apply list_elem_of_In. unfold tiers, tier_names. rewrite !fmap_cons.
      rewrite !elem_of_cons. auto.
    + destruct (tier (lit "medium") agents); [by apply elem_of_nil in Hm | done].
  - intros Htake.
    destruct (executeAgents_outcome toLowerCase files context iteration agents w Hok)
      as (rs & w' & He & Hrs & _).
    assert (agent ∈ scheduled agents) as Hsch.
    { unfold scheduled, tiers, tier_names. cbn [map flat_map].
      rewrite !elem_of_app. auto. }
    apply list_elem_of_lookup in Hsch as [i Hi].
    destruct (Forall2_lookup_l _ _ _ _ _ Hrs Hi) as (r & Hr & Hres).
    exists rs, w', r. split; [done|]. split; [|done].
    apply list_elem_of_lookup. eauto.
Qed.
End Scheduler.

Lemma no_inherited_catalogue :
  Forall (fun agent => ¬ inherited_priority agent) catalogue.
Proof.
  repeat constructor; intros H; apply list_elem_of_In in H; vm_compute in H;
    intuition discriminate.
Qed.

Lemma no_inherited_five_unknown :
  Forall (fun agent => ¬ inherited_priority agent) five_unknown.
Proof.
  repeat constructor; intros H; apply list_elem_of_In in H; vm_compute in H;
    intuition discriminate.
Qed.

(** The end-to-end scenario: two workers, two results. *)
Lemma executeAgents_results_witness :
  ∃ rs w',
    ParallelExecutor.executeAgents ascii_lower [lit "a.js"] here 1 catalogue w0
    = (Normal rs, w')
    ∧ Forall2 result_of (scheduled catalogue) rs
    ∧ length rs = length catalogue.
Proof.
  destruct (executeAgents_results ascii_lower [lit "a.js"] here 1 catalogue w0
              no_inherited_catalogue) as (rs & w' & H1 & H2 & H3).
  exists rs, w'. split; [exact H1|]. split; [exact H2|].
  apply H3. repeat constructor; vm_compute; lia.
Defined.

(** C1 (as stated) fails: of five workers of the medium tier only four
    get a result. *)
Lemma executeAgents_drops_beyond_four :
  ¬ (∀ agents w, ∃ rs w',
       ParallelExecutor.executeAgents ascii_lower [lit "a.js"] here 1 agents w
       = (Normal rs, w')
       ∧ length rs = length agents).
Proof.
  intros H. destruct (H five_medium w0) as (rs & w' & He & Hl).
  apply (f_equal fst) in He. vm_compute in He. injection He as <-.
  discriminate Hl.
Qed.

(** The scenario run twice: two sandbox runs each time. *)
Lemma executeAgents_always_runs_witness :
  ∃ rs1 w1 rs2 w2,
    ParallelExecutor.executeAgents ascii_lower [lit "a.js"] here 1 catalogue w0
    = (Normal rs1, w1)
    ∧ ParallelExecutor.executeAgents ascii_lower [lit "a.js"] here 1 catalogue w1
      = (Normal rs2, w2)
    ∧ sandbox_runs w1 = 2%nat ∧ sandbox_runs w2 = 4%nat.
Proof.
  destruct (executeAgents_always_runs ascii_lower [lit "a.js"] here 1 catalogue w0
              no_inherited_catalogue)
    as (rs1 & w1 & rs2 & w2 & H1 & H2 & H3 & H4 & _).
  exists rs1, w1, rs2, w2. split; [exact H1|]. split; [exact H2|].
  rewrite H4, H3. split; reflexivity.
Defined.

(** C2 (as stated) fails: the second identical call enters the sandboxes
    again. *)
Lemma second_call_runs_sandboxes :
  ¬ (∀ agents w rs1 w1 rs2 w2,
       ParallelExecutor.executeAgents ascii_lower [lit "a.js"] here 1 agents w
       = (Normal rs1, w1) →
       ParallelExecutor.executeAgents ascii_lower [lit "a.js"] here 1 agents w1
       = (Normal rs2, w2) →
       sandbox_runs w2 = sandbox_runs w1).
Proof.
  intros H.
  destruct (executeAgents_outcome ascii_lower [lit "a.js"] here 1 catalogue w0
              no_inherited_catalogue) as (rs1 & w1 & He1 & _ & Hs1 & _).
  destruct (executeAgents_outcome ascii_lower [lit "a.js"] here 1 catalogue w1
              no_inherited_catalogue) as (rs2 & w2 & He2 & _ & Hs2 & _).
  specialize (H catalogue w0 rs1 w1 rs2 w2 He1 He2).
  change (length (scheduled catalogue)) with 2%nat in Hs2. lia.
Qed.

(** A worker with an unknown priority among the first four of the medium
    group gets its result. *)
Lemma unknown_priority_joins_medium_witness :
  ∃ rs w' r,
    ParallelExecutor.executeAgents ascii_lower [lit "a.js"] here 1 five_unknown w0
    = (Normal rs, w')
    ∧ r ∈ rs ∧ result_of (worker "u1" (Some "urgent")) r.
Proof.
  apply (unknown_priority_joins_medium ascii_lower [lit "a.js"] here 1
           five_unknown (worker "u1" (Some "urgent")) w0).
  - exact no_inherited_five_unknown.
  - apply list_elem_of_here.
  - intros H. apply list_elem_of_In in H. vm_compute in H. intuition discriminate.
  - apply list_elem_of_here.
Defined.

(** C10 (as stated) fails: the fifth of five workers with an unknown
    priority is placed in the medium group and then dropped. *)
Lemma unknown_priority_can_be_dropped :
  ¬ (∀ agents agent w,
       agent ∈ agents →
       ParallelExecutor.priority_key agent ∉ tier_names →
       ∃ rs w' r,
         ParallelExecutor.executeAgents ascii_lower [lit "a.js"] here 1 agents w
         = (Normal rs, w')
         ∧ r ∈ rs
         ∧ (ExecutionResult.agentId r = Agent.id agent
            ∨ ExecutionResult.agentId r = SecurityUtils.escapeHtml (Agent.id agent))).
Proof.
  intros H.
  destruct (H five_unknown (worker "u5" (Some "urgent")) w0)
    as (rs & w' & r & He & Hr & Hid).
  - unfold five_unknown. rewrite !elem_of_cons. auto 10.
  - intros Hk. apply list_elem_of_In in Hk. vm_compute in Hk. intuition discriminate.
  - apply (f_equal fst) in He. vm_compute in He. injection He as <-.
    vm_compute in Hid.
    repeat (apply elem_of_cons in Hr as [-> | Hr];
            [vm_compute in Hid; destruct Hid; discriminate|]).
    by apply elem_of_nil in Hr.
Qed.

(** ** [ResultCache] *)

Section Cache.
Import ResultCache.

Lemma map_get_set {V} (key : str) (v : V) (m : list (str * V)) :
  map_get key (map_set key v m) = Some v.
Proof.
  induction m as [|[k v'] m IH]; simpl; unfold eqb_str.
  - by rewrite bool_decide_eq_true_2.
  - case_bool_decide as E; simpl; unfold eqb_str.
    + by rewrite bool_decide_eq_true_2.
    + by rewrite bool_decide_eq_false_2.
Qed.




Lemma scan_invariant (now : Z) (rest seen : list (str * entry)) acc :
  scanned now seen acc → scanned now (seen ++ rest) (scan rest acc).
Proof.
  revert seen acc. induction rest as [|[k e] rest IH]; intros seen acc H.
  - by rewrite app_nil_r.
  - replace (seen ++ (k, e) :: rest) with ((seen ++ [(k, e)]) ++ rest)
      by by rewrite <- app_assoc.
    unfold scan. cbn [fold_left]. apply IH.
    destruct acc as [[k0|] t]; simpl in *.
    + destruct H as (Hlt & (e0 & Hin & Ht) & Hall).
      destruct (Z.ltb_spec (timestamp e) t).
      * split; [lia|]. split.
        -- exists e. split; [|done]. apply elem_of_app. right. apply list_elem_of_here.
        -- apply Forall_app. split.
           ++ eapply Forall_impl; [exact Hall|]. simpl. intros; lia.
           ++ constructor; [simpl; lia | constructor].
      * split; [done|]. split.
        -- exists e0. split; [|done]. apply elem_of_app. by left.
        -- apply Forall_app. split; [done|]. constructor; [done | constructor].
    + destruct H as (-> & Hall).
      destruct (Z.ltb_spec (timestamp e) now).
      * split; [done|]. split.
        -- exists e. split; [|done]. apply elem_of_app. right. apply list_elem_of_here.
        -- apply Forall_app. split.
           ++ eapply Forall_impl; [exact Hall|]. simpl. intros; lia.
           ++ constructor; [simpl; lia | constructor].
      * split; [done|]. apply Forall_app. split; [done|].
        constructor; [done | constructor].
Qed.

(** What [oldest] finds: nothing when no entry is strictly older than
    the current time; otherwise an entry of minimal timestamp. *)
Lemma oldest_spec (now : Z) (c : list (str * entry)) :
  match oldest now c with
  | None => Forall (fun p => (now ≤ timestamp (snd p))%Z) c
  | Some k =>
      ∃ e, (k, e) ∈ c ∧ (timestamp e < now)%Z
           ∧ Forall (fun p => (timestamp e ≤ timestamp (snd p))%Z) c
  end.
Proof.
  pose proof (scan_invariant now c [] (None, now)) as H.
  unfold oldest. fold (scan c (None, now)). simpl in H.
  destruct (scan c (None, now)) as [[k|] t]; simpl in *.
  - destruct H as (Hlt & (e & Hin & <-) & Hall); [by split|]. eauto.
  - destruct H as (_ & Hall); [by split|]. done.
Qed.

(** The defect of [evictOldest]: when every entry carries the current
    time (or a later one), nothing is evicted. *)
Lemma evictOldest_keeps_all (this : t) (w : World) :
  Forall (fun p => (clock w (clock_reads w) ≤ timestamp (snd p))%Z) (cache this) →
  evictOldest this w = (Normal this, tick_clock w).
Proof.
  intros Hall. unfold evictOldest, mbind, M_bind, Date_now.
  pose proof (oldest_spec (clock w (clock_reads w)) (cache this)) as H.
  destruct (oldest _ _) as [k|]; [|done].
  destruct H as (e & Hin & Hlt & _).
  rewrite Forall_forall in Hall. specialize (Hall _ Hin). simpl in Hall. lia.
Qed.


(** [get] hands out the address the cache itself holds, and allocates
    nothing. *)
Lemma get_key_aliases (this : t) (key : str) (w : World) (address : nat)
    (this' : t) (w' : World) :
  get_key this key w = (Normal (Some address, this'), w') →
  (∃ e, map_get key (cache this) = Some e ∧ result e = address)
  ∧ this' = this ∧ heap w' = heap w.
Proof.
  unfold get_key. destruct (map_get key (cache this)) as [e|]; [|done].
  unfold mbind, M_bind, Date_now. destruct (_ <? _)%Z; [|done].
  intros [= <- <- <-]. eauto.
Qed.

Lemma evictOldest_total (this : t) (w : World) :
  ∃ c', evictOldest this w = (Normal (with_cache this c'), tick_clock w).
Proof.
  unfold evictOldest, mbind, M_bind, Date_now.
  destruct (oldest _ _) as [[|c k]|]; eauto; exists (cache this); by destruct this.
Qed.

Lemma deepCopy_some (r : nat) (v : jsval) (w : World) :
  heap w !! r = Some v →
  deepCopy r w
  = match v with
    | JUndefined =>
        (Throw (MkError (lit "SyntaxError") (lit "Unexpected token") None), w)
    | _ => (Normal (length (heap w)), set_heap (heap w ++ [json_copy v]) w)
    end.
Proof. intros H. unfold deepCopy. rewrite H. by destruct v. Qed.

(** The part of C4 that holds: right after [set], and before the entry
    expires, [get] returns a fresh address, different from the
    caller's object, holding its JSON copy. *)
Lemma get_after_set_is_a_copy (this : t) (key : str) (r : nat) (v : jsval)
    (w : World) (this1 : t) (w1 : World) :
  heap w !! r = Some v →
  set_key this key r w = (Normal this1, w1) →
  (clock w1 (clock_reads w1) - clock w1 (Nat.pred (clock_reads w1)) < ttl this)%Z →
  ∃ address,
    get_key this1 key w1 = (Normal (Some address, this1), tick_clock w1)
    ∧ address ≠ r
    ∧ heap w1 !! address = Some (json_copy v).
Proof.
  intros Hr Hset Hfresh. unfold set_key, mbind, M_bind in Hset.
  assert (∃ c' w', (if Nat.leb (maxSize this) (length (cache this))
                    then evictOldest this else mret this) w
                   = (Normal (with_cache this c'), w')
                   ∧ heap w' = heap w ∧ clock w' = clock w)
    as (c' & w' & He & Hh & Hc).
  { destruct (Nat.leb _ _).
    - destruct (evictOldest_total this w) as [c' ->]. by exists c', (tick_clock w).
    - exists (cache this), w. by destruct this. }
  rewrite He in Hset. rewrite <- Hh in Hr.
  rewrite (deepCopy_some _ _ _ Hr) in Hset.
  assert (v ≠ JUndefined) as Hv by (intros ->; discriminate).
  assert (this1 = with_cache this
                    (map_set key {| result := length (heap w');
                                    timestamp := clock w' (clock_reads w') |} c')
          ∧ w1 = tick_clock (set_heap (heap w' ++ [json_copy v]) w'))
    as [-> ->].
  { destruct v; try done; unfold Date_now in Hset; simpl in Hset;
      by injection Hset as <- <-. }
  clear Hset. exists (length (heap w')). simpl in *. split; [|split].
  - unfold get_key. simpl. rewrite map_get_set. simpl.
    unfold mbind, M_bind, Date_now. simpl.
    apply Z.ltb_lt in Hfresh. by rewrite Hfresh.
  - apply lookup_lt_Some in Hr. lia.
  - by rewrite lookup_app_r, Nat.sub_diag by lia.
Qed.

(** C6 at the failing input: 101 insertions within one millisecond into
    a new cache, whose capacity is 100, leave 101 entries. *)
Theorem cache_overflows_within_one_millisecond :
  ∃ this w',
    put_keys new 0 101 (w_frozen 1700000000000) = (Normal this, w')
    ∧ length (cache this) = 101%nat
    ∧ maxSize this = 100%nat.
Proof.
  destruct (put_keys new 0 101 (w_frozen 1700000000000)) as [c w'] eqn:E.
  assert (match c with
          | Normal this => (length (cache this), maxSize this)
          | Throw _ => (0, 0)%nat
          end = (101, 100)%nat) as H.
  { replace c with (fst (put_keys new 0 101 (w_frozen 1700000000000)))
      by by rewrite E.
    vm_compute. reflexivity. }
  destruct c as [this|]; [|discriminate H].
  injection H as H1 H2.
  exists this, w'. split; [reflexivity|]. split; assumption.
Qed.

(** C4 at the failing input: after [set], the caller changes the object
    [get] returned; the next [get] returns the same address, which now
    holds the changed value, no longer the copy that was stored. *)
Theorem get_exposes_the_stored_object :
  ∃ address w',
    set_get_mutate_get (lit "k") w_result
    = (Normal (Some address, Some address), w')
    ∧ address ≠ 0%nat
    ∧ heap w' !! address = Some tampered_result
    ∧ tampered_result ≠ json_copy clean_result.
Proof.
  destruct (set_get_mutate_get (lit "k") w_result) as [c w'] eqn:E.
  assert (c = Normal (Some 1%nat, Some 1%nat)
          ∧ heap w' !! 1%nat = Some tampered_result) as [-> Hh].
  { replace c with (fst (set_get_mutate_get (lit "k") w_result)) by by rewrite E.
    replace w' with (snd (set_get_mutate_get (lit "k") w_result)) by by rewrite E.
    split; vm_compute; reflexivity. }
  exists 1%nat, w'. split; [reflexivity|]. split; [discriminate|].
  split; [exact Hh | discriminate].
Qed.
End Cache.

(** ** Where a match can end *)

Section MatchEnds.
Context {R : Type}.

(** Whatever the pattern, the continuation that succeeds is entered at
    a suffix of the input, the position advanced by what was consumed. *)
Lemma rep_greedy_suffix p lo hi (k : @cont R) x :
  ∀ t n pos cs,
    rep_greedy p lo hi n pos t cs k = Some x →
    ∃ m, (m ≤ length t)%nat ∧ k (pos + m)%nat (drop m t) cs = Some x.
Proof.
  induction t as [|c t IH]; intros n pos cs H; simpl in H.
  - destruct (Nat.leb lo n); [|done]. exists 0%nat.
    rewrite Nat.add_0_r. split; [simpl; lia | done].
  - assert (Hstop : (if Nat.leb lo n then k pos (c :: t) cs else None) = Some x →
                    ∃ m, (m ≤ length (c :: t))%nat
                         ∧ k (pos + m)%nat (drop m (c :: t)) cs = Some x).
    { destruct (Nat.leb lo n); [|done]. intros Hk. exists 0%nat.
      rewrite Nat.add_0_r. split; [simpl; lia | done]. }
    destruct (p c && below n hi); [|by apply Hstop].
    destruct (rep_greedy p lo hi (S n) (S pos) t cs k) as [y|] eqn:E;
      [|by apply Hstop].
    injection H as ->. apply IH in E as (m & Hm & Hk).
    exists (S m). split; [simpl; lia|].
    by replace (pos + S m)%nat with (S pos + m)%nat by lia.
Qed.

Lemma rep_lazy_suffix p lo hi (k : @cont R) x :
  ∀ t n pos cs,
    rep_lazy p lo hi n pos t cs k = Some x →
    ∃ m, (m ≤ length t)%nat ∧ k (pos + m)%nat (drop m t) cs = Some x.
Proof.
  induction t as [|c t IH]; intros n pos cs H; simpl in H.
  - destruct (Nat.leb lo n); [|done].
    destruct (k pos [] cs) as [y|] eqn:E; [|done]. injection H as ->.
    exists 0%nat. rewrite Nat.add_0_r. split; [simpl; lia | done].
  - assert (Hmore : (if p c && below n hi
                     then rep_lazy p lo hi (S n) (S pos) t cs k else None) = Some x →
                    ∃ m, (m ≤ length (c :: t))%nat
                         ∧ k (pos + m)%nat (drop m (c :: t)) cs = Some x).
    { destruct (p c && below n hi); [|done]. intros E.
      apply IH in E as (m & Hm & Hk). exists (S m). split; [simpl; lia|].
      by replace (pos + S m)%nat with (S pos + m)%nat by lia. }
    destruct (Nat.leb lo n); [|by apply Hmore].
    destruct (k pos (c :: t) cs) as [y|] eqn:E; [|by apply Hmore].
    injection H as ->. exists 0%nat. rewrite Nat.add_0_r.
    split; [simpl; lia | done].
Qed.

End MatchEnds.

Lemma run_suffix {R : Type} (r : regex) :
  ∀ (k : @cont R) x pos t cs,
    run r pos t cs k = Some x →
    ∃ m cs', (m ≤ length t)%nat ∧ k (pos + m)%nat (drop m t) cs' = Some x.
Proof.
  induction r as [p| |r1 IH1 r2 IH2|r1 IH1 r2 IH2|g p lo hi|r IH| | |n r IH];
    intros k x pos t cs H; simpl in H.
  - destruct t as [|c t]; [done|]. destruct (p c); [|done].
    exists 1%nat, cs. split; [simpl; lia|].
    by replace (pos + 1)%nat with (S pos) by lia.
  - exists 0%nat, cs. rewrite Nat.add_0_r. split; [lia | done].
  - apply IH1 in H as (m1 & cs1 & Hm1 & H).
    apply IH2 in H as (m2 & cs2 & Hm2 & H).
    rewrite length_drop in Hm2. exists (m1 + m2)%nat, cs2. split; [lia|].
    rewrite drop_drop in H. by rewrite Nat.add_assoc.
  - destruct (run r1 pos t cs k) as [y|] eqn:E.
    + injection H as ->. by apply IH1 in E.
    + by apply IH2 in H.
  - destruct g.
    + apply rep_greedy_suffix in H as (m & Hm & H). eauto.
    + apply rep_lazy_suffix in H as (m & Hm & H). eauto.
  - destruct (run r pos t cs k) as [y|] eqn:E.
    + injection H as ->. by apply IH in E.
    + exists 0%nat, cs. rewrite Nat.add_0_r. split; [lia | done].
  - destruct (Nat.eqb pos 0); [|done].
    exists 0%nat, cs. rewrite Nat.add_0_r. split; [lia | done].
  - destruct t; [|done].
    exists 0%nat, cs. rewrite Nat.add_0_r. split; [simpl; lia | done].
  - apply IH in H as (m & cs' & Hm & H). eauto.
Qed.

(** ** [parseAgentOutput] *)

Section Parser.
Import AgentSandbox.

(** A severity match consumes at least the colon, and ends with a line
    feed or at the end of the input. *)
Lemma severity_match_end (markers : list str) (pos : nat) (t : str)
    (m : match_result) :
  match_at (severity markers) pos t = Some m →
  (1 ≤ m_len m ≤ length t)%nat
  ∧ (m_len m = length t ∨ t !! (m_len m - 1)%nat = Some 10).
Proof.
  unfold match_at, severity. cbn [Seqs run]. intros H.
  apply run_suffix in H as (m1 & cs1 & Hm1 & H).
  destruct (drop m1 t) as [|c t1] eqn:E1; [done|].
  destruct (chr_eq 58 c); [|done].
  apply (run_suffix (Star is_space)) in H as (m2 & cs2 & Hm2 & H).
  apply rep_lazy_suffix in H as (m3 & Hm3 & H).
  assert (t1 = drop (S m1) t) as ->.
  { replace (S m1) with (m1 + 1)%nat by lia.
    by rewrite <- (drop_drop t 1 m1), E1. }
  rewrite !drop_drop in H. rewrite !length_drop in Hm2, Hm3.
  rewrite length_drop in Hm3.
  remember (S m1 + (m2 + m3))%nat as n eqn:En.
  assert (length t ≠ m1).
  { intros <-. by rewrite drop_all in E1. }
  destruct (drop n t) as [|c2 t2] eqn:E2.
  - injection H as <-. simpl.
    apply (f_equal length) in E2. rewrite length_drop in E2. simpl in E2.
    split; [lia|]. left. lia.
  - destruct (chr_eq 10 c2) eqn:Ec; [|done].
    injection H as <-. simpl.
    apply N.eqb_eq in Ec. subst c2.
    assert (t !! n = Some 10) as Hn.
    { pose proof (lookup_drop t n 0) as Hd. rewrite E2, Nat.add_0_r in Hd.
      simpl in Hd. by symmetry. }
    pose proof (lookup_lt_Some _ _ _ Hn).
    split; [lia|]. right.
    by replace (S (S (pos + m1 + m2 + m3)) - pos - 1)%nat with n by lia.
Qed.
End Parser.

Section ParserCounts.
Import AgentSandbox.

Lemma line_feeds_app (a b : str) :
  line_feeds (a ++ b) = (line_feeds a + line_feeds b)%nat.
Proof. unfold line_feeds. by rewrite List.filter_app, length_app. Qed.

Lemma line_feeds_take (n : nat) (s : str) :
  (line_feeds (take n s) ≤ line_feeds s)%nat.
Proof.
  rewrite <- (take_drop n s) at 2. rewrite line_feeds_app. lia.
Qed.

Lemma line_feeds_elem (s : str) : 10 ∈ s → (1 ≤ line_feeds s)%nat.
Proof.
  intros (a & b & ->)%list_elem_of_split.
  rewrite line_feeds_app. unfold line_feeds at 2. simpl. lia.
Qed.

Lemma matches_left_le (s : str) : (matches_left s ≤ lines s)%nat.
Proof. destruct s; unfold matches_left, lines; simpl; lia. Qed.

(** Each match of a severity pattern uses up a line. *)
Lemma severity_matches_bound (markers : list str) :
  ∀ (rest : str) pos skip,
    (length (matches_from (severity markers) pos rest skip)
     ≤ matches_left (drop skip rest))%nat.
Proof.
  induction rest as [|c t IH]; intros pos skip.
  - destruct skip; simpl; [|lia].
    destruct (match_at (severity markers) pos []) as [m|] eqn:E; simpl; [|lia].
    apply severity_match_end in E as [[? ?] _]. simpl in *. lia.
  - destruct skip as [|n]; cbn [matches_from drop]; [|apply IH].
    destruct (match_at (severity markers) pos (c :: t)) as [m|] eqn:E.
    + apply severity_match_end in E as [[Hlo Hhi] Hend].
      specialize (IH (S pos) (Nat.pred (m_len m))). cbn [length].
      destruct (m_len m) as [|len]; [lia|]. simpl in IH, Hhi, Hend.
      rewrite Nat.sub_0_r in Hend. cbn [Nat.pred].
      change (matches_left (c :: t)) with (S (line_feeds (c :: t))).
      destruct Hend as [Hend | Hend].
      * rewrite drop_ge in IH by lia. simpl in IH. lia.
      * pose proof (matches_left_le (drop len t)) as Hle. unfold lines in Hle.
        assert (1 + line_feeds (drop (S len) (c :: t)) ≤ line_feeds (c :: t))%nat.
        { rewrite <- (take_drop (S len) (c :: t)) at 2. rewrite line_feeds_app.
          assert (1 ≤ line_feeds (take (S len) (c :: t)))%nat; [|lia].
          apply line_feeds_elem. apply list_elem_of_lookup. exists len.
          rewrite lookup_take_lt by lia. done. }
        simpl in *. lia.
    + specialize (IH (S pos) 0%nat). rewrite drop_0 in IH.
      pose proof (matches_left_le t). unfold lines in *.
      change (matches_left (c :: t)) with (S (line_feeds (c :: t))).
      assert (line_feeds t ≤ line_feeds (c :: t))%nat.
      { change (c :: t) with ([c] ++ t). rewrite line_feeds_app. lia. }
      lia.
Qed.

Lemma matchAll_severity_bound (markers : list str) (s : str) :
  (length (matchAll (severity markers) s) ≤ lines s)%nat.
Proof.
  unfold matchAll. pose proof (severity_matches_bound markers s 0 0) as H.
  rewrite drop_0 in H. pose proof (matches_left_le s). lia.
Qed.
End ParserCounts.

Section ParserLevels.
Import AgentSandbox.
Variable toLowerCase : str → str.
Variable this : AgentSandbox.t.

Lemma issues_of_level_app (level : str) (a b : list Issue.t) :
  issues_of_level level (a ++ b)
  = issues_of_level level a ++ issues_of_level level b.
Proof. unfold issues_of_level. apply List.filter_app. Qed.

Lemma issues_of_level_take (level : str) (n : nat) (l : list Issue.t) :
  (length (issues_of_level level (take n l))
   ≤ length (issues_of_level level l))%nat.
Proof.
  rewrite <- (take_drop n l) at 2. rewrite issues_of_level_app, length_app. lia.
Qed.

Lemma group_level (level : str) (pattern : regex) (output : str) :
  Forall (fun issue => Issue.level issue = level) (group toLowerCase this level pattern output).
Proof. unfold group. apply Forall_map. by apply Forall_true. Qed.

Lemma group_of_level (level level' : str) (pattern : regex) (output : str) :
  issues_of_level level' (group toLowerCase this level pattern output)
  = if eqb_str level level' then group toLowerCase this level pattern output else [].
Proof.
  pose proof (group_level level pattern output) as H.
  unfold issues_of_level. induction H as [|issue g Hi _ IH]; simpl.
  - by destruct (eqb_str level level').
  - rewrite Hi, IH. by destruct (eqb_str level level').
Qed.

Lemma group_length (level : str) (markers : list str) (output : str) :
  (length (group toLowerCase this level (severity markers) output)
   ≤ Nat.min 100 (lines output))%nat.
Proof.
  unfold group. rewrite length_map, length_take.
  pose proof (matchAll_severity_bound markers output). lia.
Qed.

Lemma lines_scanned_text (output : str) :
  (lines (scanned_text output) ≤ lines output)%nat.
Proof.
  unfold scanned_text, lines. destruct (_ <? _)%N; [|lia].
  pose proof (line_feeds_take (N.to_nat (1024 * 1024)) output). lia.
Qed.

Lemma parseAgentOutput_unfold (output : str) :
  output ≠ [] →
  parseAgentOutput toLowerCase this output
  = take 1000
      (flat_map (fun '(level, pattern) => group toLowerCase this level pattern (scanned_text output))
                patterns).
Proof. intros H. unfold parseAgentOutput. by destruct output. Qed.

(** C9 (as amended): [parseAgentOutput] recognises five severity
    classes, so every issue it returns has a level among critical,
    error, warning, info and suggestion; of each level it returns at
    most 100 issues and at most as many as the text has lines (a match
    of a class uses up the line it ends in); at most 500 issues in
    all. *)
Theorem parseAgentOutput_bounds (output : str) :
  let issues := parseAgentOutput toLowerCase this output in
  Forall (fun issue => Issue.level issue ∈ parser_levels) issues
  ∧ (∀ level, (length (issues_of_level level issues)
               ≤ Nat.min 100 (lines output))%nat)
  ∧ (length issues ≤ 500)%nat.
Proof.
  destruct (decide (output = [])) as [->|Hne].
  { simpl. split; [constructor|]. split; [intros; simpl; lia | simpl; lia]. }
  cbv zeta. rewrite parseAgentOutput_unfold by done.
  set (s := scanned_text output).
  pose proof (lines_scanned_text output) as Hs. fold s in Hs.
  unfold patterns. cbn [flat_map]. rewrite app_nil_r.
  split; [|split].
  - apply Forall_take. rewrite !Forall_app.
    repeat split;
      (eapply Forall_impl; [apply group_level|]; simpl; intros ? ->;
       unfold parser_levels, patterns; cbn [map fst]; rewrite !elem_of_cons; auto 10).
  - intros level. etrans; [apply issues_of_level_take|].
    rewrite !issues_of_level_app, !length_app, !group_of_level.
    pose proof (fun l m => group_length l m s) as Hg.
    unfold eqb_str.
    repeat case_bool_decide; subst; try discriminate;
      repeat match goal with
             | |- context [length (group toLowerCase this ?l (severity ?m) s)] =>
                 pose proof (Hg l m); generalize dependent (length (group toLowerCase this l (severity m) s));
                 intros
             end; cbn [length]; lia.
  - rewrite length_take, !length_app.
    pose proof (fun l m => group_length l m s) as Hg.
    repeat match goal with
           | |- context [length (group toLowerCase this ?l (severity ?m) s)] =>
               pose proof (Hg l m); generalize dependent (length (group toLowerCase this l (severity m) s));
               intros
           end; lia.
Qed.
End ParserLevels.

(** C9 (as stated) fails: a line carrying the red-circle marker yields
    two issues, one of level critical and one of level error; critical
    is none of the four levels of the specification. *)
Lemma red_circle_line_yields_two_issues :
  ¬ (∀ output,
       Forall (fun issue => Issue.level issue ∈ spec_levels)
              (AgentSandbox.parseAgentOutput ascii_lower sec_sandbox output))
  ∧ ¬ (∀ output,
         (length (AgentSandbox.parseAgentOutput ascii_lower sec_sandbox output)
          ≤ lines output)%nat).
Proof.
  split; intros H; specialize (H (AgentSandbox.red_circle ++ lit ": leak")).
  - vm_compute in H. apply Forall_cons_1 in H as [H _].
    repeat (apply elem_of_cons in H as [H|H]; [discriminate H|]).
    by apply elem_of_nil in H.
  - vm_compute in H. lia.
Qed.

(** ** [escapeHtml] *)

Section EscapeHtml.
Import SecurityUtils.

Lemma replace_from_special (pos : nat) (s : str) :
  replace_from (Chr html_special) html_entity pos s 0 = flat_map escape_unit s.
Proof.
  revert pos. induction s as [|c s IH]; intros pos; [done|].
  cbn [replace_from flat_map]. unfold match_at, escape_unit. cbn [run].
  destruct (html_special c); cbn [m_len].
  - replace (S pos - pos)%nat with 1%nat by lia. cbn [take]. by rewrite IH.
  - by rewrite IH.
Qed.

Lemma escapeHtml_flat_map (text : str) :
  escapeHtml text = flat_map escape_unit text.
Proof. apply replace_from_special. Qed.

Lemma escape_unit_special (c : char) :
  html_special c = true → ∃ rest, escape_unit c = 38 :: rest ∧ rest ≠ [].
Proof.
  intros H. unfold escape_unit. rewrite H. unfold html_special, one_of in H.
  simpl in H. rewrite !orb_true_iff in H.
  destruct H as [H|[H|[H|[H|[H|H]]]]]; try done;
    apply N.eqb_eq in H; subst c; eexists; (split; [reflexivity | done]).
Qed.

Lemma escapeHtml_clean (text : str) :
  Forall (fun c => html_special c = false) text → escapeHtml text = text.
Proof.
  rewrite escapeHtml_flat_map. induction 1 as [|c text Hc _ IH]; [done|].
  simpl. unfold escape_unit at 1. by rewrite Hc, IH.
Qed.

Lemma escapeHtml_length (text : str) :
  (length text ≤ length (escapeHtml text))%nat
  ∧ (Exists (fun c => html_special c = true) text →
     (length text < length (escapeHtml text))%nat).
Proof.
  rewrite escapeHtml_flat_map. induction text as [|c text [IH1 IH2]].
  - split; [done|]. by intros ?%Exists_nil.
  - simpl. rewrite length_app. unfold escape_unit at 1 3.
    destruct (html_special c) eqn:Hc.
    + destruct (escape_unit_special c Hc) as (rest & Hr & Hne).
      unfold escape_unit in Hr. rewrite Hc in Hr. rewrite Hr.
      destruct rest; [done|]. simpl. split; intros; lia.
    + simpl. split; [lia|]. intros [?|?]%Exists_cons; [congruence|].
      apply IH2 in H. lia.
Qed.

Lemma escapeHtml_keeps_special (text : str) :
  Exists (fun c => html_special c = true) text →
  Exists (fun c => html_special c = true) (escapeHtml text).
Proof.
  rewrite escapeHtml_flat_map. induction 1 as [c text Hc|c text _ IH]; simpl.
  - destruct (escape_unit_special c Hc) as (rest & -> & _).
    simpl. by apply Exists_cons_hd.
  - apply Exists_app. by right.
Qed.

(** HTML escaping is idempotent exactly on the texts that contain none
    of the five special characters, which it leaves unchanged; escaping
    any other text a second time makes it longer. *)
Lemma escapeHtml_idempotent_cases (text : str) :
  (escapeHtml (escapeHtml text) = escapeHtml text
   ↔ Forall (fun c => html_special c = false) text)
  ∧ (Forall (fun c => html_special c = false) text → escapeHtml text = text)
  ∧ (Exists (fun c => html_special c = true) text →
     (length (escapeHtml text) < length (escapeHtml (escapeHtml text)))%nat).
Proof.
  assert (Exists (fun c => html_special c = true) text →
          (length (escapeHtml text) < length (escapeHtml (escapeHtml text)))%nat)
    as Hgrow.
  { intros H. by apply escapeHtml_length, escapeHtml_keeps_special. }
  split; [|split; [apply escapeHtml_clean | done]].
  split.
  - intros Heq. apply Forall_forall. intros c Hin.
    destruct (html_special c) eqn:Hc; [|done]. exfalso.
    assert (Exists (fun c => html_special c = true) text) as Hex.
    { apply Exists_exists. eauto. }
    apply Hgrow in Hex. rewrite Heq in Hex. lia.
  - intros H. by rewrite !(escapeHtml_clean text H).
Qed.
End EscapeHtml.

(** C5 (as stated) fails: escaping an ampersand twice differs from
    escaping it once. *)
Lemma escapeHtml_twice_differs :
  ¬ (∀ x, SecurityUtils.escapeHtml (SecurityUtils.escapeHtml x)
          = SecurityUtils.escapeHtml x).
Proof. intros H. specialize (H (lit "&")). vm_compute in H. discriminate H. Qed.

(** ** An absolute working directory *)

Section AbsoluteCwd.

(** A greedy repetition whose minimum is reached succeeds as soon as
    its continuation cannot fail. *)
Lemma rep_greedy_total {R} p lo hi (k : @cont R) :
  (∀ pos t cs, is_Some (k pos t cs)) →
  ∀ t n pos cs, (lo ≤ n)%nat → is_Some (rep_greedy p lo hi n pos t cs k).
Proof.
  intros Hk. induction t as [|c t IH]; intros n pos cs Hn; simpl.
  - apply Nat.leb_le in Hn. rewrite Hn. apply Hk.
  - assert (Nat.leb lo n = true) as -> by by apply Nat.leb_le.
    destruct (p c && below n hi); [|apply Hk].
    destruct (IH (S n) (S pos) cs) as [x ->]; [lia | eauto].
Qed.

Lemma test_pat_abs_unix (path : str) :
  Path.isAbsolute path = true → test SecurityUtils.pat_abs_unix path = true.
Proof.
  destruct path as [|c path]; [done|]. simpl. intros Hc.
  apply (test_app _ []). unfold match_at, SecurityUtils.pat_abs_unix, Plus.
  cbn [run length Nat.eqb rep_greedy]. unfold chr_eq. rewrite Hc. cbn [andb below].
  destruct (rep_greedy_total (fun c => c =? 47) 1 None
              (fun pos' _ cs => Some (MkMatch (pos' - 0) cs))
              ltac:(eauto) path 1 1 [] ltac:(lia)) as [x ->].
  eauto.
Qed.

(** With an absolute working directory, as [process.cwd()] always is
    on POSIX, [validatePath(cwd)] refuses the directory itself, so
    [executeCommand] throws before spawning, whatever the command. *)
Lemma executeCommand_absolute_cwd (command : str) (args : list str)
    (timeout : option Z) (w : World) :
  Path.isAbsolute (process_cwd w) = true →
  ∃ msg, executeCommand command args timeout w = (Throw (Error msg), w).
Proof.
  intros Habs. unfold executeCommand, mbind, M_bind, gets.
  destruct (negb _); [by eexists|].
  unfold try_catch, lift.
  destruct (validatePath_dangerous (process_cwd w) (process_cwd w) None)
    as [msg ->]; [|by eexists].
  apply (dangerous_of_pattern SecurityUtils.pat_abs_unix).
  - do 2 apply list_elem_of_further. apply list_elem_of_here.
  - by apply test_pat_abs_unix.
Qed.
End AbsoluteCwd.

(** ** The JSON copy *)

Section JsonCopy.
Import ResultCache.

Lemma jsval_nested_ind (P : jsval → Prop) :
  P JUndefined → P JNull → (∀ b, P (JBool b)) → (∀ z, P (JNum z)) →
  (∀ s, P (JStr s)) →
  (∀ l, Forall P l → P (JArr l)) →
  (∀ props, Forall (fun p => P (snd p)) props → P (JObj props)) →
  ∀ v, P v.
Proof.
  intros Hu Hn Hb Hz Hs Ha Ho. fix IH 1. intros [| |b|z|s|l|props].
  - exact Hu.
  - exact Hn.
  - apply Hb.
  - apply Hz.
  - apply Hs.
  - apply Ha. revert l. fix IHl 1. intros [|x l].
    + constructor.
    + constructor; [apply IH | apply IHl].
  - apply Ho. revert props. fix IHl 1. intros [|[k x] props].
    + constructor.
    + constructor; [apply IH | apply IHl].
Qed.

(** The copy of a value without [undefined] is deep-equal to it. *)
Lemma json_copy_id (v : jsval) : no_undefined v = true → json_copy v = v.
Proof.
  induction v as [| |b|z|s|l IH|props IH] using jsval_nested_ind;
    intros Hv; try done.
  - cbn [json_copy]. f_equal. cbn [no_undefined] in Hv.
    induction IH as [|x l Hx _ IHl]; [done|].
    cbn [forallb] in Hv. apply andb_true_iff in Hv as [Hvx Hvl].
    cbn [map]. rewrite IHl by done. f_equal.
    destruct x; try done; by rewrite Hx.
  - cbn [json_copy]. f_equal. cbn [no_undefined] in Hv.
    induction IH as [|[k x] props Hx _ IHl]; [done|].
    cbn [forallb snd] in Hv. apply andb_true_iff in Hv as [Hvx Hvl].
    rewrite IHl by done. simpl in Hx. f_equal.
    destruct x; try done; by rewrite Hx.
Qed.
End JsonCopy.

(** ** Shapes: basic facts *)

Lemma span_le p (t : str) : (span p t ≤ length t)%nat.
Proof. induction t as [|c t IH]; simpl; [lia|]. destruct (p c); simpl; lia. Qed.

Lemma span_end p (t : str) : head_in p (drop (span p t) t) = false.
Proof.
  induction t as [|c t IH]; simpl; [done|].
  destruct (p c) eqn:E; simpl; [done|]. by rewrite E.
Qed.

Lemma span_head p (t : str) : head_in p t = false → span p t = 0%nat.
Proof. destruct t as [|c t]; simpl; [done|]. by intros ->. Qed.

Lemma span_app_all p (u r : str) :
  forallb p u = true → span p (u ++ r) = (length u + span p r)%nat.
Proof.
  induction u as [|c u IH]; simpl; [done|].
  intros [-> H]%andb_true_iff. by rewrite IH.
Qed.

Lemma span_app_short p (u r : str) :
  (span p u < length u)%nat → span p (u ++ r) = span p u.
Proof.
  induction u as [|c u IH]; simpl; [lia|].
  destruct (p c); [|done]. intros H. rewrite IH; [done|lia].
Qed.

Lemma tail_len_le (sh : shape) (t : str) n :
  tail_len sh t = Some n → (0 < n ≤ length t)%nat.
Proof.
  unfold tail_len.
  pose proof (span_le (sep sh) t) as H1.
  set (a := span (sep sh) t) in *.
  set (q := if head_in (quo sh) (drop a t) then 1%nat else 0%nat).
  pose proof (span_le (val sh) (drop q (drop a t))) as H2.
  assert (q ≤ length (drop a t))%nat as H3.
  { unfold q. destruct (drop a t); simpl; [lia|]. destruct (quo sh _); simpl; lia. }
  rewrite !length_drop in *.
  destruct (span (val sh) _); [done|]. intros [= <-]. lia.
Qed.

Lemma tail_len_end (sh : shape) (t : str) n :
  tail_len sh t = Some n → head_in (val sh) (drop n t) = false.
Proof.
  unfold tail_len.
  set (a := span (sep sh) t).
  set (q := if head_in (quo sh) (drop a t) then 1%nat else 0%nat).
  pose proof (span_end (val sh) (drop q (drop a t))) as H.
  destruct (span (val sh) _) as [|k] eqn:E; [done|]. intros [= <-].
  rewrite !drop_drop in H. by replace (a + q + S k)%nat with (a + (q + S k))%nat by lia.
Qed.

Lemma tailb_cons (sh : shape) c (t : str) :
  tailb sh (c :: t)
  = if sep sh c then tailb sh t
    else if quo sh c then head_in (val sh) t else val sh c.
Proof.
  unfold tailb, tail_len. cbn [span]. destruct (sep sh c); cbn [drop].
  - by destruct (span (val sh) _).
  - rewrite ?drop_0. cbn [head_in]. destruct (quo sh c); cbn [drop].
    + rewrite ?drop_0. destruct t as [|c' t]; simpl; [done|]. by destruct (val sh c').
    + rewrite ?drop_0. simpl. by destruct (val sh c).
Qed.

Lemma tailb_nil (sh : shape) : tailb sh [] = false.
Proof. done. Qed.

Lemma has_prefix_length ci (l t : str) :
  has_prefix ci l t = true → (length l ≤ length t)%nat.
Proof.
  revert t. induction l as [|a l IH]; intros [|c t]; simpl; try done; try lia.
  intros [_ H]%andb_true_iff. apply IH in H. lia.
Qed.

Lemma has_prefix_take ci (l t : str) :
  has_prefix ci l (take (length l) t) = has_prefix ci l t.
Proof.
  revert t. induction l as [|a l IH]; intros [|c t]; simpl; try done.
  by rewrite IH.
Qed.

Lemma has_prefix_split ci (l a z : str) :
  has_prefix ci l (a ++ z) = true → (length a ≤ length l)%nat →
  has_prefix ci (take (length a) l) a = true
  ∧ has_prefix ci (drop (length a) l) z = true.
Proof.
  revert l. induction a as [|c a IH]; intros l; simpl.
  - intros H _. by rewrite ?take_0, ?drop_0.
  - destruct l as [|x l]; simpl; [lia|].
    intros [-> H]%andb_true_iff Hl. apply IH in H; [|lia]. by destruct H as [-> ->].
Qed.

Lemma has_prefix_meets ci (l w y : str) :
  has_prefix ci l (w ++ y) = true → meets ci l w = true.
Proof.
  revert w. induction l as [|a l IH]; intros [|c w]; simpl; try done.
  intros [-> H]%andb_true_iff. by apply IH in H.
Qed.

Lemma has_prefix_exact (l t : str) :
  has_prefix false l t = true → t = l ++ drop (length l) t.
Proof.
  revert t. induction l as [|a l IH]; intros [|c t]; simpl; try done.
  intros [H1 H2]%andb_true_iff. apply N.eqb_eq in H1. subst c.
  f_equal. by apply IH.
Qed.

Lemma has_prefix_exact_app (l r : str) : has_prefix false l (l ++ r) = true.
Proof.
  induction l as [|a l IH]; simpl; [done|].
  unfold chr_eq. by rewrite N.eqb_refl.
Qed.

(** The shape matcher, by cases. *)
Lemma mt_lits_Some (sh : shape) ls (t : str) n :
  mt_lits sh ls t = Some n →
  ∃ l k, l ∈ ls ∧ has_prefix (ci sh) l t = true
         ∧ tail_len sh (drop (length l) t) = Some k ∧ n = (length l + k)%nat.
Proof.
  induction ls as [|l ls IH]; simpl; [done|].
  destruct (has_prefix (ci sh) l t) eqn:E1.
  - destruct (tail_len sh _) as [k|] eqn:E2.
    + intros [= <-]. exists l, k. rewrite elem_of_cons. auto.
    + intros (l' & k & ? & ?)%IH. exists l', k. rewrite elem_of_cons. auto.
  - intros (l' & k & ? & ?)%IH. exists l', k. rewrite elem_of_cons. auto.
Qed.

Lemma mt_lits_None (sh : shape) ls (t : str) l :
  mt_lits sh ls t = None → l ∈ ls → has_prefix (ci sh) l t = true →
  tailb sh (drop (length l) t) = false.
Proof.
  unfold tailb. induction ls as [|l' ls IH]; simpl.
  - by intros _ ?%elem_of_nil.
  - intros H [->|Hin]%elem_of_cons Hp.
    + rewrite Hp in H. revert H. by destruct (tail_len sh _); [intros [=]|].
    + apply IH; [|assumption|assumption]. revert H.
      destruct (has_prefix (ci sh) l' t); [|by simpl].
      by destruct (tail_len sh (drop (length l') t)); [intros [=]|].
Qed.

Lemma mt_Some (sh : shape) (t : str) n :
  mt sh t = Some n →
  ∃ l k, l ∈ lits sh ∧ has_prefix (ci sh) l t = true
         ∧ tail_len sh (drop (length l) t) = Some k ∧ n = (length l + k)%nat.
Proof. apply mt_lits_Some. Qed.

Lemma mt_None (sh : shape) (t : str) l :
  mt sh t = None → l ∈ lits sh → has_prefix (ci sh) l t = true →
  tailb sh (drop (length l) t) = false.
Proof. apply mt_lits_None. Qed.

Lemma mt_bounds (sh : shape) (t : str) n :
  mt sh t = Some n → (0 < n ≤ length t)%nat.
Proof.
  intros (l & k & _ & Hp & Ht & ->)%mt_Some.
  apply tail_len_le in Ht. apply has_prefix_length in Hp.
  rewrite length_drop in Ht. lia.
Qed.

Lemma mt_nil (sh : shape) : mt sh [] = None.
Proof.
  destruct (mt sh []) as [n|] eqn:E; [|done].
  apply mt_bounds in E. simpl in E. lia.
Qed.

Lemma mt_end (sh : shape) (t : str) n :
  mt sh t = Some n → head_in (val sh) (drop n t) = false.
Proof.
  intros (l & k & _ & Hp & Ht & ->)%mt_Some.
  apply tail_len_end in Ht. by rewrite drop_drop in Ht.
Qed.

(** ** The scan of one replacement *)

Section Scan.
Variables (J : shape) (RJ : str).

Lemma out_nil : replace_shape J RJ [] = [].
Proof. unfold replace_shape. cbn [replace_shape_from]. by rewrite mt_nil. Qed.

Lemma replace_shape_from_drop (t : str) skip :
  replace_shape_from J RJ t skip = replace_shape J RJ (drop skip t).
Proof.
  revert skip. induction t as [|c t IH]; intros [|n]; try done.
  - cbn [drop replace_shape_from]. by rewrite out_nil.
  - cbn [drop replace_shape_from]. apply IH.
Qed.

Lemma out_hit (t : str) n : mt J t = Some n → replace_shape J RJ t = RJ ++ replace_shape J RJ (drop n t).
Proof.
  intros H. pose proof (mt_bounds _ _ _ H) as Hn.
  destruct t as [|c t]; [simpl in Hn; lia|].
  unfold replace_shape at 1. simpl. rewrite H.
  destruct n as [|n]; [lia|]. by rewrite replace_shape_from_drop.
Qed.

Lemma out_miss c (t : str) : mt J (c :: t) = None → replace_shape J RJ (c :: t) = c :: replace_shape J RJ t.
Proof. intros H. unfold replace_shape at 1. simpl. by rewrite H. Qed.

Lemma scan_ind (P : str → Prop) :
  P [] →
  (∀ c t, mt J (c :: t) = None → P t → P (c :: t)) →
  (∀ t n, mt J t = Some n → P (drop n t) → P t) →
  ∀ t, P t.
Proof.
  intros Hnil Hmiss Hhit t.
  remember (length t) as m eqn:Hm. revert t Hm.
  induction m as [m IH] using lt_wf_ind. intros t ->.
  destruct t as [|c t]; [done|].
  destruct (mt J (c :: t)) as [n|] eqn:E.
  - apply (Hhit _ n E). pose proof (mt_bounds _ _ _ E) as Hn.
    apply (IH (length (drop n (c :: t)))); [|done].
    rewrite length_drop. simpl in *. lia.
  - apply Hmiss; [done|]. apply (IH (length t)); [simpl; lia|done].
Qed.

(** A scan without matches changes nothing. *)
Lemma out_fixed (t : str) : Inv J RJ t → replace_shape J RJ t = t.
Proof.
  induction t as [| c t Hc IH | t n Hn IH] using scan_ind; intros HI.
  - apply out_nil.
  - rewrite out_miss by done. f_equal. apply IH.
    intros z Hz. apply HI. by apply suffix_cons_r.
  - rewrite out_hit with (n := n) by done.
    rewrite IH.
    + rewrite <- (HI t (reflexivity _) n Hn). apply take_drop.
    + intros z Hz. apply HI. etrans; [done|]. apply suffix_drop.
Qed.
End Scan.

(** ** What a scan keeps of the text *)

Lemma variants_spec ci a c : unit_eq ci a c = true → In c (variants ci a).
Proof.
  destruct ci; simpl.
  - unfold chr_eqi. intros H%N.eqb_eq.
    unfold ascii_upper in *. destruct (is_lower c) eqn:Ec.
    + destruct (is_lower a) eqn:Ea.
      * left. unfold is_lower, in_range in *.
        apply andb_true_iff in Ec as [Ec _]. apply andb_true_iff in Ea as [Ea _].
        apply N.leb_le in Ec, Ea. lia.
      * right. right. left. unfold is_lower, is_upper, in_range in *.
        apply andb_true_iff in Ec as [Ec Ec']. apply N.leb_le in Ec, Ec'.
        destruct (N.leb_spec 65 a), (N.leb_spec a 90); simpl; lia.
    + right. left. by rewrite H.
  - unfold chr_eq. intros H%N.eqb_eq. by left.
Qed.

Lemma seq_In_iff (from len i : nat) : In i (seq from len) ↔ (from ≤ i < from + len)%nat.
Proof. apply in_seq. Qed.

Section Head.
Variable (J : stage).
Hypothesis Hspelled : spelled (stage_shape J) = true.
Hypothesis Hby : negb (Nat.eqb (length (stage_by J)) 0) = true.

Lemma hit_starts (t : str) n :
  mt (stage_shape J) t = Some n →
  ∃ c t', t = c :: t' ∧ In c (starts (stage_shape J)).
Proof using Hspelled.
  intros (l & k & Hl & Hp & _)%mt_Some.
  apply list_elem_of_In in Hl.
  pose proof (proj1 (forallb_forall _ _) Hspelled l Hl) as Hne.
  destruct l as [|a l]; [done|]. destruct t as [|c t]; [done|].
  simpl in Hp. apply andb_true_iff in Hp as [Hp _].
  exists c, t. split; [done|]. unfold starts. apply in_flat_map.
  exists (a :: l). split; [done|]. by apply variants_spec.
Qed.

Lemma by_head p (y : str) : head_in p (stage_by J ++ y) = head_in p (stage_by J).
Proof using Hby. destruct (stage_by J); [done|done]. Qed.

(** A class that [same_class] accepts sees the same first unit before
    and after the scan. *)
Lemma out_head p (t : str) :
  same_class J p = true → head_in p (run_stage J t) = head_in p t.
Proof using Hspelled Hby.
  intros Hp. unfold run_stage. destruct t as [|c t]; [by rewrite out_nil|].
  destruct (mt (stage_shape J) (c :: t)) as [n|] eqn:E.
  - rewrite (out_hit _ _ _ _ E), by_head.
    destruct (hit_starts _ _ E) as (c' & t' & [= <- <-] & Hc).
    pose proof (proj1 (forallb_forall _ _) Hp c Hc) as Hq.
    apply eqb_prop in Hq. by rewrite <- Hq.
  - by rewrite out_miss.
Qed.

(** A keyword read in the output either was read in the input, unit
    for unit, or runs into a replacement. *)
Lemma walk ci (l t : str) :
  has_prefix ci l (run_stage J t) = true →
  ((length l ≤ length t)%nat
   ∧ run_stage J t = take (length l) t ++ run_stage J (drop (length l) t))
  ∨ (∃ i n, (i < length l)%nat ∧ (i ≤ length t)%nat
            ∧ mt (stage_shape J) (drop i t) = Some n
            ∧ run_stage J t
              = take i t ++ stage_by J ++ run_stage J (drop n (drop i t))).
Proof.
  unfold run_stage. revert t. induction l as [|a l IH]; intros t Hp.
  - left. split; [simpl; lia|done].
  - destruct (mt (stage_shape J) t) as [n|] eqn:E.
    { right. exists 0%nat, n. rewrite drop_0. simpl.
      split; [lia|]. split; [lia|]. split; [done|]. by apply out_hit. }
    destruct t as [|c t]; [by rewrite out_nil in Hp|].
    rewrite out_miss in Hp |- * by done.
    simpl in Hp. apply andb_true_iff in Hp as [_ Hp].
    destruct (IH t Hp) as [[Hl Ho]|(i & n & Hi & Hit & Hm & Ho)].
    + left. simpl. split; [lia|]. by rewrite Ho at 1.
    + right. exists (S i), n. simpl.
      split; [lia|]. split; [lia|]. split; [done|]. by rewrite Ho at 1.
Qed.
End Head.

Lemma suffix_cons_cases (z : str) c (y : str) :
  z `suffix_of` c :: y → z = c :: y ∨ z `suffix_of` y.
Proof.
  intros [[|x g] Hg]; simpl in Hg; [by left|].
  injection Hg as -> ->. right. by exists g.
Qed.

Lemma suffix_app_cases (z r y : str) :
  z `suffix_of` r ++ y →
  z `suffix_of` y ∨ ∃ o, (o < length r)%nat ∧ z = drop o r ++ y.
Proof.
  induction r as [|c r IH]; simpl; [by left|].
  intros [->|H]%suffix_cons_cases.
  - right. exists 0%nat. split; [lia|done].
  - destruct (IH H) as [?|(o & Ho & ->)]; [by left|].
    right. exists (S o). split; [lia|done].
Qed.

Lemma has_prefix_take_ge ci (l z : str) n :
  (length l ≤ n)%nat → has_prefix ci l (take n z) = has_prefix ci l z.
Proof.
  intros Hn. rewrite <- (has_prefix_take ci l (take n z)), take_take.
  rewrite Nat.min_l by done. apply has_prefix_take.
Qed.

Lemma forallb_In {A} (f : A → bool) (l : list A) x :
  forallb f l = true → In x l → f x = true.
Proof. intros H. by apply forallb_forall. Qed.

(** ** A credential stage under a scan *)

Section Redact.
Variables (I : shape) (RI : str) (J : stage).
Hypothesis Hok : redact_ok I RI J = true.

Lemma redact_ok_parts :
  spelled (stage_shape J) = true
  ∧ negb (Nat.eqb (length (stage_by J)) 0) = true
  ∧ forallb (fun l => negb (has_prefix (ci I) l RI)) (lits I) = true
  ∧ same_class J (sep I) = true ∧ same_class J (quo I) = true
  ∧ same_class J (val I) = true
  ∧ head_in (sep I) (stage_by J) = false
  ∧ head_in (quo I) (stage_by J) = false
  ∧ no_straddle (ci I) (lits I) (stage_by J) = true
  ∧ not_within (ci I) (lits I) (stage_by J) 0 = true.
Proof using Hok.
  unfold redact_ok in Hok.
  repeat match type of Hok with
         | _ && _ = true => apply andb_true_iff in Hok; destruct Hok as [Hok ?]
         end.
  repeat match goal with
         | H : negb _ = true |- _ => apply negb_true_iff in H
         end.
  rewrite !negb_true_iff. tauto.
Qed.

Lemma good_nohit (z : str) : Good I RI z → mt I z = None.
Proof using Hok.
  destruct redact_ok_parts as (_ & _ & H0 & _).
  intros Hg. destruct (mt I z) as [n|] eqn:E; [|done].
  specialize (Hg n E).
  apply mt_Some in E as (l & k & Hl & Hp & _ & ->).
  apply list_elem_of_In in Hl.
  pose proof (forallb_In _ _ _ H0 Hl) as Hn. apply negb_true_iff in Hn.
  rewrite <- Hg, has_prefix_take_ge in Hn by lia. congruence.
Qed.

Lemma tailb_out (t : str) : tailb I (run_stage J t) = true → tailb I t = true.
Proof using Hok.
  destruct redact_ok_parts as (Hs & Hb & _ & Hsep & Hquo & Hval & Hs0 & Hq0 & _).
  induction t as [|c t IH].
  - unfold run_stage. by rewrite out_nil.
  - destruct (mt (stage_shape J) (c :: t)) as [n|] eqn:E.
    + pose proof (out_head J Hs Hb _ (c :: t) Hsep) as H1.
      pose proof (out_head J Hs Hb _ (c :: t) Hquo) as H2.
      pose proof (out_head J Hs Hb _ (c :: t) Hval) as H3.
      unfold run_stage in *. rewrite (out_hit _ _ _ _ E) in *.
      rewrite (by_head J Hb) in H1, H2, H3. rewrite Hs0 in H1. rewrite Hq0 in H2.
      destruct (stage_by J) as [|r R']; [done|].
      cbn [app]. rewrite !tailb_cons. cbn [head_in] in *.
      by rewrite Hs0, Hq0, <- H1, <- H2, H3.
    + unfold run_stage in *. rewrite out_miss by done.
      rewrite !tailb_cons. destruct (sep I c); [done|].
      destruct (quo I c); [|done].
      pose proof (out_head J Hs Hb _ t Hval) as H.
      unfold run_stage in H. by rewrite H.
Qed.

(** No match of [I] in the output, when there was none in the input
    at the places the scan copies. *)
Lemma redact_scan (t : str) :
  (∀ t', t' `suffix_of` t → mt (stage_shape J) t' = None → Good I RI t') →
  ∀ z, z `suffix_of` run_stage J t → mt I z = None.
Proof using Hok.
  destruct redact_ok_parts as (Hs & Hb & _ & _ & _ & _ & _ & _ & Hst & Hin).
  unfold run_stage.
  induction t as [| c t Hc IH | t n Hn IH] using (scan_ind (stage_shape J));
    intros Hgap z Hz.
  - rewrite out_nil in Hz. apply suffix_nil_inv in Hz as ->. apply mt_nil.
  - rewrite out_miss in Hz by done.
    apply suffix_cons_cases in Hz as [->|Hz]; cycle 1.
    { apply IH; [|done]. intros t' Ht'. apply Hgap. by apply suffix_cons_r. }
    rewrite <- out_miss by done.
    destruct (mt I (replace_shape _ _ (c :: t))) as [k|] eqn:E; [|done]. exfalso.
    apply mt_Some in E as (l & k' & Hl & Hp & Ht & _).
    pose proof (good_nohit _ (Hgap (c :: t) (reflexivity _) Hc)) as Hno.
    destruct (walk J _ _ _ Hp) as [[Hlen Ho]|(i & n & Hi & Hit & Hm & Ho)].
    + unfold run_stage in Ho. rewrite Ho in Hp, Ht.
      rewrite drop_app_length' in Ht by (rewrite length_take; lia).
      assert (has_prefix (ci I) l (c :: t) = true) as Hp'.
      { rewrite <- has_prefix_take. rewrite <- has_prefix_take in Hp.
        rewrite take_app_length' in Hp by (rewrite length_take; lia). done. }
      pose proof (mt_None _ _ _ Hno Hl Hp') as Hf.
      rewrite tailb_out in Hf; [done|].
      unfold run_stage, tailb. by rewrite Ht.
    + destruct i as [|i]; [rewrite drop_0 in Hm; congruence|].
      unfold run_stage in Ho. rewrite Ho in Hp.
      apply has_prefix_split in Hp as [_ Hp]; [|rewrite length_take; lia].
      rewrite length_take, Nat.min_l in Hp by lia.
      apply has_prefix_meets in Hp.
      apply list_elem_of_In in Hl.
      pose proof (forallb_In _ _ _ Hst Hl) as H1. cbv beta in H1.
      assert (In (S i) (seq 1 (length l - 1))) as H2 by (apply in_seq; lia).
      pose proof (forallb_In _ _ _ H1 H2) as H3. cbv beta in H3.
      apply negb_true_iff in H3. congruence.
  - rewrite (out_hit _ _ _ _ Hn) in Hz.
    apply suffix_app_cases in Hz as [Hz|(o & Ho & ->)].
    { apply IH; [|done]. intros t' Ht'. apply Hgap.
      etrans; [done|]. apply suffix_drop. }
    destruct (mt I _) as [k|] eqn:E; [|done]. exfalso.
    apply mt_Some in E as (l & k' & Hl & Hp & _).
    apply has_prefix_meets in Hp. apply list_elem_of_In in Hl.
    pose proof (forallb_In _ _ _ Hin Hl) as H1. cbv beta in H1.
    assert (In o (seq 0 (length (stage_by J) - 0))) as H2 by (apply in_seq; lia).
    pose proof (forallb_In _ _ _ H1 H2) as H3. cbv beta in H3.
    apply negb_true_iff in H3. congruence.
Qed.

Lemma redact_step (t : str) :
  (∀ t', t' `suffix_of` t → mt (stage_shape J) t' = None → Good I RI t') →
  Inv I RI (run_stage J t).
Proof using Hok.
  intros Hgap z Hz n Hn. by rewrite (redact_scan t Hgap z Hz) in Hn.
Qed.
End Redact.

(** ** A path stage under a scan *)

Lemma span_never (t : str) : span never t = 0%nat.
Proof. by destruct t. Qed.

Lemma head_in_never (t : str) : head_in never t = false.
Proof. by destruct t. Qed.

Lemma tail_len_path (literal : str) (value : char → bool) (t : str) :
  tail_len (path_shape literal value) t
  = match span value t with O => None | S n => Some (S n) end.
Proof.
  unfold tail_len. cbn [path_shape sep quo val].
  rewrite span_never, drop_0, head_in_never, drop_0.
  by destruct (span value t).
Qed.

Lemma mt_path (literal : str) (value : char → bool) (z : str) :
  mt (path_shape literal value) z
  = if has_prefix false literal z
    then match span value (drop (length literal) z) with
         | O => None
         | S k => Some (length literal + S k)%nat
         end
    else None.
Proof.
  unfold mt. cbn [lits ci path_shape mt_lits].
  destruct (has_prefix false literal z); [|done].
  rewrite tail_len_path. by destruct (span value _).
Qed.

Lemma span_zero_head p (t : str) : span p t = 0%nat → head_in p t = false.
Proof. destruct t as [|c t]; simpl; [done|]. by destruct (p c). Qed.

Section Anonymise.
Variables (L : str) (V : char → bool) (U : str) (J : stage).
Hypothesis Hok : anonymise_ok L V U J.

Lemma anonymise_ok_parts :
  spelled (stage_shape J) = true
  ∧ negb (Nat.eqb (length (stage_by J)) 0) = true
  ∧ negb (Nat.eqb (length U) 0) = true
  ∧ forallb V U = true
  ∧ same_class J V = true
  ∧ not_within false [L] (stage_by J) 1 = true
  ∧ not_within (ci (stage_shape J)) (lits (stage_shape J)) U 0 = true.
Proof using Hok.
  destruct Hok as [H _].
  repeat match type of H with
         | _ && _ = true => apply andb_true_iff in H; destruct H as [H ?]
         end.
  tauto.
Qed.

Lemma good_fine (z : str) :
  Good (path_shape L V) (L ++ U) z → has_prefix false L z = true →
  fine V U (drop (length L) z).
Proof.
  intros Hg Hp. pose proof (Hg (length L + span V (drop (length L) z))%nat) as H.
  rewrite mt_path, Hp in H.
  destruct (span V (drop (length L) z)) as [|k] eqn:E; [by left|]. right.
  specialize (H eq_refl). rewrite (has_prefix_exact _ _ Hp) in H at 1.
  rewrite take_app_add' in H by done. rewrite E. by apply app_inv_head in H.
Qed.

Lemma fine_good (z : str) :
  (has_prefix false L z = true → fine V U (drop (length L) z)) →
  Good (path_shape L V) (L ++ U) z.
Proof.
  intros Hf n. rewrite mt_path. destruct (has_prefix false L z) eqn:Hp; [|done].
  specialize (Hf eq_refl).
  destruct (span V (drop (length L) z)) as [|k] eqn:E; [done|]. intros [= <-].
  destruct Hf as [Hf|Hf]; [congruence|]. rewrite E in Hf.
  rewrite (has_prefix_exact _ _ Hp) at 1.
  rewrite take_app_add' by done. by rewrite Hf.
Qed.

Lemma fine_user (y : str) : head_in V y = false → fine V U (U ++ y).
Proof using Hok.
  destruct anonymise_ok_parts as (_ & _ & _ & HU & _).
  intros Hy. right. rewrite span_app_all by done.
  rewrite (span_head _ _ Hy), Nat.add_0_r. by rewrite take_app_length.
Qed.

(** The scan copies a text in which no match of [J] starts. *)
Lemma out_clear (u r : str) :
  (∀ l o, In l (lits (stage_shape J)) → (o < length u)%nat →
          meets (ci (stage_shape J)) l (drop o u) = false) →
  run_stage J (u ++ r) = u ++ run_stage J r.
Proof.
  unfold run_stage. induction u as [|c u IH]; intros H; [done|].
  cbn [app]. rewrite out_miss.
  - f_equal. apply IH. intros l o Hl Ho.
    apply (H l (S o) Hl). simpl. lia.
  - destruct (mt _ (c :: u ++ r)) as [n|] eqn:E; [|done]. exfalso.
    apply mt_Some in E as (l & k & Hl & Hp & _).
    apply list_elem_of_In in Hl.
    apply (has_prefix_meets _ _ (c :: u)) in Hp.
    pose proof (H l 0%nat Hl) as H0. rewrite drop_0 in H0.
    rewrite H0 in Hp; [done|simpl; lia].
Qed.

Lemma fine_out (t : str) : fine V U t → fine V U (run_stage J t).
Proof using Hok.
  destruct anonymise_ok_parts as (Hs & Hb & _ & _ & HV & _ & HU).
  intros [H|H].
  - left. apply span_head. rewrite out_head by done. by apply span_zero_head.
  - pose proof (span_end V t) as Hr.
    pose proof (take_drop (span V t) t) as Ht. rewrite H in Ht.
    set (r := drop (span V t) t) in *. clearbody r. subst t.
    rewrite out_clear.
    + apply fine_user. by rewrite out_head.
    + intros l o Hl Ho.
      pose proof (forallb_In _ _ _ HU Hl) as H1. cbv beta in H1.
      assert (In o (seq 0 (length U - 0))) as H2 by (apply in_seq; lia).
      pose proof (forallb_In _ _ _ H1 H2) as H3. cbv beta in H3.
      by apply negb_true_iff in H3.
Qed.

Lemma has_prefix_same_length (a b : str) :
  has_prefix false a b = true → length b = length a → b = a.
Proof.
  intros Hp Hl. rewrite (has_prefix_exact _ _ Hp).
  rewrite drop_ge by lia. by rewrite app_nil_r.
Qed.

(** The keyword runs into a replacement. *)
Lemma anonymise_straddle (t : str) i n :
  (0 < i < length L)%nat → (i ≤ length t)%nat →
  mt (stage_shape J) t = None →
  Good (path_shape L V) (L ++ U) t →
  mt (stage_shape J) (drop i t) = Some n →
  has_prefix false L
    (take i t ++ stage_by J ++ run_stage J (drop n (drop i t))) = true →
  fine V U (drop (length L)
    (take i t ++ stage_by J ++ run_stage J (drop n (drop i t)))).
Proof using Hok.
  destruct anonymise_ok_parts as (Hs & Hb & _ & _ & HV & _).
  destruct Hok as (_ & Hst & _).
  intros Hi Hit Hmiss Hg Hm Hp.
  apply has_prefix_split in Hp as [Hp1 Hp2]; [|rewrite length_take; lia].
  rewrite length_take, Nat.min_l in Hp1, Hp2 by lia.
  apply has_prefix_same_length in Hp1;
    [|rewrite !length_take; lia].
  assert (In i (seq 1 (length L - 1))) as Hin by (apply in_seq; lia).
  pose proof (proj1 (Forall_forall _ _) Hst i (proj2 (list_elem_of_In _ _) Hin))
    as [H|[H|H]].
  - apply has_prefix_meets in Hp2. congruence.
  - exfalso. unfold straddle_shows in H.
    destruct J as [L' V' U'|]; [|done]. cbn [stage_shape stage_by] in *.
    apply andb_true_iff in H as [H1 H].
    apply andb_true_iff in H as [H H4].
    apply andb_true_iff in H as [H2 H3].
    apply Nat.ltb_lt in H2, H3. apply negb_true_iff in H4.
    unfold eqb_str in H4. apply bool_decide_eq_false in H4.
    rewrite mt_path in Hm.
    destruct (has_prefix false L' (drop i t)) eqn:E; [|done].
    apply has_prefix_exact in E. apply has_prefix_exact in H1.
    rewrite length_drop in H1.
    set (l2 := drop (length L - i) L') in *.
    assert (t = L ++ l2 ++ drop (length L') (drop i t)) as Ht.
    { rewrite <- (take_drop i t) at 1. rewrite Hp1, E, H1 at 1.
      rewrite <- !app_assoc. rewrite (app_assoc (take i L)), take_drop. done. }
    assert (has_prefix false L t = true) as HpL
      by (rewrite Ht; apply has_prefix_exact_app).
    pose proof (good_fine _ Hg HpL) as Hf.
    rewrite Ht, drop_app_length in Hf.
    destruct Hf as [Hf|Hf]; rewrite span_app_short in Hf by done; [lia|].
    rewrite take_app_le in Hf by lia. done.
  - pose proof fine_user as Hfu.
    subst J. cbn [stage_shape stage_by] in *.
    rewrite mt_path in Hm.
    destruct (has_prefix false (drop i L) (drop i t)) eqn:E; [|done].
    apply has_prefix_exact in E. rewrite length_drop in E, Hm.
    set (x' := drop (length L - i) (drop i t)) in *.
    assert (t = L ++ x') as Ht.
    { rewrite <- (take_drop i t) at 1. rewrite Hp1, E at 1.
      by rewrite app_assoc, take_drop. }
    assert (has_prefix false L t = true) as HpL
      by (rewrite Ht; apply has_prefix_exact_app).
    pose proof (good_fine _ Hg HpL) as Hf.
    rewrite Ht, drop_app_length in Hf.
    destruct (span V x') as [|k] eqn:Ek; [done|]. injection Hm as <-.
    destruct Hf as [Hf|Hf]; [congruence|].
    rewrite Hp1, <- !app_assoc.
    rewrite (app_assoc (take i L)), take_drop, drop_app_length.
    apply Hfu. unfold run_stage in *. cbn [stage_shape stage_by].
    pose proof (out_head (Anonymise (drop i L) V U) Hs Hb V) as Hh.
    unfold run_stage in Hh. cbn [stage_shape stage_by] in Hh.
    rewrite Hh by done.
    rewrite E at 1. rewrite drop_app_add' by (rewrite length_drop; lia).
    rewrite <- Ek. apply span_end.
Qed.

Lemma anonymise_scan (t : str) :
  (∀ t', t' `suffix_of` t → mt (stage_shape J) t' = None →
         Good (path_shape L V) (L ++ U) t') →
  Inv (path_shape L V) (L ++ U) (run_stage J t).
Proof using Hok.
  destruct anonymise_ok_parts as (Hs & Hb & _ & _ & HV & Hin & _).
  pose proof Hok as (_ & _ & H0).
  unfold Inv, run_stage.
  induction t as [| c t Hc IH | t n Hn IH] using (scan_ind (stage_shape J));
    intros Hgap z Hz.
  - rewrite out_nil in Hz. apply suffix_nil_inv in Hz as ->.
    intros n. by rewrite mt_nil.
  - rewrite out_miss in Hz by done.
    apply suffix_cons_cases in Hz as [->|Hz]; cycle 1.
    { apply IH; [|done]. intros t' Ht'. apply Hgap. by apply suffix_cons_r. }
    rewrite <- out_miss by done. apply fine_good. intros Hp.
    pose proof (Hgap (c :: t) (reflexivity _) Hc) as Hg.
    destruct (walk J _ _ _ Hp) as [[Hlen Ho]|(i & n & Hi & Hit & Hm & Ho)].
    + unfold run_stage in Ho. rewrite Ho in Hp |- *.
      rewrite drop_app_length' by (rewrite length_take; lia).
      apply fine_out, (good_fine _ Hg).
      rewrite <- has_prefix_take. rewrite <- has_prefix_take in Hp.
      by rewrite take_app_length' in Hp by (rewrite length_take; lia).
    + destruct i as [|i]; [rewrite drop_0 in Hm; congruence|].
      unfold run_stage in Ho. rewrite Ho in Hp |- *.
      apply anonymise_straddle; try done. lia.
  - rewrite (out_hit _ _ _ _ Hn) in Hz.
    apply suffix_app_cases in Hz as [Hz|(o & Ho & ->)].
    { apply IH; [|done]. intros t' Ht'. apply Hgap.
      etrans; [done|]. apply suffix_drop. }
    apply fine_good. intros Hp.
    pose proof (has_prefix_meets _ _ _ _ Hp) as Hm.
    destruct o as [|o].
    + rewrite drop_0 in *. destruct H0 as [H0|H0]; [congruence|].
      pose proof fine_user as Hfu.
      subst J. cbn [stage_shape stage_by] in *.
      rewrite <- app_assoc, drop_app_length. apply Hfu.
      pose proof (out_head (Anonymise L V U) Hs Hb V) as Hh.
      unfold run_stage in Hh. cbn [stage_shape stage_by] in Hh.
      rewrite Hh by done. apply (mt_end _ _ _ Hn).
    + exfalso. cbn [not_within forallb] in Hin. rewrite andb_true_r in Hin.
      assert (In (S o) (seq 1 (length (stage_by J) - 1))) as H2
        by (apply in_seq; lia).
      pose proof (forallb_In _ _ _ Hin H2) as H3. cbv beta in H3.
      apply negb_true_iff in H3. congruence.
Qed.
End Anonymise.

(** ** The matcher on shapes *)

Section EngineShapes.
Context {R : Type}.
Implicit Types (k : @cont R).

Lemma run_Lit (l : str) k pos t cs :
  run (Lit l) pos t cs k
  = if has_prefix false l t
    then k (pos + length l)%nat (drop (length l) t) cs else None.
Proof.
  revert pos t. induction l as [|a l IH]; intros pos t.
  - simpl. by rewrite Nat.add_0_r.
  - destruct t as [|c t]; [done|]. cbn [Lit fold_right run has_prefix length drop].
    fold (Lit l). unfold unit_eq. destruct (chr_eq a c); [|done].
    rewrite IH. cbn [andb]. by replace (S pos + length l)%nat with (pos + S (length l))%nat by lia.
Qed.

Lemma run_LitI (l : str) k pos t cs :
  run (LitI l) pos t cs k
  = if has_prefix true l t
    then k (pos + length l)%nat (drop (length l) t) cs else None.
Proof.
  revert pos t. induction l as [|a l IH]; intros pos t.
  - simpl. by rewrite Nat.add_0_r.
  - destruct t as [|c t]; [done|]. cbn [LitI fold_right run has_prefix length drop].
    fold (LitI l). unfold unit_eq. destruct (chr_eqi a c); [|done].
    rewrite IH. cbn [andb]. by replace (S pos + length l)%nat with (pos + S (length l))%nat by lia.
Qed.

Lemma rep_greedy_rejecting p k lo :
  rejects p k →
  ∀ t n pos cs,
    rep_greedy p lo None n pos t cs k
    = if Nat.leb lo (n + span p t)
      then k (pos + span p t)%nat (drop (span p t) t) cs else None.
Proof.
  intros Hk. induction t as [|c t IH]; intros n pos cs; simpl.
  - by rewrite !Nat.add_0_r.
  - destruct (p c) eqn:Hp; simpl.
    + rewrite IH. rewrite (Hk pos c t cs Hp).
      replace (n + S (span p t))%nat with (S n + span p t)%nat by lia.
      replace (pos + S (span p t))%nat with (S pos + span p t)%nat by lia.
      destruct (Nat.leb lo (S n + span p t)).
      * destruct (k (S pos + span p t)%nat (drop (span p t) t) cs); [done|].
        by destruct (Nat.leb lo n).
      * by destruct (Nat.leb lo n).
    + by rewrite !Nat.add_0_r.
Qed.

Lemma rep_greedy_total_max p k lo :
  (∀ pos t cs, is_Some (k pos t cs)) →
  ∀ t n pos cs,
    rep_greedy p lo None n pos t cs k
    = if Nat.leb lo (n + span p t)
      then k (pos + span p t)%nat (drop (span p t) t) cs else None.
Proof.
  intros Hk. induction t as [|c t IH]; intros n pos cs; simpl.
  - by rewrite !Nat.add_0_r.
  - destruct (p c) eqn:Hp; simpl.
    + rewrite IH.
      replace (n + S (span p t))%nat with (S n + span p t)%nat by lia.
      replace (pos + S (span p t))%nat with (S pos + span p t)%nat by lia.
      destruct (Nat.leb_spec lo (S n + span p t)).
      * by destruct (Hk (S pos + span p t)%nat (drop (span p t) t) cs) as [x ->].
      * destruct (Nat.leb_spec lo n); [lia | done].
    + by rewrite !Nat.add_0_r.
Qed.

Lemma run_Maybe_rejecting q k pos t cs :
  rejects q k →
  run (Maybe q) pos t cs k
  = let j := if head_in q t then 1%nat else 0%nat in
    k (pos + j)%nat (drop j t) cs.
Proof.
  intros Hk. unfold Maybe. cbn [run]. destruct t as [|c t]; simpl.
  - by rewrite Nat.add_0_r.
  - destruct (q c) eqn:Hq; simpl.
    + rewrite (Hk pos c t cs Hq).
      replace (pos + 1)%nat with (S pos) by lia.
      assert (rep_greedy q 0 (Some 1%nat) 1 (S pos) t cs k = k (S pos) t cs) as ->.
      { destruct t as [|c' t]; simpl; [done|].
        by rewrite andb_false_r. }
      rewrite drop_0. by destruct (k (S pos) t cs).
    + by rewrite Nat.add_0_r.
Qed.

Lemma head_in_false_span p (t : str) : head_in p t = false → span p t = 0%nat.
Proof. destruct t as [|c t]; simpl; [done|]. by intros ->. Qed.

Lemma head_in_span p (t : str) :
  head_in p t = match span p t with O => false | S _ => true end.
Proof. destruct t as [|c t]; simpl; [done|]. by destruct (p c). Qed.

(** Value run, then a continuation that always accepts. *)
Lemma run_value (sh : shape) k pos t cs :
  (∀ pos t cs, is_Some (k pos t cs)) →
  run (Plus (val sh)) pos t cs k
  = match span (val sh) t with
    | O => None
    | S n => k (pos + S n)%nat (drop (S n) t) cs
    end.
Proof.
  intros Hk. unfold Plus. cbn [run]. rewrite rep_greedy_total_max by done.
  cbn [Nat.add]. by destruct (span (val sh) t).
Qed.

(** Separators, optional quote and value, for disjoint classes. *)
Lemma run_tail (sh : shape) k pos t cs :
  (∀ c, sep sh c = true → quo sh c = false ∧ val sh c = false) →
  (∀ c, quo sh c = true → val sh c = false) →
  (∀ pos t cs, is_Some (k pos t cs)) →
  run (Seq (Star (sep sh)) (Seq (Maybe (quo sh)) (Plus (val sh)))) pos t cs k
  = match tail_len sh t with
    | Some n => k (pos + n)%nat (drop n t) cs
    | None => None
    end.
Proof.
  intros Hsep Hquo Hk.
  assert (∀ pos t cs,
    run (Maybe (quo sh)) pos t cs
      (fun pos' t' cs' => run (Plus (val sh)) pos' t' cs' k)
    = let q := if head_in (quo sh) t then 1%nat else 0%nat in
      match span (val sh) (drop q t) with
      | O => None
      | S n => k (pos + (q + S n))%nat (drop (q + S n) t) cs
      end) as Hq.
  { intros pos' t' cs'. rewrite run_Maybe_rejecting.
    - cbv zeta. rewrite run_value by done.
      destruct (span _ _); [done|]. by rewrite Nat.add_assoc, drop_drop.
    - intros p c u cs0 Hc. rewrite run_value by done.
      simpl. by rewrite (Hquo c Hc). }
  unfold Star. cbn [run]. rewrite rep_greedy_rejecting.
  - cbn [Nat.leb Nat.add]. unfold tail_len.
    rewrite Hq. cbv zeta.
    destruct (span (val sh) _); [done|].
    rewrite drop_drop. f_equal; [lia|f_equal; lia].
  - intros p c u cs0 Hc.
    rewrite Hq. cbv zeta. destruct (Hsep c Hc) as [Hq' Hv].
    simpl. by rewrite Hq', drop_0; simpl; rewrite Hv.
Qed.

(** The same without a quote. *)
Lemma run_tail_bare (sh : shape) k pos t cs :
  (∀ c, sep sh c = true → val sh c = false) →
  (∀ c, quo sh c = false) →
  (∀ pos t cs, is_Some (k pos t cs)) →
  run (Seq (Star (sep sh)) (Plus (val sh))) pos t cs k
  = match tail_len sh t with
    | Some n => k (pos + n)%nat (drop n t) cs
    | None => None
    end.
Proof.
  intros Hsep Hquo Hk. unfold Star. cbn [run]. rewrite rep_greedy_rejecting.
  - cbn [Nat.leb Nat.add]. unfold tail_len.
    assert (head_in (quo sh) (drop (span (sep sh) t) t) = false) as ->.
    { destruct (drop _ t); simpl; [done|apply Hquo]. }
    rewrite drop_0, Nat.add_0_r.
    change (rep_greedy (val sh) 1 None 0) with (run (Plus (val sh))).
    rewrite run_value by done.
    destruct (span (val sh) _); [done|].
    by rewrite !Nat.add_assoc, drop_drop.
  - intros p c u cs0 Hc.
    change (rep_greedy (val sh) 1 None 0) with (run (Plus (val sh))).
    rewrite run_value by done. simpl. by rewrite (Hsep c Hc).
Qed.
End EngineShapes.


(** ** The ten patterns as shapes *)

Section PatternShapes.
Import SecurityUtils.

(** A path pattern: the literal, then a non-empty value run. *)
Lemma match_at_path (literal : str) (value : char → bool) (pos : nat) (t : str) :
  m_len <$> match_at (Seq (Lit literal) (Plus value)) pos t
  = mt (path_shape literal value) t.
Proof.
  unfold match_at, mt. cbn [run lits ci path_shape mt_lits].
  rewrite run_Lit. destruct (has_prefix false literal t); [|done].
  rewrite tail_len_path.
  unfold Plus. cbn [run].
  rewrite rep_greedy_total_max by eauto. cbn [Nat.add].
  destruct (span value (drop (length literal) t)) as [|n] eqn:E; [done|].
  cbn [Nat.leb fmap option_fmap option_map m_len]. f_equal. lia.
Qed.

(** Boolean comparisons of code units as linear arithmetic. *)
Ltac units :=
  unfold colon_space, not_slash_space, not_backslash, never, word_or_dash,
    is_word, is_upper, is_lower, is_digit, is_space, in_range, one_of,
    chr_eqi, chr_eq, ascii_upper, is_lower, in_range in *;
  cbn [existsb] in *;
  rewrite ?orb_false_r in *;
  repeat match goal with
  | |- context [if ?b then _ else _] => let E := fresh in destruct b eqn:E
  | H : context [if ?b then _ else _] |- _ =>
      let E := fresh in destruct b eqn:E
  end;
  repeat match goal with
  | H : _ = true |- _ =>
      rewrite ?orb_true_iff, ?andb_true_iff, ?negb_true_iff,
        ?orb_false_iff, ?andb_false_iff,
        ?N.eqb_eq, ?N.eqb_neq, ?N.leb_le, ?N.leb_gt in H; revert H
  | H : _ = false |- _ =>
      rewrite ?orb_false_iff, ?andb_false_iff, ?negb_false_iff,
        ?orb_true_iff, ?andb_true_iff,
        ?N.eqb_eq, ?N.eqb_neq, ?N.leb_le, ?N.leb_gt in H; revert H
  end;
  rewrite ?orb_false_iff, ?andb_false_iff, ?negb_false_iff, ?negb_true_iff,
    ?orb_true_iff, ?andb_true_iff,
    ?N.eqb_eq, ?N.eqb_neq, ?N.leb_le, ?N.leb_gt;
  lia.

Lemma colon_space_apart c :
  colon_space c = true → one_of [39; 34] c = false ∧ word_or_dash c = false.
Proof. intros H. split; units. Qed.

Lemma quote_apart c : one_of [39; 34] c = true → word_or_dash c = false.
Proof. intros H. units. Qed.

Lemma space_apart c : is_space c = true → word_or_dash c = false.
Proof. intros H. units. Qed.

Lemma run_Seq {R} (r1 r2 : regex) pos t cs (k : @cont R) :
  run (Seq r1 r2) pos t cs k
  = run r1 pos t cs (fun pos' t' cs' => run r2 pos' t' cs' k).
Proof. done. Qed.

(** A credential pattern with one spelling of the keyword. *)
Lemma match_at_credential (keyword : str) (pos : nat) (t : str) :
  m_len <$> match_at (credential (LitI keyword)) pos t
  = mt (cred_shape [keyword]) t.
Proof.
  unfold match_at, mt, credential. cbn [Seqs lits ci mt_lits cred_shape].
  rewrite run_Seq, run_LitI. destruct (has_prefix true keyword t); [|done].
  set (sh := MkShape [keyword] true colon_space (one_of [39; 34]) word_or_dash).
  rewrite (run_tail sh); [| apply colon_space_apart | apply quote_apart | eauto].
  change (cred_shape [keyword]) with sh.
  destruct (tail_len sh _); [|done]. simpl. f_equal. lia.
Qed.

Lemma match_at_bearer (pos : nat) (t : str) :
  m_len <$> match_at
    (Seqs [LitI (lit "bearer"); Star is_space; Plus word_or_dash]) pos t
  = mt sh_bearer t.
Proof.
  unfold match_at, mt. cbn [Seqs lits ci mt_lits sh_bearer].
  rewrite run_Seq, run_LitI. destruct (has_prefix true _ t); [|done].
  rewrite (run_tail_bare sh_bearer); [| apply space_apart | done | eauto].
  destruct (tail_len sh_bearer _); [|done]. simpl. f_equal. lia.
Qed.

Lemma has_prefix_app ci (a b t : str) :
  has_prefix ci (a ++ b) t
  = has_prefix ci a t && has_prefix ci b (drop (length a) t).
Proof.
  revert t. induction a as [|x a IH]; intros t; simpl; [done|].
  destruct t as [|c t]; simpl; [done|]. by rewrite IH, andb_assoc.
Qed.

Lemma has_prefix_unit ci (a : char) (t : str) :
  has_prefix ci [a] t = head_in (unit_eq ci a) t.
Proof. destruct t; simpl; [done|]. by rewrite andb_true_r. Qed.

Lemma underscore_or_dash c :
  one_of [95; 45] c = chr_eqi 95 c || chr_eqi 45 c.
Proof.
  destruct (one_of [95; 45] c) eqn:E1, (chr_eqi 95 c) eqn:E2,
    (chr_eqi 45 c) eqn:E3; try done; units.
Qed.

Lemma underscore_not_dash c : chr_eqi 95 c = true → chr_eqi 45 c = false.
Proof. intros H. units. Qed.

Lemma underscore_or_dash_not_k c :
  one_of [95; 45] c = true → chr_eqi 107 c = false.
Proof. intros H. units. Qed.

Lemma key_not_at_separator c (u : str) :
  one_of [95; 45] c = true → has_prefix true (lit "key") (c :: u) = false.
Proof.
  intros Hc. change (lit "key") with [107; 101; 121].
  cbn [has_prefix unit_eq]. by rewrite (underscore_or_dash_not_k c Hc).
Qed.

Lemma underscore_or_dash_head (u : str) :
  head_in (one_of [95; 45]) u
  = head_in (chr_eqi 95) u || head_in (chr_eqi 45) u.
Proof. destruct u; simpl; [done|]. apply underscore_or_dash. Qed.

(** The keyword with its optional separator: three spellings. *)
Lemma match_at_api_key (pos : nat) (t : str) :
  m_len <$> match_at
    (credential (Seqs [LitI (lit "api"); Maybe (one_of [95; 45]);
                       LitI (lit "key")])) pos t
  = mt sh_api_key t.
Proof.
  set (sh := sh_api_key).
  unfold match_at, mt, credential.
  change (lits sh) with [lit "api" ++ [95] ++ lit "key";
                         lit "api" ++ [45] ++ lit "key";
                         lit "api" ++ lit "key"].
  cbn [Seqs mt_lits]. change (ci sh) with true.
  rewrite !has_prefix_app, !has_prefix_unit. cbn [unit_eq].
  rewrite !length_app.
  change (length (lit "api")) with 3%nat. change (length (lit "key")) with 3%nat.
  cbn [length Nat.add].
  rewrite !run_Seq, run_LitI. change (length (lit "api")) with 3%nat.
  destruct (has_prefix true (lit "api") t); [|done]. cbn [andb].
  cbv beta. rewrite run_Seq.
  replace (drop 7 t) with (drop 3 (drop 1 (drop 3 t)))
    by (rewrite !drop_drop; f_equal).
  replace (drop 6 t) with (drop 3 (drop 3 t)) by (rewrite !drop_drop; f_equal).
  set (u := drop 3 t).
  rewrite run_Maybe_rejecting; cycle 1.
  { intros p c u' cs Hc. by rewrite run_LitI, key_not_at_separator. }
  cbv zeta. rewrite run_LitI. change (length (lit "key")) with 3%nat.
  rewrite underscore_or_dash_head.
  change (Seq (Star (λ c : char, (c =? 58) || is_space c))
            (Seq (Maybe (one_of [39; 34])) (Plus word_or_dash)))
    with (Seq (Star (sep sh)) (Seq (Maybe (quo sh)) (Plus (val sh)))).
  destruct (head_in (chr_eqi 95) u) eqn:E1.
  - assert (head_in (chr_eqi 45) u = false) as E2.
    { destruct u; simpl in *; [done|]. by apply underscore_not_dash. }
    assert (has_prefix true (lit "key") u = false) as E3.
    { destruct u as [|c u']; [done|]. apply key_not_at_separator.
      cbn [head_in] in E1. by rewrite underscore_or_dash, E1. }
    rewrite E2, E3. cbn [orb andb].
    destruct (has_prefix true (lit "key") (drop 1 u)); [|done].
    rewrite (run_tail sh); [| apply colon_space_apart | apply quote_apart | eauto].
    destruct (tail_len sh _); [|done]. simpl. f_equal. lia.
  - cbn [orb andb]. destruct (head_in (chr_eqi 45) u) eqn:E2.
    + assert (has_prefix true (lit "key") u = false) as E3.
      { destruct u as [|c u']; [done|]. apply key_not_at_separator.
        cbn [head_in] in E2. by rewrite underscore_or_dash, E2, orb_true_r. }
      rewrite E3. cbn [andb].
      destruct (has_prefix true (lit "key") (drop 1 u)); [|done].
      rewrite (run_tail sh); [| apply colon_space_apart | apply quote_apart | eauto].
      destruct (tail_len sh _); [|done]. simpl. f_equal. lia.
    + cbn [andb]. rewrite drop_0.
      destruct (has_prefix true (lit "key") u); [|done].
      rewrite (run_tail sh); [| apply colon_space_apart | apply quote_apart | eauto].
      destruct (tail_len sh _); [|done]. simpl. f_equal. lia.
Qed.
End PatternShapes.


(** ** The replacement as a scan of shapes *)

Lemma tail_len_pos (sh : shape) (t : str) n : tail_len sh t = Some n → (0 < n)%nat.
Proof.
  unfold tail_len. destruct (span (val sh) _); [done|]. intros [= <-]. lia.
Qed.

Lemma mt_lits_pos (sh : shape) ls (t : str) n :
  mt_lits sh ls t = Some n → (0 < n)%nat.
Proof.
  induction ls as [|l ls IH]; simpl; [done|].
  destruct (has_prefix (ci sh) l t); [|done].
  destruct (tail_len sh _) eqn:E; [|done].
  intros [= <-]. apply tail_len_pos in E. lia.
Qed.

Lemma replace_from_shape (r : regex) (sh : shape) (by_ : str) :
  (∀ pos t, m_len <$> match_at r pos t = mt sh t) →
  ∀ t pos skip,
    replace_from r (fun _ => by_) pos t skip = replace_shape_from sh by_ t skip.
Proof.
  intros Hm. induction t as [|c t IH]; intros pos skip.
  - destruct skip as [|n]; simpl; [|done].
    specialize (Hm pos []). destruct (match_at r pos []) as [m|]; simpl in Hm.
    + rewrite <- Hm. pose proof (mt_lits_pos sh (lits sh) [] (m_len m)) as Hp.
      unfold mt in Hm. rewrite <- Hm in Hp. specialize (Hp eq_refl).
      destruct (m_len m); [lia|done].
    + by rewrite <- Hm.
  - destruct skip as [|n]; simpl; [|apply IH].
    specialize (Hm pos (c :: t)).
    destruct (match_at r pos (c :: t)) as [m|]; simpl in Hm; rewrite <- Hm.
    + pose proof (mt_lits_pos sh (lits sh) (c :: t) (m_len m)) as Hp.
      unfold mt in Hm. rewrite <- Hm in Hp. specialize (Hp eq_refl).
      destruct (m_len m); [lia|]. by rewrite IH.
    + by rewrite IH.
Qed.

Lemma replace_all_shape (r : regex) (sh : shape) (by_ : str) (s : str) :
  (∀ pos t, m_len <$> match_at r pos t = mt sh t) →
  replace_all r by_ s = replace_shape sh by_ s.
Proof. intros Hm. by apply replace_from_shape. Qed.

(** [sanitizeError]'s replacements are the ten stages, in order. *)
Lemma sanitizeMessage_stages (message : str) :
  SecurityUtils.sanitizeMessage message = run_stages stages message.
Proof.
  unfold SecurityUtils.sanitizeMessage, stages, run_stages, run_stage.
  cbn [imap fold_left app SecurityUtils.sensitivePatterns sensitiveShapes
       Nat.succ compose stage_shape stage_by].
  rewrite (replace_all_shape SecurityUtils.pat_home sh_home)
    by apply match_at_path.
  rewrite (replace_all_shape SecurityUtils.pat_win_users_c sh_win_users_c)
    by apply match_at_path.
  rewrite (replace_all_shape SecurityUtils.pat_mac_users sh_mac_users)
    by apply match_at_path.
  rewrite (replace_all_shape SecurityUtils.pat_win_users sh_win_users)
    by apply match_at_path.
  rewrite (replace_all_shape (SecurityUtils.credential (Seqs _)) sh_api_key)
    by apply match_at_api_key.
  rewrite (replace_all_shape (SecurityUtils.credential (LitI (lit "password")))
             (cred_shape [lit "password"])) by apply match_at_credential.
  rewrite (replace_all_shape (SecurityUtils.credential (LitI (lit "token")))
             (cred_shape [lit "token"])) by apply match_at_credential.
  rewrite (replace_all_shape (SecurityUtils.credential (LitI (lit "secret")))
             (cred_shape [lit "secret"])) by apply match_at_credential.
  rewrite (replace_all_shape (SecurityUtils.credential (LitI (lit "auth")))
             (cred_shape [lit "auth"])) by apply match_at_credential.
  rewrite (replace_all_shape (Seqs [LitI (lit "bearer"); _; _]) sh_bearer)
    by apply match_at_bearer.
  reflexivity.
Qed.

(** ** The stages together *)

Lemma pair_step (st J : stage) (t : str) :
  pair_ok st J →
  (∀ t', t' `suffix_of` t → mt (stage_shape J) t' = None →
         Good (stage_shape st) (stage_by st) t') →
  stage_inv st (run_stage J t).
Proof.
  destruct st as [L V U|sh R]; simpl; intros Hok Hgap.
  - by apply anonymise_scan.
  - by apply redact_step.
Qed.

Lemma stage_establishes (st : stage) (s : str) :
  pair_ok st st → stage_inv st (run_stage st s).
Proof.
  intros Hok. apply pair_step; [done|].
  intros t' _ Hm n Hn. congruence.
Qed.

Lemma stage_preserves (st J : stage) (s : str) :
  pair_ok st J → stage_inv st s → stage_inv st (run_stage J s).
Proof.
  intros Hok Hs. apply pair_step; [done|].
  intros t' Ht' _. by apply Hs.
Qed.

Lemma stages_preserve (st : stage) (l : list stage) (s : str) :
  Forall (pair_ok st) l → stage_inv st s → stage_inv st (run_stages l s).
Proof.
  intros Hl. revert s. induction Hl as [|J l HJ Hl IH]; intros s Hs; [done|].
  simpl. apply IH. by apply stage_preserves.
Qed.

Lemma stages_invariants (l : list stage) :
  all_ok l → ∀ s st, st ∈ l → stage_inv st (run_stages l s).
Proof.
  induction l as [|a l IH]; intros Hok s st Hst.
  - by apply elem_of_nil in Hst.
  - destruct Hok as (Ha & Hl & Hok). simpl.
    apply elem_of_cons in Hst as [->|Hst].
    + apply stages_preserve; [done|]. by apply stage_establishes.
    + by apply IH.
Qed.

Lemma stages_fixed (l : list stage) (s : str) :
  (∀ st, st ∈ l → stage_inv st s) → run_stages l s = s.
Proof.
  induction l as [|a l IH]; intros H; [done|]. simpl.
  unfold run_stage. rewrite out_fixed.
  - apply IH. intros st Hst. apply H. by apply elem_of_cons; right.
  - apply H. by apply elem_of_cons; left.
Qed.

Lemma run_stages_idempotent (l : list stage) (s : str) :
  all_ok l → run_stages l (run_stages l s) = run_stages l s.
Proof.
  intros Hok. apply stages_fixed. intros st Hst. by apply stages_invariants.
Qed.

Ltac straddles :=
  lazymatch goal with
  | |- Forall _ ?l =>
      let l' := eval vm_compute in l in
      change l with l';
      repeat (apply List.Forall_cons;
              [first [ left; vm_compute; reflexivity
                     | right; left; vm_compute; reflexivity
                     | right; right; reflexivity ] |]);
      apply List.Forall_nil
  end.

Ltac pair :=
  lazymatch goal with
  | |- pair_ok (Redact _ _) _ => vm_compute; reflexivity
  | |- pair_ok (Anonymise _ _ _) _ =>
      split;
      [ vm_compute; reflexivity
      | split;
        [ straddles
        | first [ left; vm_compute; reflexivity | right; reflexivity ] ] ]
  end.

Lemma stages_ok : all_ok stages.
Proof.
  unfold stages. cbn [imap app sensitiveShapes all_ok compose Nat.succ].
  repeat lazymatch goal with
         | |- _ ∧ _ => split
         | |- Forall (pair_ok _) (_ :: _) => apply List.Forall_cons
         | |- Forall (pair_ok _) [] => apply List.Forall_nil
         | |- True => exact Logic.I
         | |- pair_ok _ _ => pair
         end.
Qed.

(** The path and credential replacements of [sanitizeError], applied to
    their own result, change nothing. *)
Lemma sanitizeMessage_idempotent (message : str) :
  SecurityUtils.sanitizeMessage (SecurityUtils.sanitizeMessage message)
  = SecurityUtils.sanitizeMessage message.
Proof.
  rewrite !sanitizeMessage_stages. apply run_stages_idempotent, stages_ok.
Qed.

(** C5 (as amended): the path and credential replacements of
    [sanitizeError] are idempotent on every message; HTML escaping is
    idempotent exactly on the texts that contain none of the five special
    characters, which it leaves unchanged, and escaping any other text a
    second time makes it longer. *)
Theorem sanitization_idempotence (text : str) :
  SecurityUtils.sanitizeMessage (SecurityUtils.sanitizeMessage text)
  = SecurityUtils.sanitizeMessage text
  ∧ (SecurityUtils.escapeHtml (SecurityUtils.escapeHtml text)
     = SecurityUtils.escapeHtml text
     ↔ Forall (fun c => SecurityUtils.html_special c = false) text)
  ∧ (Forall (fun c => SecurityUtils.html_special c = false) text →
     SecurityUtils.escapeHtml text = text)
  ∧ (Exists (fun c => SecurityUtils.html_special c = true) text →
     (length (SecurityUtils.escapeHtml text)
      < length (SecurityUtils.escapeHtml (SecurityUtils.escapeHtml text)))%nat).
Proof.
  split; [apply sanitizeMessage_idempotent | apply escapeHtml_idempotent_cases].
Qed.

(** The replacements at work: a home directory and a token. *)
Lemma sanitizeMessage_example :
  SecurityUtils.sanitizeMessage
    (lit "open /home/alice/key.pem failed, token: abc-123")
  = lit "open /home/<user>/key.pem failed, SENSITIVE_INFO_2_REDACTED".
Proof. vm_compute. reflexivity. Qed.

(** A message is cleaned once and for all; plain text is left alone by
    the escaping, twice; an ampersand is not. *)
Lemma sanitization_idempotence_witness :
  SecurityUtils.sanitizeMessage
    (SecurityUtils.sanitizeMessage (lit "/home/alice token: abc-123"))
  = SecurityUtils.sanitizeMessage (lit "/home/alice token: abc-123")
  ∧ SecurityUtils.escapeHtml (lit "no markup here") = lit "no markup here"
  ∧ (length (SecurityUtils.escapeHtml (lit "a & b"))
     < length (SecurityUtils.escapeHtml (SecurityUtils.escapeHtml (lit "a & b"))))%nat.
Proof.
  split; [|split].
  - exact (proj1 (sanitization_idempotence (lit "/home/alice token: abc-123"))).
  - apply (proj1 (proj2 (proj2 (sanitization_idempotence (lit "no markup here"))))).
    repeat constructor.
  - apply (proj2 (proj2 (proj2 (sanitization_idempotence (lit "a & b"))))).
    apply Exists_cons_tl, Exists_cons_tl, Exists_cons_hd. reflexivity.
Defined.

(* ================================================================== *)
(** * Further properties of the code *)
(* ================================================================== *)

From Stdlib Require Import Permutation Sorted.

(** ** What [escapeHtml] returns *)

Section EscapedText.
Import SecurityUtils.

Lemma escape_unit_markup_free (c : char) :
  Forall (fun c' => one_of [60; 62; 34; 39] c' = false) (escape_unit c).
Proof.
  unfold escape_unit. destruct (html_special c) eqn:Hc.
  - unfold html_special, one_of in Hc. simpl in Hc. rewrite !orb_true_iff in Hc.
    destruct Hc as [H|[H|[H|[H|[H|H]]]]]; try done;
      apply N.eqb_eq in H; subst c; repeat constructor.
  - constructor; [|constructor].
    unfold html_special, one_of in *. simpl in *.
    apply orb_false_iff in Hc as [_ Hc]. exact Hc.
Qed.

Lemma escapeHtml_no_markup (text : str) : markup_free (escapeHtml text).
Proof.
  unfold markup_free. rewrite escapeHtml_flat_map. induction text as [|c text IH]; [constructor|].
  simpl. apply Forall_app. split; [apply escape_unit_markup_free | exact IH].
Qed.

(** X1: the text [escapeHtml] returns contains none of the characters
    [<], [>], double quote and single quote, whatever the input. *)
Theorem escapeHtml_markup_free (text : str) : markup_free (escapeHtml text).
Proof. apply escapeHtml_no_markup. Qed.

Lemma escape_unit_cases (c : char) :
  (html_special c = false ∧ c ≠ 38 ∧ escape_unit c = [c])
  ∨ (c = 38 ∧ escape_unit c = lit "&amp;")
  ∨ (c = 60 ∧ escape_unit c = lit "&lt;")
  ∨ (c = 62 ∧ escape_unit c = lit "&gt;")
  ∨ (c = 34 ∧ escape_unit c = lit "&quot;")
  ∨ (c = 39 ∧ escape_unit c = lit "&#39;").
Proof.
  unfold escape_unit. destruct (html_special c) eqn:Hc.
  - right. unfold html_special, one_of in Hc. simpl in Hc.
    rewrite !orb_true_iff in Hc.
    destruct Hc as [H|[H|[H|[H|[H|H]]]]]; try done;
      apply N.eqb_eq in H; subst c; auto 10.
  - left. split; [done|]. split; [|done]. intros ->. done.
Qed.

(** X2: [escapeHtml] loses nothing: two texts with the same escaped
    form are the same text. *)
Theorem escapeHtml_injective (a b : str) :
  escapeHtml a = escapeHtml b → a = b.
Proof.
  rewrite !escapeHtml_flat_map. revert b.
  induction a as [|x a IH]; intros [|y b]; simpl.
  - done.
  - destruct (escape_unit_cases y) as [(_ & _ & ->)|[(_ & ->)|[(_ & ->)|[(_ & ->)|[(_ & ->)|(_ & ->)]]]]];
      discriminate.
  - destruct (escape_unit_cases x) as [(_ & _ & ->)|[(_ & ->)|[(_ & ->)|[(_ & ->)|[(_ & ->)|(_ & ->)]]]]];
      discriminate.
  - destruct (escape_unit_cases x) as [(_ & Hx & ->)|[(-> & ->)|[(-> & ->)|[(-> & ->)|[(-> & ->)|(-> & ->)]]]]];
    destruct (escape_unit_cases y) as [(_ & Hy & ->)|[(-> & ->)|[(-> & ->)|[(-> & ->)|[(-> & ->)|(-> & ->)]]]]];
      intros H; vm_compute (lit _) in H; cbn [app] in H.
    all: try discriminate H.
    all: try (injection H as H1 H; first [ congruence | discriminate H ]).
    all: try (injection H as -> H; f_equal; by apply IH).
    all: f_equal; apply IH; congruence.
Qed.
End EscapedText.

(** ** What [executeCommand] hands to the child process *)

Section Spawns.
Import SecurityUtils.




End Spawns.

(** ** Which command [getClaudeCommand] returns *)

Section WhichCommand.



End WhichCommand.

(** ** Commands under an absolute working directory *)

Section AbsoluteWorkingDirectory.
Variable toLowerCase : str → str.

(** X4: where the working directory is an absolute path, as
    [process.cwd()] is on POSIX, [executeCommand] throws for every
    command and leaves the world as it was: no process is started. *)
Theorem executeCommand_never_starts (command : str) (args : list str)
    (timeout : option Z) (w : World) :
  Path.isAbsolute (process_cwd w) = true →
  ∃ msg, executeCommand command args timeout w = (Throw (Error msg), w).
Proof.
  intros Habs. unfold executeCommand, mbind, M_bind, gets.
  destruct (negb _); [by eexists|].
  unfold try_catch, lift.
  destruct (validatePath_dangerous (process_cwd w) (process_cwd w) None)
    as [msg ->]; [|by eexists].
  apply (dangerous_of_pattern SecurityUtils.pat_abs_unix).
  - do 2 apply list_elem_of_further. apply list_elem_of_here.
  - by apply test_pat_abs_unix.
Qed.

Lemma getClaudeCommand_absolute (w : World) :
  Path.isAbsolute (process_cwd w) = true →
  getClaudeCommand w = (Throw (Error Msg.no_claude), w).
Proof.
  intros Habs. unfold getClaudeCommand, try_catch, mbind, M_bind.
  destruct (executeCommand_absolute_cwd (lit "claude-code") [lit "--version"]
              (Some 1000%Z) w Habs) as [m1 ->].
  by destruct (executeCommand_absolute_cwd (lit "claude") [lit "--version"]
                 (Some 1000%Z) w Habs) as [m2 ->].
Qed.

(** X5: there, [getClaudeCommand] finds neither command: it throws
    its not-found error, having started no process. *)
Theorem getClaudeCommand_never_finds (w : World) :
  Path.isAbsolute (process_cwd w) = true →
  getClaudeCommand w = (Throw (Error Msg.no_claude), w).
Proof. apply getClaudeCommand_absolute. Qed.

Lemma sanitizeMessage_no_claude :
  SecurityUtils.sanitizeMessage Msg.no_claude = Msg.no_claude.
Proof. vm_compute. reflexivity. Qed.

Lemma sanitizeMessage_timeout :
  SecurityUtils.sanitizeMessage Msg.timeout = Msg.timeout.
Proof. vm_compute. reflexivity. Qed.

Lemma execute_absolute (this : AgentSandbox.t) (files : list str)
    (iteration : Z) (w : World) :
  Path.isAbsolute (process_cwd w) = true →
  AgentSandbox.execute toLowerCase this files iteration w
  = (Normal (failed_run this w),
     tick_clock (tick_timer (entered this w))).
Proof.
  intros Habs.
  unfold AgentSandbox.execute, mbind, M_bind, modify, Date_now, randomHex,
    try_catch. cbn [fst snd]. fold (entered this w).
  unfold AgentSandbox.execute_try, mbind, M_bind, race_timeout,
    AgentSandbox.runAgentInSandbox, mbind, M_bind.
  rewrite getClaudeCommand_absolute by done.
  unfold AgentSandbox.execute_catch, mbind, M_bind, Date_now, failed_run.
  cbn [entered tick_timer tick_entropy tick_clock log_event timer_first
       timer_reads clock clock_reads entropy entropy_reads].
  unfold SecurityUtils.sanitizeError. cbn [SecurityUtils.message err_message Error].
  destruct (timer_first w (timer_reads w)).
  - assert (SecurityUtils.sanitizeMessage
              match err_message (Error Msg.timeout) with
              | [] => String_of_exn (Error Msg.timeout)
              | m => m
              end = Msg.timeout) as -> by exact sanitizeMessage_timeout.
    reflexivity.
  - assert (SecurityUtils.sanitizeMessage
              match err_message (Error Msg.no_claude) with
              | [] => String_of_exn (Error Msg.no_claude)
              | m => m
              end = Msg.no_claude) as -> by exact sanitizeMessage_no_claude.
    reflexivity.
Qed.

(** X6: there, every run of [AgentSandbox.execute] ends in its
    [catch] block: the result has no issues, no output and the error
    of [getClaudeCommand], or the time-out error when the timer fires
    first; no process was started. *)
Theorem execute_always_fails (this : AgentSandbox.t) (files : list str)
    (iteration : Z) (w : World) :
  Path.isAbsolute (process_cwd w) = true →
  ∃ r w',
    AgentSandbox.execute toLowerCase this files iteration w = (Normal r, w')
    ∧ ExecutionResult.issues r = []
    ∧ ExecutionResult.rawOutput r = []
    ∧ (ExecutionResult.error r = Some Msg.no_claude
       ∨ ExecutionResult.error r = Some Msg.timeout)
    ∧ spawn_count w' = spawn_count w.
Proof.
  intros Habs. rewrite execute_absolute by done.
  eexists _, _. split; [reflexivity|]. cbn [failed_run ExecutionResult.issues
    ExecutionResult.rawOutput ExecutionResult.error].
  split; [done|]. split; [done|]. split; [|done].
  destruct (timer_first w (timer_reads w)); auto.
Qed.

Lemma failed_failed_run (this : AgentSandbox.t) (w : World) :
  failed (failed_run this w).
Proof.
  split; [done|]. split; [done|]. simpl.
  destruct (timer_first w (timer_reads w)); auto.
Qed.

Section Scheduler.
Import ParallelExecutor.
Variable files : list str.
Variable context : Context.t.
Variable iteration : Z.

Lemma allSettled_absolute (group : list Agent.t) (w : World) :
  Path.isAbsolute (process_cwd w) = true →
  ∃ ps w',
    allSettled toLowerCase files context iteration group w = (Normal ps, w')
    ∧ Forall failed (map settled_result ps)
    ∧ length ps = length group
    ∧ process_cwd w' = process_cwd w
    ∧ spawn_count w' = spawn_count w.
Proof.
  revert w. induction group as [|agent group IH]; intros w Habs.
  - exists [], w. repeat split. constructor.
  - cbn [allSettled]. unfold mbind, M_bind, settle, agent_promise.
    rewrite execute_absolute by done.
    set (w1 := tick_clock (tick_timer (entered _ w))).
    destruct (IH w1) as (ps & w2 & -> & Hps & Hlen & Hcwd & Hsp); [done|].
    eexists _, _. split; [reflexivity|]. split; [|split; [|split]].
    + cbn [map settled_result]. constructor; [apply failed_failed_run | done].
    + simpl. by rewrite Hlen.
    + by rewrite Hcwd.
    + by rewrite Hsp.
Qed.

Lemma run_groups_absolute (k : nat) (groups : list (list Agent.t)) (w : World) :
  Path.isAbsolute (process_cwd w) = true →
  ∃ rs w',
    run_groups toLowerCase files context iteration k groups w = (Normal rs, w')
    ∧ Forall failed rs
    ∧ length rs = length (flat_map (take k) groups)
    ∧ spawn_count w' = spawn_count w.
Proof.
  revert w. induction groups as [|group groups IH]; intros w Habs.
  - exists [], w. repeat split. constructor.
  - cbn [run_groups flat_map]. unfold run_group, try_catch, mbind, M_bind.
    destruct (allSettled_absolute (take k group) w Habs)
      as (ps & w1 & -> & Hps & Hlen & Hcwd & Hsp).
    cbn beta iota. unfold mret, M_ret. cbn beta iota.
    destruct (IH w1) as (rest & w2 & -> & Hrest & Hlen2 & Hsp2);
      [by rewrite Hcwd|].
    eexists _, _. split; [reflexivity|]. split; [|split].
    + apply Forall_app. by split.
    + by rewrite !length_app, length_map, Hlen, Hlen2.
    + by rewrite Hsp2.
Qed.

(** X7: there, [executeAgents] gets a failed run from every worker it
    schedules: each result has no issues and the command-not-found or
    time-out error, and no process was started. *)
Theorem executeAgents_all_fail (agents : list Agent.t) (w : World) :
  Path.isAbsolute (process_cwd w) = true →
  Forall (fun agent => ¬ inherited_priority agent) agents →
  ∃ rs w',
    executeAgents toLowerCase files context iteration agents w = (Normal rs, w')
    ∧ Forall failed rs
    ∧ length rs = length (scheduled agents)
    ∧ spawn_count w' = spawn_count w.
Proof.
  intros Habs Hok. unfold executeAgents.
  destruct agents as [|a agents'] eqn:Ea.
  { exists [], w. repeat split. constructor. }
  rewrite <- Ea in *. clear Ea.
  unfold mbind, M_bind, lift. rewrite groupByPriority_tiers by done.
  destruct (run_groups_absolute (Nat.min (length agents) 4)
              (List.filter (fun g => Nat.ltb 0 (length g)) (tiers agents)) w Habs)
    as (rs & w' & -> & Hrs & Hlen & Hsp).
  rewrite flat_map_take_nonempty in Hlen.
  by exists rs, w'.
Qed.
End Scheduler.
End AbsoluteWorkingDirectory.

(** ** What is left in a sanitised message *)

Section SanitisedMessage.
Import SecurityUtils.








End SanitisedMessage.

(** ** [String.prototype.trim] *)

Section Trim.

Lemma trimStart_head (s : str) : head_in is_space (trimStart s) = false.
Proof.
  induction s as [|c s IH]; [done|]. simpl.
  destruct (is_space c) eqn:E; [done|]. simpl. exact E.
Qed.

Lemma trimStart_fixed (s : str) : head_in is_space s = false → trimStart s = s.
Proof. destruct s as [|c s]; [done|]. simpl. by intros ->. Qed.

(** A text that neither starts nor ends with white space. *)
Lemma trimStart_suffix (s : str) : ∃ a, s = a ++ trimStart s ∧ forallb is_space a = true.
Proof.
  induction s as [|c s (a & Ha & Hs)]; [by exists []|]. simpl.
  destruct (is_space c) eqn:E.
  - exists (c :: a). split; [by rewrite Ha at 1|]. simpl. by rewrite E.
  - by exists [].
Qed.

Lemma trimStart_app_keep (s t : str) :
  trimStart s ≠ [] → trimStart (s ++ t) = trimStart s ++ t.
Proof.
  induction s as [|c s IH]; [done|]. simpl.
  destruct (is_space c); [apply IH|done].
Qed.

Lemma trim_edges (s : str) :
  head_in is_space (trim s) = false
  ∧ head_in is_space (rev (trim s)) = false.
Proof.
  unfold trim, trimEnd. split.
  - set (u := trimStart s).
    pose proof (trimStart_head s) as Hu. fold u in Hu.
    destruct (trimStart_suffix (rev u)) as (a & Ha & Hs).
    destruct (trimStart (rev u)) as [|c r] eqn:E; [done|].
    apply (f_equal (@rev N)) in Ha. rewrite rev_involutive, rev_app_distr in Ha.
    remember (rev (c :: r)) as v eqn:Ev.
    destruct v as [|x y].
    { apply (f_equal (@length N)) in Ev. rewrite length_rev in Ev. done. }
    rewrite Ha in Hu. exact Hu.
  - rewrite rev_involutive. apply trimStart_head.
Qed.

Lemma trim_fixed (s : str) :
  head_in is_space s = false → head_in is_space (rev s) = false → trim s = s.
Proof.
  intros H1 H2. unfold trim, trimEnd.
  by rewrite (trimStart_fixed s H1), (trimStart_fixed _ H2), rev_involutive.
Qed.

Lemma trim_trim (s : str) : trim (trim s) = trim s.
Proof. destruct (trim_edges s). by apply trim_fixed. Qed.

Lemma trim_spaces (s : str) : forallb is_space s = true → trim s = [].
Proof.
  intros H. unfold trim, trimEnd.
  assert (trimStart s = []) as ->; [|done].
  induction s as [|c s IH]; [done|]. simpl in *.
  apply andb_true_iff in H as [-> H]. by apply IH.
Qed.
End Trim.

(** ** The restricted terminal *)

Section Terminal.
Import RestrictedTerminal.

Lemma step_words (P : str → Prop) (st : scanner) (c : char) :
  (∀ s, trim s ≠ [] → P (trim s)) →
  Forall P (args st) → Forall P (args (step st c)).
Proof.
  intros HP Hst. unfold step.
  destruct (escaped st); [done|]. destruct (c =? 92); [done|].
  destruct ((c =? 34) || (c =? 39)); [done|].
  destruct ((c =? 32) && negb (inQuotes st)); [|done].
  destruct (trim (current st)) as [|x word] eqn:E; [done|]. simpl.
  apply Forall_app. split; [done|]. constructor; [|constructor].
  rewrite <- E. apply HP. by rewrite E.
Qed.

Lemma parse_words (P : str → Prop) (command : str) :
  (∀ s, trim s ≠ [] → P (trim s)) → Forall P (parse command).
Proof.
  intros HP. unfold parse.
  assert (∀ st, Forall P (args st) → Forall P (finish (fold_left step command st)))
    as H; [|apply H; constructor].
  induction command as [|c command IH]; intros st Hst; simpl.
  - unfold finish. destruct (trim (current st)) as [|x word] eqn:E; [done|].
    apply Forall_app. split; [done|]. constructor; [|constructor].
    rewrite <- E. apply HP. by rewrite E.
  - apply IH. by apply step_words.
Qed.

(** X9: every argument the terminal parses out of a command is
    non-empty and has no white space at either end. *)
Theorem parse_arguments_trimmed (command : str) :
  Forall (fun word => word ≠ [] ∧ trim word = word) (parse command).
Proof.
  apply parse_words. intros s Hs. split; [done | apply trim_trim].
Qed.

Lemma plain_not_space (c : char) : plain c = true → is_space c = false.
Proof.
  unfold plain. intros H%negb_true_iff.
  by do 3 (apply orb_false_iff in H as [H _]).
Qed.

Lemma step_plain (st : scanner) (c : char) :
  plain c = true → escaped st = false →
  step st c = {| args := args st; current := current st ++ [c];
                 inQuotes := inQuotes st; escaped := false |}.
Proof.
  intros Hc He. unfold step. rewrite He.
  pose proof (plain_not_space c Hc) as Hs.
  unfold plain in Hc. apply negb_true_iff in Hc.
  apply orb_false_iff in Hc as [Hc H39].
  apply orb_false_iff in Hc as [Hc H34].
  apply orb_false_iff in Hc as [_ H92].
  rewrite H92, H34, H39. cbn [orb].
  destruct (N.eqb_spec c 32) as [->|_]; [done|]. done.
Qed.

Lemma fold_plain (w : str) (st : scanner) :
  forallb plain w = true → escaped st = false →
  fold_left step w st
  = {| args := args st; current := current st ++ w;
       inQuotes := inQuotes st; escaped := false |}.
Proof.
  revert st. induction w as [|c w IH]; intros st Hw He; simpl.
  - rewrite app_nil_r. destruct st; simpl in *. by subst.
  - apply andb_true_iff in Hw as [Hc Hw].
    rewrite step_plain by done. rewrite IH by done. simpl.
    by rewrite <- app_assoc.
Qed.

Lemma trim_plain (w : str) : forallb plain w = true → trim w = w.
Proof.
  intros Hw. apply trim_fixed.
  - destruct w as [|c w]; [done|]. simpl in *.
    apply andb_true_iff in Hw as [Hc _]. by apply plain_not_space.
  - assert (forallb plain (rev w) = true) as Hr.
    { apply forallb_forall. intros x Hx%in_rev.
      by apply (proj1 (forallb_forall _ _) Hw). }
    destruct (rev w) as [|c r]; [done|]. simpl in *.
    apply andb_true_iff in Hr as [Hc _]. by apply plain_not_space.
Qed.

Lemma parse_join (words : list str) (done_ : list str) :
  Forall (fun word => word ≠ [] ∧ forallb plain word = true) words →
  finish (fold_left step (join (lit " ") words)
            {| args := done_; current := []; inQuotes := false;
               escaped := false |})
  = done_ ++ words.
Proof.
  revert done_. induction words as [|w words IH]; intros done_ Hw.
  - simpl. by rewrite app_nil_r.
  - apply Forall_cons in Hw as [[Hne Hp] Hw].
    destruct words as [|w2 words].
    + cbn [join]. rewrite fold_plain by done. unfold finish. simpl.
      rewrite trim_plain by done. by destruct w.
    + change (join (lit " ") (w :: w2 :: words))
        with (w ++ lit " " ++ join (lit " ") (w2 :: words)).
      rewrite fold_left_app, (fold_plain w) by done.
      change (lit " ") with [32]. cbn [app fold_left].
      unfold step at 2. cbn [escaped current inQuotes args N.eqb Pos.eqb
        orb andb negb]. rewrite trim_plain by done.
      destruct w as [|c w]; [done|]. cbn [app]. change [32] with (lit " ").
      rewrite IH by done. by rewrite <- app_assoc.
Qed.

(** X10: a command made of words joined by single spaces, the words
    non-empty and free of white space, backslashes and quotes, is parsed
    back into exactly those words. *)
Theorem parse_joined_words (words : list str) :
  Forall (fun word => word ≠ [] ∧ forallb plain word = true) words →
  parse (join (lit " ") words) = words.
Proof. intros Hw. unfold parse, start. by rewrite parse_join. Qed.

Lemma fold_blank (command : str) (st : scanner) :
  forallb is_space command = true →
  escaped st = false → inQuotes st = false →
  forallb is_space (current st) = true →
  let st' := fold_left step command st in
  args st' = args st ∧ forallb is_space (current st') = true.
Proof.
  revert st. induction command as [|c command IH];
    intros st Hc He Hq Hcur; [done|].
  simpl in Hc. apply andb_true_iff in Hc as [Hs Hc]. cbn [fold_left].
  assert ((c =? 92) = false) as H92
    by (destruct (N.eqb_spec c 92) as [->|]; [done|done]).
  assert (((c =? 34) || (c =? 39)) = false) as Hqu.
  { destruct (N.eqb_spec c 34) as [->|]; [done|].
    destruct (N.eqb_spec c 39) as [->|]; done. }
  assert (step st c = st
          ∨ step st c = {| args := args st; current := current st ++ [c];
                           inQuotes := false; escaped := false |}) as [E|E].
  { unfold step. rewrite He, H92, Hqu, Hq. cbn [negb andb].
    rewrite andb_true_r. destruct (c =? 32); [|by right].
    left. by rewrite (trim_spaces _ Hcur). }
  - rewrite E. by apply IH.
  - rewrite E.
    assert (forallb is_space (current st ++ [c]) = true) as Hcur'.
    { rewrite forallb_app. apply andb_true_iff. split; [exact Hcur|].
      simpl. by rewrite Hs. }
    exact (IH {| args := args st; current := current st ++ [c];
                 inQuotes := false; escaped := false |}
              Hc eq_refl eq_refl Hcur').
Qed.

Lemma parse_blank (command : str) :
  forallb is_space command = true → parse command = [].
Proof.
  intros Hc. unfold parse.
  destruct (fold_blank command start Hc eq_refl eq_refl eq_refl) as [Ha Hcur].
  unfold finish. by rewrite (trim_spaces _ Hcur), Ha.
Qed.

(** X11: the terminal refuses, without starting a process, the empty
    command, a command of more than 1000 code units, a command of white
    space only, and a command whose first argument is not among the
    commands of the agent ([git] alone when the agent names none). *)
Theorem run_refuses (this : AgentSandbox.t) (command : str) (w : World) :
  (command = [] →
   run this command w = (Throw (Error SandboxMsg.invalid_command), w))
  ∧ ((1000 < length command)%nat →
     run this command w = (Throw (Error SandboxMsg.command_too_long), w))
  ∧ (command ≠ [] → (length command ≤ 1000)%nat →
     forallb is_space command = true →
     run this command w = (Throw (Error SandboxMsg.empty_command), w))
  ∧ (∀ cmd cmdArgs,
       command ≠ [] → (length command ≤ 1000)%nat →
       parse command = cmd :: cmdArgs →
       existsb (eqb_str cmd) (agentAllowedCommands this) = false →
       run this command w
       = (Throw (Error (SandboxMsg.agent_not_allowed ++ cmd)), w)).
Proof.
  unfold run. repeat split.
  - by intros ->.
  - intros Hl. destruct command; [simpl in Hl; lia|].
    unfold eqb_str at 1. rewrite bool_decide_eq_false_2 by done.
    by rewrite (proj2 (Nat.ltb_lt _ _) Hl).
  - intros Hne Hl Hb. unfold eqb_str at 1. rewrite bool_decide_eq_false_2 by done.
    rewrite (proj2 (Nat.ltb_ge _ _) Hl). by rewrite (parse_blank _ Hb).
  - intros cmd cmdArgs Hne Hl Hp Ha. unfold eqb_str at 1.
    rewrite bool_decide_eq_false_2 by done.
    rewrite (proj2 (Nat.ltb_ge _ _) Hl), Hp.
    unfold agentAllowedCommands in Ha. by rewrite Ha.
Qed.

(** X12: whatever the command, the terminal starts at most one
    process, and only for a first argument that is among the commands
    of the agent and on the allow-list of [executeCommand]; the other
    arguments are passed on without shell metacharacters. *)
Theorem run_spawns_only_allowed (this : AgentSandbox.t) (command : str)
    (w : World) :
  let w' := snd (run this command w) in
  trace w' = trace w
  ∨ ∃ s cmd cmdArgs,
      parse command = cmd :: cmdArgs
      ∧ trace w' = EvSpawn s :: trace w
      ∧ sp_command s = cmd
      ∧ existsb (eqb_str cmd) (agentAllowedCommands this) = true
      ∧ existsb (eqb_str cmd) Config.ALLOWED_COMMANDS = true
      ∧ sp_args s = map SecurityUtils.sanitizeArg cmdArgs
      ∧ sp_timeout s = (AgentSandbox.timeout this / 2)%Z.
Proof.
  cbv zeta. unfold run. destruct (eqb_str command []); [by left|].
  destruct (Nat.ltb 1000 (length command)); [by left|].
  destruct (parse command) as [|cmd cmdArgs]; [by left|].
  fold (agentAllowedCommands this).
  destruct (existsb (eqb_str cmd) (agentAllowedCommands this)) eqn:Ha;
    cbn [negb]; [|by left].
  unfold executeCommand, mbind, M_bind, gets.
  destruct (existsb (eqb_str cmd) Config.ALLOWED_COMMANDS) eqn:Hc;
    cbn [negb]; [|by left].
  unfold try_catch, lift.
  destruct (SecurityUtils.validatePath _ _ _) as [validated|e]; [|by left].
  unfold execFileAsync. right. eexists _, cmd, cmdArgs.
  split; [done|]. split; [by destruct (child_process _ _ _)|]. done.
Qed.
End Terminal.

(** ** The read-only file system *)

Section ReadOnly.
Import ReadOnlyFileSystem.

Lemma has_listed (files : list str) (p cwd : str) :
  has files p cwd = true → ∃ f, f ∈ files ∧ p = Path.resolve cwd [f].
Proof.
  unfold has, allowedFiles. intros H. apply existsb_exists in H as (q & Hq & He).
  apply in_map_iff in Hq as (f & <- & Hf).
  exists f. split; [by apply list_elem_of_In|].
  unfold eqb_str in He. by apply bool_decide_eq_true in He.
Qed.

(** X13: what [read] returns is what the context's reader returns for
    the resolved path of one of the files the sandbox was created for,
    a path [validatePath] accepted; without a reader in the context, as
    in the contexts [executeAgents] builds, [read] never returns. *)
Theorem read_returns_listed_content (reader : option (str → M str))
    (files : list str) (filePath content : str) (w w' : World) :
  read reader files filePath w = (Normal content, w') →
  ∃ context_files_read f,
    reader = Some context_files_read
    ∧ f ∈ files
    ∧ SecurityUtils.validatePath (process_cwd w) filePath None
      = Normal (Path.resolve (process_cwd w) [f])
    ∧ context_files_read (Path.resolve (process_cwd w) [f]) w
      = (Normal content, w').
Proof.
  unfold read, mbind, M_bind, gets, lift.
  destruct (SecurityUtils.validatePath _ _ _) as [p|e] eqn:Ev; [|done].
  destruct (has files p (process_cwd w)) eqn:Hh; cbn [negb]; [|done].
  apply has_listed in Hh as (f & Hf & ->).
  unfold try_catch. destruct reader as [rd|]; [|done].
  destruct (rd _ w) as [[c|e] w1] eqn:Er; [|done].
  intros [= <- <-]. by exists rd, f.
Qed.

(** A file outside the list is refused before the reader is asked. *)
Lemma read_refuses_unlisted (reader : option (str → M str))
    (files : list str) (filePath p : str) (w : World) :
  SecurityUtils.validatePath (process_cwd w) filePath None = Normal p →
  has files p (process_cwd w) = false →
  read reader files filePath w
  = (Throw (Error (SandboxMsg.access_denied ++ filePath)), w).
Proof.
  intros Hv Hh. unfold read, mbind, M_bind, gets, lift. by rewrite Hv, Hh.
Qed.
End ReadOnly.

(** ** The cache under an advancing clock *)

Section Capacity.
Import ResultCache.





End Capacity.

(** ** The cache key and the order of the files *)

Section KeyOrder.
Import ResultCache.

Lemma str_leb_total (a b : str) : str_leb a b = true ∨ str_leb b a = true.
Proof.
  revert b. induction a as [|x a IH]; intros [|y b]; simpl; auto.
  destruct (N.ltb_spec x y); [auto|]. destruct (N.ltb_spec y x); [auto|].
  assert (x = y) as -> by lia. rewrite N.eqb_refl. simpl. apply IH.
Qed.

Lemma str_leb_antisym (a b : str) :
  str_leb a b = true → str_leb b a = true → a = b.
Proof.
  revert b. induction a as [|x a IH]; intros [|y b]; simpl; try done.
  destruct (N.ltb_spec x y); destruct (N.ltb_spec y x); simpl; try lia.
  - destruct (N.eqb_spec y x); [lia|done].
  - destruct (N.eqb_spec x y); [lia|done].
  - destruct (N.eqb_spec x y) as [->|]; [|done]. rewrite N.eqb_refl. simpl.
    intros H1 H2. f_equal. by apply IH.
Qed.

Lemma str_leb_trans (a b c : str) :
  str_leb a b = true → str_leb b c = true → str_leb a c = true.
Proof.
  revert b c. induction a as [|x a IH]; intros [|y b] [|z c]; simpl; try done.
  destruct (N.ltb_spec x y), (N.ltb_spec y z), (N.ltb_spec x z); simpl;
    try done; try lia;
    destruct (N.eqb_spec x y), (N.eqb_spec y z), (N.eqb_spec x z); simpl;
    try done; try lia.
  apply IH.
Qed.

Lemma insert_sorted_comm (x y : str) (l : list str) :
  insert_sorted x (insert_sorted y l) = insert_sorted y (insert_sorted x l).
Proof.
  induction l as [|z l IH]; simpl.
  - destruct (str_leb x y) eqn:Exy, (str_leb y x) eqn:Eyx; try done.
    + by rewrite (str_leb_antisym x y).
    + destruct (str_leb_total x y); congruence.
  - destruct (str_leb y z) eqn:Eyz, (str_leb x z) eqn:Exz; simpl;
      rewrite ?Eyz, ?Exz.
    + destruct (str_leb x y) eqn:Exy, (str_leb y x) eqn:Eyx; try done.
      * by rewrite (str_leb_antisym x y).
      * destruct (str_leb_total x y); congruence.
    + destruct (str_leb x y) eqn:Exy; [|done].
      by rewrite (str_leb_trans x y z) in Exz.
    + destruct (str_leb y x) eqn:Eyx; [|done].
      by rewrite (str_leb_trans y x z) in Eyz.
    + by rewrite IH.
Qed.

Lemma sort_Permutation (l l' : list str) :
  Permutation l l' → sort l = sort l'.
Proof.
  unfold sort. induction 1 as [|x l l' _ IH|x y l|l l' l'' _ IH1 _ IH2]; simpl.
  - done.
  - by rewrite IH.
  - apply insert_sorted_comm.
  - congruence.
Qed.

Variable sha256 : str → str.
Variable JSON_stringify : jsval → str.

(** The content [hashFile] digests. *)
Lemma hashFile_hashable (w : World) (f : str) :
  hashable w f →
  hashFile sha256 f w
  = (Normal (sha256 (fileContent w f)), w).
Proof.
  intros (size & content & Hf & Hs). unfold hashFile, mbind, M_bind, gets.
  unfold fileContent. rewrite Hf. by rewrite (proj2 (Z.ltb_ge _ _) Hs).
Qed.

Lemma hashFiles_hashable (w : World) (files : list str) :
  Forall (hashable w) files →
  hashFiles sha256 files w
  = (Normal (map (fun f => sha256 (fileContent w f)) files), w).
Proof.
  induction 1 as [|f files Hf _ IH]; [done|].
  cbn [hashFiles]. unfold mbind, M_bind.
  by rewrite (hashFile_hashable w f Hf), IH.
Qed.

(** X15: for files that can all be read and hashed, the cache key does
    not depend on the order in which the files are given. *)
Theorem getCacheKey_any_order (agent : Agent.t) (files files' : list str)
    (iteration : Z) (w : World) :
  Forall (hashable w) files → Permutation files files' →
  getCacheKey sha256 JSON_stringify agent files iteration w
  = getCacheKey sha256 JSON_stringify agent files' iteration w.
Proof.
  intros Hf Hp. unfold getCacheKey, mbind, M_bind.
  rewrite (hashFiles_hashable w files Hf).
  rewrite (hashFiles_hashable w files').
  - by rewrite (sort_Permutation _ _ (Permutation_map _ Hp)).
  - apply Forall_forall. intros f Hin.
    apply (proj1 (Forall_forall _ _) Hf).
    apply list_elem_of_In. apply list_elem_of_In in Hin.
    by apply (Permutation_in _ (Permutation_sym Hp)).
Qed.

(** X16: the key is made of the agent's id and model, the iteration, the
    contents of the files and the 15-minute window of the call: two calls
    whose files have the same contents, whatever their names and order,
    in the same window, get the same key. *)
Theorem getCacheKey_contents_and_window (agent : Agent.t)
    (files files' : list str) (iteration : Z) (w w' : World) :
  Forall (hashable w) files → Forall (hashable w') files' →
  Permutation (map (fileContent w) files) (map (fileContent w') files') →
  window w = window w' →
  (getCacheKey sha256 JSON_stringify agent files iteration w).1
  = (getCacheKey sha256 JSON_stringify agent files' iteration w').1.
Proof.
  intros Hf Hf' Hp Hw. unfold getCacheKey, mbind, M_bind.
  rewrite (hashFiles_hashable w files Hf).
  rewrite (hashFiles_hashable w' files' Hf').
  unfold Date_now. cbn. unfold window in Hw. rewrite Hw.
  rewrite <- (map_map (fileContent w) sha256).
  rewrite <- (map_map (fileContent w') sha256).
  by rewrite (sort_Permutation _ _ (Permutation_map sha256 Hp)).
Qed.
End KeyOrder.

(** ** The issues [parseAgentOutput] builds *)

Section IssueFields.
Import AgentSandbox.
Variable toLowerCase : str → str.
Variable this : AgentSandbox.t.

Lemma issue_of_match_fields (level : str) (m : match_result) :
  let issue := issue_of_match toLowerCase this level m in
  markup_free (Issue.message issue)
  ∧ (∀ file, Issue.file issue = Some file → markup_free file)
  ∧ (∀ n, Issue.line issue = Some (Some n) → (0 < n < 1000000)%Z)
  ∧ (is_Some (Issue.line issue) ↔ is_Some (Issue.file issue))
  ∧ (Issue.type issue = lit "general"
     ∨ ∃ errorTypes, Agent.errorTypes (agent this) = Some errorTypes
         ∧ Issue.type issue ∈ take 10 errorTypes
         ∧ includes (toLowerCase (Issue.message issue))
                    (replace_first_dash (Issue.type issue)) = true)
  ∧ Issue.type issue ≠ []
  ∧ Issue.category issue = Agent.category (agent this)
  ∧ Issue.priority issue = Agent.priority (agent this)
  ∧ Issue.agentId issue = Agent.id (agent this)
  ∧ Issue.autoFixAvailable issue = Agent.canAutoFix (agent this).
Proof.
  cbv zeta. unfold issue_of_match.
  cbn [Issue.message Issue.file Issue.line Issue.type Issue.category
       Issue.priority Issue.agentId Issue.autoFixAvailable].
  set (message := SecurityUtils.escapeHtml _).
  split; [apply escapeHtml_no_markup|].
  split.
  { intros file. destruct (match_first pat_file message) as [fm|]; [|done].
    simpl. intros [= <-]. apply escapeHtml_no_markup. }
  split.
  { intros n. destruct (match_first pat_file message) as [fm|]; [|done].
    simpl. destruct (capture 2 (m_caps fm)) as [digits|]; [|done].
    destruct (_ && _) eqn:E; [|done]. intros [= <-].
    apply andb_true_iff in E as [?%Z.ltb_lt ?%Z.ltb_lt]. lia. }
  split.
  { destruct (match_first pat_file message); simpl; split; intros [? ?];
      try done; eauto. }
  split.
  { destruct (Agent.errorTypes (agent this)) as [errorTypes|]; [|by left].
    destruct (List.find _ _) as [[|c errorType]|] eqn:E; [by left| |by left].
    right. exists errorTypes. split; [done|].
    apply find_some in E as [Hin Hinc]. split; [|done].
    by apply list_elem_of_In. }
  split.
  { destruct (Agent.errorTypes (agent this)) as [errorTypes|]; [|done].
    by destruct (List.find _ _) as [[|c errorType]|]. }
  done.
Qed.

(** X17: every issue [parseAgentOutput] returns has a message, and a
    file name if any, free of [<], [>] and quotes; a line number, if
    any, between 1 and 999999; a file exactly when it has a line entry;
    a non-empty type that is [general] or one of the agent's first ten
    error types found in the message; and the agent's category,
    priority, id and auto-fix flag. *)
Theorem parseAgentOutput_issue_fields (output : str) :
  Forall (fun issue =>
    markup_free (Issue.message issue)
    ∧ (∀ file, Issue.file issue = Some file → markup_free file)
    ∧ (∀ n, Issue.line issue = Some (Some n) → (0 < n < 1000000)%Z)
    ∧ (is_Some (Issue.line issue) ↔ is_Some (Issue.file issue))
    ∧ (Issue.type issue = lit "general"
       ∨ ∃ errorTypes, Agent.errorTypes (agent this) = Some errorTypes
           ∧ Issue.type issue ∈ take 10 errorTypes
           ∧ includes (toLowerCase (Issue.message issue))
                      (replace_first_dash (Issue.type issue)) = true)
    ∧ Issue.type issue ≠ []
    ∧ Issue.category issue = Agent.category (agent this)
    ∧ Issue.priority issue = Agent.priority (agent this)
    ∧ Issue.agentId issue = Agent.id (agent this)
    ∧ Issue.autoFixAvailable issue = Agent.canAutoFix (agent this))
    (parseAgentOutput toLowerCase this output).
Proof.
  unfold parseAgentOutput. destruct output as [|c output]; [constructor|].
  apply Forall_take. apply Forall_flat_map. apply Forall_forall.
  intros [level pattern] _. apply Forall_map. apply Forall_forall.
  intros m _. apply issue_of_match_fields.
Qed.
End IssueFields.

(** ** What [sanitizeResult] returns *)

Section SanitizedResult.
Import AgentSandbox.

End SanitizedResult.

(** ** The changed files *)

Section ChangedFilesFacts.
Import ChangedFiles.

Lemma indexOf_from_ge (index : nat) (arr : list str) (file : str) :
  file ∈ arr →
  (Z.of_nat index ≤ indexOf_from index arr file
   < Z.of_nat (index + length arr))%Z.
Proof.
  revert index. induction arr as [|x arr IH]; intros index Hin.
  - by apply elem_of_nil in Hin.
  - simpl. unfold eqb_str. case_bool_decide as Hx; [lia|].
    apply elem_of_cons in Hin as [->|Hin]; [done|].
    specialize (IH (S index) Hin). lia.
Qed.

Lemma indexOf_from_first (index : nat) (pre rest : list str) (file : str) :
  file ∉ pre →
  indexOf_from index (pre ++ file :: rest) file
  = Z.of_nat (index + length pre).
Proof.
  revert index. induction pre as [|x pre IH]; intros index Hnin; simpl.
  - unfold eqb_str. rewrite bool_decide_eq_true_2 by done. f_equal. lia.
  - apply not_elem_of_cons in Hnin as [Hne Hnin].
    unfold eqb_str. rewrite bool_decide_eq_false_2 by done.
    rewrite IH by done. f_equal. lia.
Qed.

Lemma indexOf_from_earlier (index : nat) (pre rest : list str) (file : str) :
  file ∈ pre →
  (indexOf_from index (pre ++ rest) file < Z.of_nat (index + length pre))%Z.
Proof.
  revert index. induction pre as [|x pre IH]; intros index Hin; simpl.
  - by apply elem_of_nil in Hin.
  - unfold eqb_str. case_bool_decide as Hx; [lia|].
    apply elem_of_cons in Hin as [->|Hin]; [done|].
    specialize (IH (S index) Hin). lia.
Qed.

(** The elements kept from a suffix of the array are those that occur
    in the suffix and not before it, once each. *)
Lemma first_occurrences_suffix (arr pre rest : list str) :
  arr = pre ++ rest →
  let kept :=
    filter_from (fun file index => (indexOf arr file =? Z.of_nat index)%Z)
                (length pre) rest in
  NoDup kept ∧ ∀ file, file ∈ kept ↔ file ∈ rest ∧ file ∉ pre.
Proof.
  revert pre. induction rest as [|x rest IH]; intros pre Harr; cbv zeta.
  - simpl. split; [constructor|]. intros file. split.
    + by intros ?%elem_of_nil.
    + by intros [?%elem_of_nil _].
  - cbn [filter_from].
    specialize (IH (pre ++ [x])). rewrite <- app_assoc in IH.
    specialize (IH Harr). cbv zeta in IH.
    rewrite length_app in IH. simpl in IH.
    replace (length pre + 1)%nat with (S (length pre)) in IH by lia.
    destruct IH as [Hnd Hel].
    destruct (decide (x ∈ pre)) as [Hin|Hnin].
    + assert ((indexOf arr x =? Z.of_nat (length pre))%Z = false) as ->.
      { apply Z.eqb_neq. subst arr. unfold indexOf.
        pose proof (indexOf_from_earlier 0 pre (x :: rest) x Hin). lia. }
      split; [done|]. intros file. rewrite Hel, elem_of_cons, elem_of_app.
      rewrite list_elem_of_singleton. split.
      * intros [H1 H2]. split; [by right|]. intros ?. apply H2. by left.
      * intros [[->|H1] H2]; [done|]. split; [done|].
        intros [?| ->]; done.
    + assert ((indexOf arr x =? Z.of_nat (length pre))%Z = true) as ->.
      { apply Z.eqb_eq. subst arr. unfold indexOf.
        by rewrite indexOf_from_first. }
      split.
      * constructor; [|done]. rewrite Hel, elem_of_app, list_elem_of_singleton.
        intros [_ H]. apply H. by right.
      * intros file. rewrite !elem_of_cons, Hel, elem_of_app.
        rewrite list_elem_of_singleton. split.
        -- intros [->|[H1 H2]]; [by split; [left|]|].
           split; [by right|]. intros ?. apply H2. by left.
        -- intros [[->|H1] H2]; [by left|].
           destruct (decide (file = x)) as [->|Hne]; [by left|].
           right. split; [done|]. by intros [?|?].
Qed.

Lemma first_occurrences_spec (arr : list str) :
  NoDup (first_occurrences arr)
  ∧ ∀ file, file ∈ first_occurrences arr ↔ file ∈ arr.
Proof.
  destruct (first_occurrences_suffix arr [] arr eq_refl) as [Hnd Hel].
  split; [done|]. intros file. unfold first_occurrences.
  simpl in Hel. rewrite Hel. split; [by intros [? _]|].
  intros H. split; [done|]. by intros ?%elem_of_nil.
Qed.

Lemma is_path_true (f : str) :
  is_path f = true →
  f ≠ [] ∧ startsWith f (lit "commit ") = false ∧ (length f < 260)%nat.
Proof.
  unfold is_path. rewrite !andb_true_iff, negb_true_iff, N.ltb_lt.
  intros [[H1 H2] H3]. split; [by destruct f|]. split; [done|]. lia.
Qed.

(** X19: the list of changed files made of the output of [git log] has
    no duplicates and at most 1000 entries; each entry is a line of the
    output with the white space around it removed, is not empty, is
    shorter than 260 units and does not start with [commit ]; and
    unless the list is full, every such line of the first 1 MiB is in
    it. *)
Theorem changedFiles_spec (stdout : str) :
  let files := changedFiles stdout in
  let lines := map trim (split_lines (take (N.to_nat (1024 * 1024)) stdout)) in
  NoDup files
  ∧ (length files ≤ 1000)%nat
  ∧ Forall (fun f => f ∈ lines ∧ trim f = f ∧ f ≠ []
                     ∧ startsWith f (lit "commit ") = false
                     ∧ (length f < 260)%nat) files
  ∧ ((length files < 1000)%nat →
     ∀ f, f ∈ lines → f ≠ [] → startsWith f (lit "commit ") = false →
          (length f < 260)%nat → f ∈ files).
Proof.
  cbv zeta. unfold changedFiles.
  assert (N.of_nat (N.to_nat (1024 * 1024)) = 1024 * 1024) as Hlimit
    by apply N2Nat.id.
  generalize dependent (N.to_nat (1024 * 1024)). intros limit Hlimit.
  assert ((if 1024 * 1024 <? N.of_nat (length stdout)
           then take limit stdout else stdout)
          = take limit stdout) as ->.
  { destruct (N.ltb_spec (1024 * 1024) (N.of_nat (length stdout))); [done|].
    symmetry. apply take_ge. lia. }
  set (text := take _ stdout).
  destruct (first_occurrences_spec (candidates text)) as [Hnd Hel].
  split; [|split; [|split]].
  - rewrite <- (take_drop 1000 (first_occurrences _)) in Hnd.
    by apply NoDup_app in Hnd as [? _].
  - rewrite length_take. lia.
  - apply Forall_take. apply Forall_forall. intros f Hf.
    apply Hel in Hf. unfold candidates in Hf.
    apply list_elem_of_filter in Hf as [Hp Hin].
    apply Is_true_true in Hp. apply is_path_true in Hp as (? & ? & ?).
    split; [done|]. split; [|done].
    apply list_elem_of_fmap in Hin as (l & -> & _). apply trim_trim.
  - intros Hlen f Hin Hne Hst Hl.
    rewrite take_ge.
    + apply Hel. unfold candidates. apply list_elem_of_filter. split; [|done].
      apply Is_true_true. unfold is_path. rewrite Hst. simpl.
      rewrite andb_true_iff. split; [by destruct f|]. apply N.ltb_lt. lia.
    + rewrite length_take in Hlen. lia.
Qed.
End ChangedFilesFacts.

(** ** The TODO list *)

Section TodoList.
Import Todo.















End TodoList.

Section Threshold.
Import Todo InputValidator.


End Threshold.

(** ** Sample runs *)

(** Two equal escaped texts. *)
Lemma escapeHtml_injective_witness :
  SecurityUtils.escapeHtml (lit "a<b") = SecurityUtils.escapeHtml (lit "a<b")
  ∧ lit "a<b" = lit "a<b".
Proof.
  split; [reflexivity|].
  apply (escapeHtml_injective (lit "a<b") (lit "a<b")). reflexivity.
Defined.

(** [git status] in the sample world, whose working directory is
    [/srv/app]. *)
Lemma executeCommand_never_starts_witness :
  Path.isAbsolute (process_cwd w0) = true
  ∧ ∃ msg, executeCommand (lit "git") [lit "status"] None w0
           = (Throw (Error msg), w0).
Proof.
  split; [reflexivity|].
  apply (executeCommand_never_starts (lit "git") [lit "status"] None w0).
  reflexivity.
Defined.

Lemma getClaudeCommand_never_finds_witness :
  Path.isAbsolute (process_cwd w0) = true
  ∧ getClaudeCommand w0 = (Throw (Error Msg.no_claude), w0).
Proof.
  split; [reflexivity|].
  apply (getClaudeCommand_never_finds w0). reflexivity.
Defined.

(** The security worker of the catalogue in the sample world. *)
Lemma execute_always_fails_witness :
  ∃ r w',
    AgentSandbox.execute ascii_lower
      (AgentSandbox.new (worker "sec" (Some "critical")) here)
      [lit "a.js"] 1 w0 = (Normal r, w')
    ∧ ExecutionResult.issues r = []
    ∧ ExecutionResult.rawOutput r = []
    ∧ (ExecutionResult.error r = Some Msg.no_claude
       ∨ ExecutionResult.error r = Some Msg.timeout)
    ∧ spawn_count w' = spawn_count w0.
Proof.
  apply (execute_always_fails ascii_lower
           (AgentSandbox.new (worker "sec" (Some "critical")) here)
           [lit "a.js"] 1 w0).
  reflexivity.
Defined.

(** The catalogue in the sample world. *)
Lemma executeAgents_all_fail_witness :
  ∃ rs w',
    ParallelExecutor.executeAgents ascii_lower [lit "a.js"] here 1 catalogue w0
    = (Normal rs, w')
    ∧ Forall failed rs
    ∧ length rs = length (scheduled catalogue)
    ∧ spawn_count w' = spawn_count w0.
Proof.
  apply (executeAgents_all_fail ascii_lower [lit "a.js"] here 1 catalogue w0).
  - reflexivity.
  - exact no_inherited_catalogue.
Defined.

(** The command [git log -n]. *)
Lemma parse_joined_words_witness :
  RestrictedTerminal.parse (join (lit " ") [lit "git"; lit "log"; lit "-n"])
  = [lit "git"; lit "log"; lit "-n"].
Proof.
  apply (parse_joined_words [lit "git"; lit "log"; lit "-n"]).
  repeat (apply List.Forall_cons; [split; [discriminate|reflexivity]|]).
  apply List.Forall_nil.
Defined.

Lemma validatePath_sample :
  SecurityUtils.validatePath (lit "/srv/app") (lit "a.txt") None
  = Normal (lit "/srv/app/a.txt").
Proof. vm_compute. reflexivity. Qed.

Lemma read_sample :
  ReadOnlyFileSystem.read (Some fs_reader) [lit "a.txt"] (lit "a.txt") w_files
  = (Normal (lit "one"), w_files).
Proof.
  unfold ReadOnlyFileSystem.read, mbind, M_bind, gets, lift.
  change (process_cwd w_files) with (lit "/srv/app").
  rewrite validatePath_sample.
  assert (ReadOnlyFileSystem.has [lit "a.txt"] (lit "/srv/app/a.txt")
            (lit "/srv/app") = true) as -> by (vm_compute; reflexivity).
  cbn [negb]. unfold try_catch, fs_reader.
  change (fs w_files (lit "/srv/app/a.txt")) with (Some (3%Z, lit "one")).
  reflexivity.
Qed.

(** Reading the listed file [a.txt] of the sample world. *)
Lemma read_returns_listed_content_witness :
  ∃ context_files_read f,
    Some fs_reader = Some context_files_read
    ∧ f ∈ [lit "a.txt"]
    ∧ SecurityUtils.validatePath (process_cwd w_files) (lit "a.txt") None
      = Normal (Path.resolve (process_cwd w_files) [f])
    ∧ context_files_read (Path.resolve (process_cwd w_files) [f]) w_files
      = (Normal (lit "one"), w_files).
Proof.
  apply (read_returns_listed_content (Some fs_reader) [lit "a.txt"]
           (lit "a.txt") (lit "one") w_files w_files).
  exact read_sample.
Defined.


(** The two files of the sample world, in both orders. *)
Lemma getCacheKey_any_order_witness :
  ResultCache.getCacheKey plain_digest count_text (worker "sec" (Some "critical"))
    [lit "/srv/app/a.txt"; lit "/srv/app/b.txt"] 1 w_files
  = ResultCache.getCacheKey plain_digest count_text (worker "sec" (Some "critical"))
      [lit "/srv/app/b.txt"; lit "/srv/app/a.txt"] 1 w_files.
Proof.
  apply (getCacheKey_any_order plain_digest count_text
           (worker "sec" (Some "critical"))
           [lit "/srv/app/a.txt"; lit "/srv/app/b.txt"]
           [lit "/srv/app/b.txt"; lit "/srv/app/a.txt"] 1 w_files).
  - apply List.Forall_cons; [|apply List.Forall_cons; [|apply List.Forall_nil]].
    + exists 3%Z, (lit "one"). split; [reflexivity|]. lia.
    + exists 3%Z, (lit "two"). split; [reflexivity|]. lia.
  - apply perm_swap.
Defined.

(** The same files one millisecond later. *)
Lemma getCacheKey_contents_and_window_witness :
  (ResultCache.getCacheKey plain_digest count_text
     (worker "sec" (Some "critical"))
     [lit "/srv/app/a.txt"; lit "/srv/app/b.txt"] 1 w_files).1
  = (ResultCache.getCacheKey plain_digest count_text
       (worker "sec" (Some "critical"))
       [lit "/srv/app/b.txt"; lit "/srv/app/a.txt"] 1 (tick_clock w_files)).1.
Proof.
  apply (getCacheKey_contents_and_window plain_digest count_text
           (worker "sec" (Some "critical"))
           [lit "/srv/app/a.txt"; lit "/srv/app/b.txt"]
           [lit "/srv/app/b.txt"; lit "/srv/app/a.txt"] 1
           w_files (tick_clock w_files)).
  - apply List.Forall_cons; [|apply List.Forall_cons; [|apply List.Forall_nil]].
    + exists 3%Z, (lit "one"). split; [reflexivity|]. lia.
    + exists 3%Z, (lit "two"). split; [reflexivity|]. lia.
  - apply List.Forall_cons; [|apply List.Forall_cons; [|apply List.Forall_nil]].
    + exists 3%Z, (lit "two"). split; [reflexivity|]. lia.
    + exists 3%Z, (lit "one"). split; [reflexivity|]. lia.
  - apply perm_swap.
  - reflexivity.
Defined.
